(** * Wallet-system: ledger pipeline and block builder

    A shallow embedding of the transfer intake ([WalletService.submitTransfer]),
    the executor ([TransactionProcessorService.executeSingleTransaction] with
    [failTransaction], [markTransactionFailed], [revertLockOnAccount]) and the
    block builder ([BlockService]) of the repository, with the properties the
    specification states about them; and further the queue
    ([TransactionQueueService.addToMempool], [getFromMempool]), the
    processing cycle ([processMempoolAndCreateBlock], with the [catch] block
    of the executor and [moveToDLQ]), the block lookups ([getBlockByHash],
    [getTransactionsInBlock]) and two more operations of the wallet service
    ([getTransactionBySystemHash], [createAccountInWallet]), with properties
    read off the code.

    Modelling conventions.
    - Strings are byte strings (Rocq [string]) holding UTF-8; system hashes
      and addresses are ASCII, for which JS code-unit order and UTF-8 byte
      order coincide.  [substring(0, n)] counts UTF-16 code units
      ([substring0]): one per character of up to three bytes, two per
      character of four bytes.
    - Monetary amounts ([balance], [locked], [amount]) are integers counting
      units of 10^-8, the scale of the [decimal(18,8)] columns.  The source
      computes with [Decimal] and converts every amount it writes with
      [toNumber()]: the nearest double, sent to the store as the shortest
      decimal that reads back as that double, and rounded there to 8
      fractional digits ([toNumber]).  Up to [MAX_EXACT] the round trip is
      the identity ([toNumber_exact]); beyond it the amount written may
      differ from the amount computed.
    - The executor runs its [try] block inside a store transaction
      ([executeSingleTransaction_try]); its writes reach the store when the
      block ends in [commitTransaction()] ([executeSingleTransaction]).
    - [nonce] and [height] are [bigint] columns carried as decimal strings
      in the source and converted with [BigInt]; here they are [Z].
    - The relational store is a record of tables, each a list of rows.
      [findOne] returns the first row that matches, [save] writes the entity
      over the rows with its primary key (or inserts it), [update] patches
      the rows with the given primary key.
    - Unique indexes are part of the inserts ([insertTransaction],
      [insertBlock]).  The [@Check] constraints of the account entity are
      not part of [save]: the theorems on [lockDiscipline] are about the
      values the code writes.
    - Generated values (row uuids, [randomBytes], [new Date()]) are inputs.
      The balance cache ([balance:<address>] keys) is left out.
    - A processing cycle reads what lies outside the store from a
      [CycleEnv]: whether the Redis lock of a transaction is acquired,
      whether a store call fails while it is executed, and the clock.  The
      timer that starts the cycles is not modelled; runs are sequences of
      intakes and whole cycles.
    - The wallet table is an argument of [createAccountInWallet], the only
      operation modelled here that reads it. *)

From Stdlib Require Import ZArith List String Ascii Bool Lia Permutation Sorted.
From Stdlib Require Import DecimalString Relations.
From Equations Require Import Equations.
Import ListNotations.

Local Open Scope string_scope.
Local Open Scope list_scope.
Local Open Scope Z_scope.

(* ===================================================================== *)
(** ** SHA-256 ([createHash('sha256').update(s).digest('hex')]) *)
(* ===================================================================== *)

Module SHA256.

Definition w32 (x : Z) : Z := x mod 4294967296.

Definition add32 (x y : Z) : Z := w32 (x + y).

Definition rotr (n x : Z) : Z :=
  Z.lor (Z.shiftr x n) (w32 (Z.shiftl x (32 - n))).

Definition shr (n x : Z) : Z := Z.shiftr x n.

Definition not32 (x : Z) : Z := Z.lxor x 4294967295.

Definition Ch (x y z : Z) : Z := Z.lxor (Z.land x y) (Z.land (not32 x) z).

Definition Maj (x y z : Z) : Z :=
  Z.lxor (Z.lxor (Z.land x y) (Z.land x z)) (Z.land y z).

Definition bigSigma0 (x : Z) : Z :=
  Z.lxor (Z.lxor (rotr 2 x) (rotr 13 x)) (rotr 22 x).

Definition bigSigma1 (x : Z) : Z :=
  Z.lxor (Z.lxor (rotr 6 x) (rotr 11 x)) (rotr 25 x).

Definition smallSigma0 (x : Z) : Z :=
  Z.lxor (Z.lxor (rotr 7 x) (rotr 18 x)) (shr 3 x).

Definition smallSigma1 (x : Z) : Z :=
  Z.lxor (Z.lxor (rotr 17 x) (rotr 19 x)) (shr 10 x).

(** The round constants are the first 32 bits of the fractional parts of
    the cube roots of the first 64 primes, the initial hash value those of
    the square roots of the first 8 (FIPS 180-4, 4.2.2 and 5.3.3). *)

Definition is_prime (p : Z) : bool :=
  forallb (fun d => negb (p mod Z.of_nat d =? 0)) (seq 2 (Z.to_nat p - 2)).

Definition primes64 : list Z := filter is_prime (map Z.of_nat (seq 2 310)).

Fixpoint cube_root (bit : nat) (n r : Z) : Z :=
  match bit with
  | O => r
  | S b =>
      let c := r + Z.shiftl 1 (Z.of_nat b) in
      cube_root b n (if c * c * c <=? n then c else r)
  end.

Definition frac_cbrt (p : Z) : Z := w32 (cube_root 36 (Z.shiftl p 96) 0).

Definition frac_sqrt (p : Z) : Z := w32 (Z.sqrt (Z.shiftl p 64)).

Definition K : list Z := Eval vm_compute in map frac_cbrt primes64.

Definition H0 : list Z := Eval vm_compute in map frac_sqrt (firstn 8 primes64).

(** Padding: the message, the byte 0x80, zero bytes up to 56 modulo 64,
    then the bit length as a 64-bit big-endian integer. *)

Fixpoint be_bytes (n : nat) (x : Z) : list Z :=
  match n with
  | O => []
  | S n' => (Z.shiftr x (8 * Z.of_nat n')) mod 256 :: be_bytes n' x
  end.

Definition pad (msg : list Z) : list Z :=
  let len := Z.of_nat (List.length msg) in
  let zeros := Z.to_nat ((55 - len) mod 64) in
  msg ++ [128] ++ repeat 0 zeros ++ be_bytes 8 (8 * len).

Fixpoint words (fuel : nat) (bs : list Z) : list Z :=
  match fuel, bs with
  | S f, b0 :: b1 :: b2 :: b3 :: rest =>
      (b0 * 16777216 + b1 * 65536 + b2 * 256 + b3) :: words f rest
  | _, _ => []
  end.

Fixpoint blocks (fuel : nat) (ws : list Z) : list (list Z) :=
  match fuel, ws with
  | S f, _ :: _ => firstn 16 ws :: blocks f (skipn 16 ws)
  | _, _ => []
  end.

(** Message schedule, kept most-recent-first while it is extended. *)

Fixpoint extend (n : nat) (rev_w : list Z) : list Z :=
  match n with
  | O => rev_w
  | S n' =>
      let w2 := nth 1 rev_w 0 in
      let w7 := nth 6 rev_w 0 in
      let w15 := nth 14 rev_w 0 in
      let w16 := nth 15 rev_w 0 in
      extend n'
        (add32 (add32 (smallSigma1 w2) w7) (add32 (smallSigma0 w15) w16)
           :: rev_w)
  end.

Definition schedule (block : list Z) : list Z := rev (extend 48 (rev block)).

Record regs : Type := mkRegs
  { ra : Z; rb : Z; rc : Z; rd : Z; re : Z; rf : Z; rg : Z; rh : Z }.

Definition round (r : regs) (kw : Z * Z) : regs :=
  let t1 :=
    add32 (add32 (add32 (rh r) (bigSigma1 (re r)))
                 (add32 (Ch (re r) (rf r) (rg r)) (fst kw))) (snd kw) in
  let t2 := add32 (bigSigma0 (ra r)) (Maj (ra r) (rb r) (rc r)) in
  mkRegs (add32 t1 t2) (ra r) (rb r) (rc r) (add32 (rd r) t1)
         (re r) (rf r) (rg r).

Definition regs_of (h : list Z) : regs :=
  mkRegs (nth 0 h 0) (nth 1 h 0) (nth 2 h 0) (nth 3 h 0)
         (nth 4 h 0) (nth 5 h 0) (nth 6 h 0) (nth 7 h 0).

Definition compress (h : list Z) (block : list Z) : list Z :=
  let r := fold_left round (combine K (schedule block)) (regs_of h) in
  [ add32 (nth 0 h 0) (ra r); add32 (nth 1 h 0) (rb r);
    add32 (nth 2 h 0) (rc r); add32 (nth 3 h 0) (rd r);
    add32 (nth 4 h 0) (re r); add32 (nth 5 h 0) (rf r);
    add32 (nth 6 h 0) (rg r); add32 (nth 7 h 0) (rh r) ].

Definition digest_words (msg : list Z) : list Z :=
  let p := pad msg in
  let n := List.length p in
  fold_left compress (blocks n (words n p)) H0.

Definition hex_digit (x : Z) : ascii :=
  if x <? 10 then ascii_of_N (Z.to_N (48 + x))
  else ascii_of_N (Z.to_N (87 + x)).

Fixpoint hex_of (n : nat) (x : Z) : string :=
  match n with
  | O => EmptyString
  | S n' =>
      String (hex_digit ((Z.shiftr x (4 * Z.of_nat n')) mod 16)) (hex_of n' x)
  end.

Definition bytes_of_string (s : string) : list Z :=
  map (fun c => Z.of_N (N_of_ascii c)) (list_ascii_of_string s).

Definition hex (s : string) : string :=
  String.concat EmptyString
    (map (hex_of 8) (digest_words (bytes_of_string s))).

End SHA256.

(** [createHash('sha256').update(data).digest('hex')] *)
Definition sha256 (data : string) : string := SHA256.hex data.

(* ===================================================================== *)
(** ** JavaScript string and array primitives used by the services *)
(* ===================================================================== *)

(** [a || b] on a nullable string: [null], [undefined] and the empty
    string are falsy. *)
Definition orElse (a : option string) (b : string) : string :=
  match a with
  | Some x => if (x =? EmptyString)%string then b else x
  | None => b
  end.

(** [Array.prototype.sort()] without comparator: ascending by code units.
    The result of a sort is fixed by the order alone (see [js_sort_unique]),
    so the algorithm chosen here is immaterial. *)
Fixpoint insert (x : string) (l : list string) : list string :=
  match l with
  | [] => [x]
  | y :: r => if (x <=? y)%string then x :: l else y :: insert x r
  end.

Definition js_sort (l : list string) : list string := fold_right insert [] l.

(** The order [sort()] arranges by. *)
Definition leS (a b : string) : Prop := (a <=? b)%string = true.

(** [arr.join('')] *)
Definition join (l : list string) : string := String.concat EmptyString l.

(** [BigInt.prototype.toString()] *)
Definition bigint_toString (z : Z) : string :=
  NilZero.string_of_int (Z.to_int z).

(** [String.prototype.toUpperCase()] on ASCII text. *)
Definition upper_ascii (c : ascii) : ascii :=
  let n := N_of_ascii c in
  if ((97 <=? n) && (n <=? 122))%N then ascii_of_N (n - 32) else c.

Fixpoint toUpperCase (s : string) : string :=
  match s with
  | EmptyString => EmptyString
  | String c r => String (upper_ascii c) (toUpperCase r)
  end.

(** [s.substring(0, n)].  A JS string is a sequence of UTF-16 code units;
    here it is the string of its UTF-8 bytes.  A byte that opens a
    character stands for the code units of that character: one, or two (a
    surrogate pair) when the sequence has four bytes; the bytes that continue
    a sequence stand for none. *)
Definition isContinuation (c : ascii) : bool :=
  let n := N_of_ascii c in ((128 <=? n) && (n <? 192))%N.

Definition codeUnits (c : ascii) : nat :=
  if isContinuation c then 0%nat
  else if (240 <=? N_of_ascii c)%N then 2%nat else 1%nat.

(** [s.length] *)
Fixpoint utf16_length (s : string) : nat :=
  match s with
  | EmptyString => 0%nat
  | String c r => (codeUnits c + utf16_length r)%nat
  end.

(** U+FFFD, which the UTF-8 encoder writes for a surrogate left alone. *)
Definition REPLACEMENT : string :=
  String (ascii_of_nat 239)
    (String (ascii_of_nat 191) (String (ascii_of_nat 189) EmptyString)).

(** The first [n] code units.  When the cut falls inside a surrogate pair
    the first half is kept, and reaches the store as U+FFFD. *)
Fixpoint substring0 (n : nat) (s : string) : string :=
  match s with
  | EmptyString => EmptyString
  | String c r =>
      match codeUnits c, n with
      | O, _ => String c (substring0 n r)
      | S O, S n' => String c (substring0 n' r)
      | S (S _), S (S n') => String c (substring0 n' r)
      | S (S _), S O => REPLACEMENT
      | _, _ => EmptyString
      end
  end.

(* ===================================================================== *)
(** ** Amounts as JavaScript numbers *)
(* ===================================================================== *)

(** An amount is an integer count of units of 10^-8.  The services compute
    with [Decimal], which is exact on the 18 digits of the columns, and
    write [d.toNumber()], an IEEE 754 binary64 number, into a
    [decimal(18,8)] column: the driver sends the number as
    [Number.prototype.toString] prints it, the shortest decimal that reads
    back as the same double, and the store rounds that text to 8 fractional
    digits.  [toNumber] below is this path from the [Decimal] to the stored
    amount.  The exponent of a double is taken as unbounded: amounts are
    far from both ends of binary64. *)
Definition SCALE : Z := 100000000.

(** The integer nearest to [a / b] for [b > 0], a tie going to the even
    one. *)
Definition roundHalfEven (a b : Z) : Z :=
  let q := a / b in
  let r := a mod b in
  if 2 * r <? b then q
  else if b <? 2 * r then q + 1
  else if Z.even q then q else q + 1.

(** [x / (SCALE * 2^e)] as a fraction of integers. *)
Definition scaled (x e : Z) : Z * Z :=
  (x * 2 ^ Z.max 0 (- e), SCALE * 2 ^ Z.max 0 e).

(** The binary exponent [b] of [x / SCALE] for [x > 0]:
    [2^b <= x / SCALE < 2^(b+1)]. *)
Definition binade (x : Z) : Z :=
  let k := Z.log2 x - 26 in
  let '(n, d) := scaled x k in
  if d <=? n then k else k - 1.

(** The double nearest to [x / SCALE] for [x > 0], as its 53-bit
    significand [m] and exponent [e]: the number [m * 2^e]. *)
Definition binary64 (x : Z) : Z * Z :=
  let e := binade x - 52 in
  let '(n, d) := scaled x e in
  let m := roundHalfEven n d in
  if m =? 2 ^ 53 then (2 ^ 52, e + 1) else (m, e).

(** The decimals that read back as the double [m * 2^e] lie between the
    midpoints to its two neighbours, and the midpoints count when [m] is
    even.  In units of [2^(e-2)] the double is [4 * m]; the neighbour below
    a power of two is half as far as the one above. *)
Definition lowMid (m : Z) : Z := if m =? 2 ^ 52 then 4 * m - 1 else 4 * m - 2.

Definition highMid (m : Z) : Z := 4 * m + 2.

(** [s * 10^p] is compared with [c * 2^(e-2)] as [s * gridUnit p e] with
    [c * binUnit p e]. *)
Definition gridUnit (p e : Z) : Z := 10 ^ Z.max 0 p * 2 ^ Z.max 0 (2 - e).

Definition binUnit (p e : Z) : Z := 10 ^ Z.max 0 (- p) * 2 ^ Z.max 0 (e - 2).

Definition ceilDiv (a b : Z) : Z := - ((- a) / b).

(** Among the multiples [s * 10^p] of [10^p] that read back as the double,
    the one nearest to it (the even [s] on a tie), if there is any. *)
Definition onGrid (m e p : Z) : option Z :=
  let a := gridUnit p e in
  let b := binUnit p e in
  let lo := lowMid m * b in
  let hi := highMid m * b in
  let smin := if Z.even m then ceilDiv lo a else lo / a + 1 in
  let smax := if Z.even m then hi / a else ceilDiv hi a - 1 in
  if smin <=? smax
  then Some (Z.max smin (Z.min smax (roundHalfEven (4 * m * b) a)))
  else None.

(** [Number.prototype.toString]: the digits [s] and the exponent [p] of the
    shortest decimal [s * 10^p] that reads back as the double, found on the
    coarsest grid that holds one.  Seventeen digits always do, so the scan
    ends before the fuel does. *)
Fixpoint shortest (fuel : nat) (m e p : Z) : Z * Z :=
  match fuel with
  | O => (0, 0)
  | S fuel' =>
      match onGrid m e p with
      | Some s => (s, p)
      | None => shortest fuel' m e (p - 1)
      end
  end.

(** The [decimal(18,8)] column rounds its input to 8 fractional digits,
    half away from zero. *)
Definition toScale8 (s p : Z) : Z :=
  if 0 <=? p + 8 then s * 10 ^ (p + 8)
  else (2 * s + 10 ^ (- p - 8)) / (2 * 10 ^ (- p - 8)).

Definition storedPositive (x : Z) : Z :=
  let '(m, e) := binary64 x in
  let p0 := Z.log2 x in
  let '(s, p) := shortest (Z.to_nat (p0 + 34)) m e p0 in
  toScale8 s p.

(** [d.toNumber()] as it reaches the column, for the [Decimal] of [x]
    units. *)
Definition toNumber (x : Z) : Z :=
  match x with
  | 0 => 0
  | Zpos _ => storedPositive x
  | Zneg _ => - storedPositive (- x)
  end.

Arguments toNumber : simpl never.

(** The largest amount below 2^26 = 67108864, in units of 10^-8.  Below
    2^26 two doubles next to each other lie less than 10^-8 apart, and
    the conversion is exact (see [toNumber_exact]). *)
Definition MAX_EXACT : Z := 6710886399999999.

(** [X] units read back as the double [m * 2^e] (for [e < 2]): [X / SCALE]
    lies between the midpoints, or strictly between them. *)
Definition reads (m e X : Z) : Prop :=
  lowMid m * SCALE <= X * 2 ^ (2 - e) <= highMid m * SCALE.

Definition readsStrictly (m e X : Z) : Prop :=
  lowMid m * SCALE < X * 2 ^ (2 - e) < highMid m * SCALE.

(* ===================================================================== *)
(** ** Entities (libs/persistance) *)
(* ===================================================================== *)

Inductive TransactionStatusTypeORM : Type :=
  PENDING | PROCESSING | CONFIRMED | FAILED | CANCELLED.

Inductive TransactionTypeTypeORM : Type :=
  TRANSFER | DEPOSIT | WITHDRAWAL | FEE | ADJUSTMENT | GENESIS.

Definition status_eqb (a b : TransactionStatusTypeORM) : bool :=
  match a, b with
  | PENDING, PENDING | PROCESSING, PROCESSING | CONFIRMED, CONFIRMED
  | FAILED, FAILED | CANCELLED, CANCELLED => true
  | _, _ => false
  end.

(** [wallet_userId] is the [userId] of the owning wallet, the column the
    intake filters on through the [wallet] relation. *)
Record Account : Type := mkAccount
  { acc_id : string;
    systemAddress : string;
    balance : Z;
    locked : Z;
    nonce : Z;
    acc_currency : string;
    walletId : string;
    wallet_userId : string }.

Record Transaction : Type := mkTransaction
  { tx_id : string;
    systemHash : string;
    fromAccountId : string;
    toAccountId : string;
    amount : Z;
    fee : Z;
    tx_currency : string;
    status : TransactionStatusTypeORM;
    accountNonce : Z;
    description : option string;
    tx_type : TransactionTypeTypeORM;
    blockId : option string;
    blockHeight : option Z }.

Record Block : Type := mkBlock
  { block_id : string;
    height : Z;
    blockHash : string;
    previousBlockHash : option string;
    timestamp : string;
    merkleRoot : option string }.

Definition set_locked (a : Account) (v : Z) : Account :=
  mkAccount (acc_id a) (systemAddress a) (balance a) v (nonce a)
            (acc_currency a) (walletId a) (wallet_userId a).

Definition set_balance (a : Account) (v : Z) : Account :=
  mkAccount (acc_id a) (systemAddress a) v (locked a) (nonce a)
            (acc_currency a) (walletId a) (wallet_userId a).

Definition set_nonce (a : Account) (v : Z) : Account :=
  mkAccount (acc_id a) (systemAddress a) (balance a) (locked a) v
            (acc_currency a) (walletId a) (wallet_userId a).

Definition set_status (t : Transaction) (v : TransactionStatusTypeORM)
  : Transaction :=
  mkTransaction (tx_id t) (systemHash t) (fromAccountId t) (toAccountId t)
                (amount t) (fee t) (tx_currency t) v (accountNonce t)
                (description t) (tx_type t) (blockId t) (blockHeight t).

Definition set_description (t : Transaction) (v : option string)
  : Transaction :=
  mkTransaction (tx_id t) (systemHash t) (fromAccountId t) (toAccountId t)
                (amount t) (fee t) (tx_currency t) (status t) (accountNonce t)
                v (tx_type t) (blockId t) (blockHeight t).

(* ===================================================================== *)
(** ** The store and the queue *)
(* ===================================================================== *)

(** The three tables of the relational store and the two Redis lists. *)
Record State : Type := mkState
  { accounts : list Account;
    transactions : list Transaction;
    blocks : list Block;
    mempool : list string;
    deadLetter : list string }.

Definition with_accounts (s : State) (v : list Account) : State :=
  mkState v (transactions s) (blocks s) (mempool s) (deadLetter s).

Definition with_transactions (s : State) (v : list Transaction) : State :=
  mkState (accounts s) v (blocks s) (mempool s) (deadLetter s).

Definition with_blocks (s : State) (v : list Block) : State :=
  mkState (accounts s) (transactions s) v (mempool s) (deadLetter s).

Definition with_mempool (s : State) (v : list string) : State :=
  mkState (accounts s) (transactions s) (blocks s) v (deadLetter s).

Definition with_deadLetter (s : State) (v : list string) : State :=
  mkState (accounts s) (transactions s) (blocks s) (mempool s) v.

Inductive Exception : Type :=
  | BadRequestException
  | ForbiddenException
  | NotFoundException
  | InternalServerErrorException
  | QueryFailedError.

(** [manager.save(Entity, row)]: rows carrying the primary key of [row]
    are overwritten; without such a row, [row] is inserted. *)
Definition save {A : Type} (key : A -> string) (row : A) (rows : list A)
  : list A :=
  if existsb (fun r => (key r =? key row)%string) rows
  then map (fun r => if (key r =? key row)%string then row else r) rows
  else rows ++ [row].

Definition saveAccount (a : Account) (s : State) : State :=
  with_accounts s (save acc_id a (accounts s)).

Definition saveTransaction (t : Transaction) (s : State) : State :=
  with_transactions s (save tx_id t (transactions s)).

(** [manager.findOne(Account, { where: { id } })] *)
Definition findAccountById (id : string) (s : State) : option Account :=
  find (fun a => (acc_id a =? id)%string) (accounts s).

(** [manager.findOne(Transaction, { where: { id } })] *)
Definition findTransaction (txId : string) (s : State) : option Transaction :=
  find (fun t => (tx_id t =? txId)%string) (transactions s).

(** [manager.update(Account, id, { locked })] *)
Definition updateAccountLocked (id : string) (v : Z) (s : State) : State :=
  with_accounts s
    (map (fun a => if (acc_id a =? id)%string then set_locked a v else a)
         (accounts s)).

(** [redisCacheService.lpush(list, value)] *)
Definition lpush (value : string) (l : list string) : list string := value :: l.

(* ===================================================================== *)
(** ** BlockService (libs/common/src/lib/block/block.service.ts) *)
(* ===================================================================== *)

Definition GENESIS_PREV : string := "GENESIS_BLOCK_PREV_HASH_0000000000000".

(** [calculateBlockHash].  [transactionSystemHashes.sort()] sorts the
    caller's array in place, so the array after the call is returned next
    to the digest.  [timestamp] stands for [timestamp.toISOString()]. *)
Definition calculateBlockHash (height : string) (timestamp : string)
    (previousBlockHash : option string) (transactionSystemHashes : list string)
  : string * list string :=
  let sorted := js_sort transactionSystemHashes in
  let data :=
    (height ++ timestamp ++ orElse previousBlockHash GENESIS_PREV
       ++ join sorted)%string in
  (sha256 data, sorted).

(** One pass of the inner [for (i = 0; i < currentLevel.length; i += 2)]. *)
Fixpoint nextLevel (currentLevel : list string) : list string :=
  match currentLevel with
  | [] => []
  | [lhs] => [sha256 (lhs ++ lhs)%string]
  | lhs :: rhs :: rest => sha256 (lhs ++ rhs)%string :: nextLevel rest
  end.

(** [while (currentLevel.length > 1) { ...; currentLevel = nextLevel }];
    every pass over two or more nodes shortens the level. *)
Equations? merkleLoop (currentLevel : list string) : list string
  by wf (List.length currentLevel) lt :=
  merkleLoop [] := [];
  merkleLoop [root] := [root];
  merkleLoop (lhs :: rhs :: rest) :=
    merkleLoop (nextLevel (lhs :: rhs :: rest)).
Proof.
  assert (shrink : forall n (l : list string),
             (List.length l <= n)%nat ->
             (List.length (nextLevel l) <= List.length l)%nat).
  { induction n as [|n IH]; intros [|x [|y r]] Hle; simpl in *; try lia.
    specialize (IH r). lia. }
  specialize (shrink (List.length rest) rest (Nat.le_refl _)). simpl. lia.
Qed.

(** [calculateMerkleRoot], again with the array as the call leaves it:
    untouched on the two early returns, sorted afterwards. *)
Definition calculateMerkleRoot (transactionSystemHashes : list string)
  : string * list string :=
  match transactionSystemHashes with
  | [] => (sha256 EmptyString, transactionSystemHashes)
  | [only] => (sha256 only, transactionSystemHashes)
  | _ =>
      let sorted := js_sort transactionSystemHashes in
      (hd EmptyString (merkleLoop sorted), sorted)
  end.

(** [repository.find({ order: { height: 'DESC' }, take: 1 })] *)
Fixpoint highest (bs : list Block) : option Block :=
  match bs with
  | [] => None
  | b :: rest =>
      match highest rest with
      | None => Some b
      | Some m => if height m <? height b then Some b else Some m
      end
  end.

Definition getLatestBlock (s : State) : option Block := highest (blocks s).

(** [repository.findOne({ where: { height } })] *)
Definition getBlockByHeight (h : Z) (s : State) : option Block :=
  find (fun b => height b =? h) (blocks s).

(** [manager.save(Block, newBlockEntity)]: an insert, refused by the
    primary key and by the unique indexes on [height] and [blockHash]. *)
Definition insertBlock (b : Block) (s : State) : Exception + State :=
  if existsb (fun o => (block_id o =? block_id b)%string
                       || (height o =? height b)
                       || (blockHash o =? blockHash b)%string) (blocks s)
  then inl QueryFailedError
  else inr (with_blocks s (blocks s ++ [b])).

(** [createBlockWithTypeORM].  [newId] is the uuid the store generates,
    [now] is [new Date().toISOString()]; a processed transaction is the
    pair of its [id] and [systemHash]. *)
Definition createBlockWithTypeORM (newId now : string)
    (processedTransactions : list (string * string)) (s : State)
  : Exception + (Block * State) :=
  match processedTransactions with
  | [] => inl InternalServerErrorException
  | _ =>
      let latestBlock := getLatestBlock s in
      let previousBlockHash := option_map blockHash latestBlock in
      let newHeight :=
        match latestBlock with
        | Some l => height l + 1
        | None => 0
        end in
      let newHeightStr := bigint_toString newHeight in
      let transactionSystemHashes := map snd processedTransactions in
      let '(blockHash, transactionSystemHashes) :=
        calculateBlockHash newHeightStr now previousBlockHash
                           transactionSystemHashes in
      let '(merkleRoot, _) := calculateMerkleRoot transactionSystemHashes in
      let newBlockEntity :=
        mkBlock newId newHeight blockHash previousBlockHash now
                (Some merkleRoot) in
      match insertBlock newBlockEntity s with
      | inl e => inl e
      | inr s' => inr (newBlockEntity, s')
      end
  end.

(* ===================================================================== *)
(** ** WalletService.submitTransfer *)
(* ===================================================================== *)

(** [manager.save(Transaction, entity)] of a new entity: an insert, refused
    by the primary key and by the unique index on [systemHash]. *)
Definition insertTransaction (t : Transaction) (s : State)
  : Exception + State :=
  if existsb (fun o => (tx_id o =? tx_id t)%string
                       || (systemHash o =? systemHash t)%string)
             (transactions s)
  then inl QueryFailedError
  else inr (with_transactions s (transactions s ++ [t])).

(** The [catch] of [submitTransfer]: HTTP exceptions are rethrown, anything
    else becomes [InternalServerErrorException]. *)
Definition rethrow (e : Exception) : Exception :=
  match e with
  | BadRequestException | NotFoundException | ForbiddenException => e
  | _ => InternalServerErrorException
  end.

(** [submitTransfer].  [amount] is [new Decimal(amountStr)]; [newId] is the
    uuid generated for the row and [entropy] is
    [randomBytes(16).toString('hex')].  The result pairs what the caller
    receives with the state left behind: on an exception the store
    transaction is rolled back, so that state is the initial one.  The
    transaction handed back is the row as it is stored. *)
Definition submitTransfer (newId entropy : string)
    (userId fromSystemAddress toSystemAddress : string) (amount : Z)
    (currency : string) (description : option string) (s : State)
  : (Exception + Transaction) * State :=
  if amount <=? 0 then (inl BadRequestException, s)
  else if (fromSystemAddress =? toSystemAddress)%string
  then (inl BadRequestException, s)
  else
    let normalizedCurrency := toUpperCase currency in
    match find (fun a => (systemAddress a =? fromSystemAddress)%string
                         && (wallet_userId a =? userId)%string)
               (accounts s) with
    | None => (inl ForbiddenException, s)
    | Some sender =>
      if negb (acc_currency sender =? normalizedCurrency)%string
      then (inl BadRequestException, s)
      else
        let senderBalance := balance sender in
        let senderLocked := locked sender in
        let senderAvailableBalance := senderBalance - senderLocked in
        if senderAvailableBalance <? amount
        then (inl BadRequestException, s)
        else
          match find (fun a => (systemAddress a =? toSystemAddress)%string)
                     (accounts s) with
          | None => (inl NotFoundException, s)
          | Some recipient =>
            if negb (acc_currency recipient =? normalizedCurrency)%string
            then (inl BadRequestException, s)
            else
              let currentNonceForTx := nonce sender in
              let sender' :=
                set_nonce (set_locked sender (toNumber (senderLocked + amount)))
                          (nonce sender + 1) in
              let s1 := saveAccount sender' s in
              let transactionEntity :=
                mkTransaction newId ("txn_" ++ entropy)%string
                  (acc_id sender') (acc_id recipient) (toNumber amount) 0
                  normalizedCurrency PENDING currentNonceForTx
                  (Some (orElse description
                           ("Transfer to " ++ toSystemAddress)%string))
                  TRANSFER None None in
              match insertTransaction transactionEntity s1 with
              | inl e => (inl (rethrow e), s)
              | inr s2 =>
                  (inr transactionEntity,
                   with_mempool s2 (lpush newId (mempool s2)))
              end
          end
    end.

(* ===================================================================== *)
(** ** TransactionProcessorService
       (apps/consumer/src/app/transaction-processor) *)
(* ===================================================================== *)

(** How a call leaves the store transaction it opened with
    [queryRunner.startTransaction()]. *)
Inductive TxEnd : Type :=
  | Committed     (* commitTransaction() was called *)
  | RolledBack    (* rollbackTransaction() was called *)
  | LeftOpen.     (* the call returned after release() only *)

(** Outcome of a run of the executor: the value returned, a store, and how
    the store transaction ended. *)
Record Execution : Type := mkExecution
  { returned : option Transaction;
    store : State;
    ending : TxEnd }.

(** [`${transaction.description || ''} | ProcessorFailure: ${reason}`
    .substring(0, 255)] *)
Definition failureDescription (t : Transaction) (reason : string)
  : option string :=
  Some (substring0 255
          (orElse (description t) EmptyString
             ++ " | ProcessorFailure: " ++ reason)%string).

(** [failTransaction(queryRunner, transaction, reason)] *)
Definition failTransaction (transaction : Transaction) (reason : string)
    (s : State) : State :=
  let transaction := set_status transaction FAILED in
  let transaction :=
    set_description transaction (failureDescription transaction reason) in
  saveTransaction transaction s.

(** [markTransactionFailed(txId, reason)] *)
Definition markTransactionFailed (txId reason : string) (s : State) : State :=
  match findTransaction txId s with
  | Some tx =>
      let tx := set_status tx FAILED in
      let tx := set_description tx (failureDescription tx reason) in
      saveTransaction tx s
  | None => s
  end.

(** [moveToDLQ(txId)] *)
Definition moveToDLQ (txId : string) (s : State) : State :=
  with_deadLetter s (lpush txId (deadLetter s)).

(** [revertLockOnAccount(manager, account, amountToRevert)]; only
    [account.id] is read from the second argument. *)
Definition revertLockOnAccount (accountId : string) (amountToRevert : Z)
    (s : State) : State :=
  match findAccountById accountId s with
  | None => s
  | Some currentAccountState =>
      let currentLocked := locked currentAccountState in
      let newLocked := currentLocked - amountToRevert in
      let locked' := if newLocked <? 0 then 0 else toNumber newLocked in
      updateAccountLocked accountId locked' s
  end.

(** The [try] block of [executeSingleTransaction] as it runs inside the
    store transaction it opened: the value it returns, the store as the
    transaction sees it at that point, and whether [commitTransaction()]
    was reached.  The endpoint entities are the rows joined in by the
    initial [findOne] ([relations: ['fromAccount', 'toAccount']]), two
    separate objects. *)
Definition executeSingleTransaction_try (txId : string) (s : State)
  : Execution :=
  match findTransaction txId s with
  | None => mkExecution None s Committed
  | Some transaction =>
    if negb (status_eqb (status transaction) PENDING)
    then
      mkExecution
        (if status_eqb (status transaction) PROCESSING
         then Some transaction else None)
        s Committed
    else
      let transaction := set_status transaction PROCESSING in
      let s1 := saveTransaction transaction s in
      let sender := findAccountById (fromAccountId transaction) s in
      let recipient := findAccountById (toAccountId transaction) s in
      let amount := amount transaction in
      match sender, recipient with
      | Some sender, Some recipient =>
        let senderBalance := balance sender in
        let senderLocked := locked sender in
        if senderLocked <? amount
        then
          let s2 :=
            failTransaction transaction
              "Inconsistent locked amount for sender." s1 in
          mkExecution None s2 LeftOpen
        else if senderBalance <? amount
        then
          let s2 :=
            failTransaction transaction "Insufficient total balance." s1 in
          let s3 := revertLockOnAccount (acc_id sender) amount s2 in
          mkExecution None s3 LeftOpen
        else
          let sender' :=
            set_locked
              (set_balance sender (toNumber (senderBalance - amount)))
              (toNumber (senderLocked - amount)) in
          let s2 := saveAccount sender' s1 in
          let recipient' :=
            set_balance recipient (toNumber (balance recipient + amount)) in
          let s3 := saveAccount recipient' s2 in
          mkExecution (Some transaction) s3 Committed
      | _, _ =>
        let s2 :=
          failTransaction transaction
            "Sender or recipient account data missing." s1 in
        mkExecution None s2 LeftOpen
      end
  end.

(** [executeSingleTransaction(txId)] when no store call throws: what the
    call returns and what it leaves in the store.  The writes of a store
    transaction reach the store with [commitTransaction()].  The three
    paths that fail the transaction return without it; [release()] in the
    [finally] block hands the connection back with the store transaction
    still open, and the store is left as it was. *)
Definition executeSingleTransaction (txId : string) (s : State) : Execution :=
  let run := executeSingleTransaction_try txId s in
  match ending run with
  | Committed => run
  | _ => mkExecution (returned run) s (ending run)
  end.

(** The [catch] block of [executeSingleTransaction], entered when a store
    call of the [try] block throws with message [message]: the store
    transaction is rolled back to [s], then the fallback writes run outside
    of it (their own store calls are taken to succeed). *)
Definition executeSingleTransaction_catch (txId message : string) (s : State)
  : Execution :=
  let s1 :=
    markTransactionFailed txId
      ("Execution Error: " ++ substring0 100 message)%string s in
  let s2 :=
    match findTransaction txId s1 with
    | Some txDataForUnlock =>
        match findAccountById (fromAccountId txDataForUnlock) s1 with
        | Some fromAccount =>
            revertLockOnAccount (acc_id fromAccount)
                                (amount txDataForUnlock) s1
        | None => s1
        end
    | None => s1
    end in
  mkExecution None (moveToDLQ txId s2) RolledBack.

(* ===================================================================== *)
(** ** Quantities and predicates of the specification *)
(* ===================================================================== *)

(** Sum of [balance] over the accounts of one currency. *)
Fixpoint sumBalance (currency : string) (rows : list Account) : Z :=
  match rows with
  | [] => 0
  | a :: rest =>
      (if (acc_currency a =? currency)%string then balance a else 0)
      + sumBalance currency rest
  end.

Definition totalBalance (currency : string) (s : State) : Z :=
  sumBalance currency (accounts s).

(** [balance >= locked >= 0], the three [@Check]s of the account entity. *)
Definition lockDiscipline (a : Account) : Prop :=
  0 <= locked a /\ locked a <= balance a.

Definition LockDisciplined (s : State) : Prop :=
  Forall lockDiscipline (accounts s).

(** [@Check("amount" > 0)] of the transaction entity. *)
Definition AmountsPositive (s : State) : Prop :=
  Forall (fun t => 0 < amount t) (transactions s).

(** The identity and the currency of every account row. *)
Definition keyOf (a : Account) : string * string := (acc_id a, acc_currency a).

Definition accountKeys (s : State) : list (string * string) :=
  map keyOf (accounts s).

(** Data-model invariants of a stored transaction: distinct endpoints, and
    endpoints of one currency. *)
Definition transferOK (keys : list (string * string)) (t : Transaction)
  : Prop :=
  fromAccountId t <> toAccountId t
  /\ forall c1 c2, In (fromAccountId t, c1) keys ->
                   In (toAccountId t, c2) keys -> c1 = c2.

(** A well-formed ledger: account ids are a primary key and every stored
    transaction satisfies the data-model invariants. *)
Definition LedgerOK (s : State) : Prop :=
  NoDup (map acc_id (accounts s))
  /\ Forall (transferOK (accountKeys s)) (transactions s).

(** The sum of balances of every currency is in the range on which
    [toNumber] is exact. *)
Definition Bounded (s : State) : Prop :=
  forall currency, totalBalance currency s <= MAX_EXACT.

(** One step of the transfer pipeline: a successful intake, or a run of the
    executor (through its [try] block or through its [catch] block).  The
    writes of a [try] block that returned without [commitTransaction()] are
    a step of their own: the store transaction is open on a pooled
    connection, and the store has them if it is committed later on. *)
Inductive step : State -> State -> Prop :=
  | step_submit newId entropy userId from to amount currency descr s t s' :
      submitTransfer newId entropy userId from to amount currency descr s
        = (inr t, s') ->
      step s s'
  | step_execute txId s :
      step s (store (executeSingleTransaction txId s))
  | step_execute_open txId s :
      step s (store (executeSingleTransaction_try txId s))
  | step_execute_catch txId message s :
      step s (store (executeSingleTransaction_catch txId message s)).

Definition steps : State -> State -> Prop := clos_refl_trans State step.

(** A chain of blocks grown by [createBlockWithTypeORM] alone, from a store
    without blocks; other operations leave the block table as it is. *)
Inductive Sealed : State -> Prop :=
  | Sealed_genesis s : blocks s = [] -> Sealed s
  | Sealed_create newId now txs s b s' :
      Sealed s ->
      createBlockWithTypeORM newId now txs s = inr (b, s') ->
      Sealed s'
  | Sealed_other s s' : Sealed s -> blocks s' = blocks s -> Sealed s'.

(** [n] calls of the executor in a row on one id. *)
Definition repeatExecute (n : nat) (txId : string) (s : State) : State :=
  Nat.iter n (fun s => store (executeSingleTransaction txId s)) s.


(** What the executor may do to the transaction table: every row it
    leaves behind has the endpoints and the amount of a row that was there. *)
Definition txFrame (s s' : State) : Prop :=
  forall t', In t' (transactions s') ->
  exists t, In t (transactions s)
            /\ fromAccountId t' = fromAccountId t
            /\ toAccountId t' = toAccountId t
            /\ amount t' = amount t.

(** What the executor may do to the account table when it runs on [s]:
    nothing, a lock reversion by the amount of a stored transaction, or the
    debit and credit of a stored transaction whose amount the sender's
    [locked] and [balance] both cover. *)
Inductive accountEffect (s : State) : list Account -> Prop :=
  | effect_none : accountEffect s (accounts s)
  | effect_revert t id :
      In t (transactions s) ->
      accountEffect s (accounts (revertLockOnAccount id (amount t) s))
  | effect_transfer t sender recipient :
      In t (transactions s) ->
      findAccountById (fromAccountId t) s = Some sender ->
      findAccountById (toAccountId t) s = Some recipient ->
      amount t <= locked sender ->
      amount t <= balance sender ->
      accountEffect s
        (save acc_id
           (set_balance recipient (balance recipient + amount t))
           (save acc_id
              (set_locked (set_balance sender (balance sender - amount t))
                          (locked sender - amount t))
              (accounts s))).


(** The invariant of a sealed chain: heights are a key, and every block
    above height 0 names the hash of the block one height below. *)
Definition linked (bs : list Block) (B : Block) : Prop :=
  0 < height B ->
  exists P, find (fun o => height o =? height B - 1) bs = Some P
            /\ previousBlockHash B = Some (blockHash P).

(** The Merkle computation in the words of the specification: one level is
    replaced by the SHA-256 of its adjacent pairs, the last node being
    duplicated when the level has an odd number of nodes. *)
Fixpoint spec_pairs (level : list string) : list string :=
  match level with
  | a :: b :: rest => sha256 (a ++ b)%string :: spec_pairs rest
  | _ => []
  end.

Definition spec_level (level : list string) : list string :=
  if Nat.odd (List.length level)
  then spec_pairs (level ++ [last level EmptyString])
  else spec_pairs level.

(** Levels are replaced until a single node, the root, is left. *)
Fixpoint spec_reduce (fuel : nat) (level : list string) : string :=
  match fuel, level with
  | S f, _ :: _ :: _ => spec_reduce f (spec_level level)
  | _, _ => hd EmptyString level
  end.

(** Reading 1: a list that is already a single node is its own root. *)
Definition spec_merkle_root (hashes : list string) : string :=
  match hashes with
  | [] => sha256 EmptyString
  | _ => let sorted := js_sort hashes in
         spec_reduce (List.length sorted) sorted
  end.

(** Reading 2: every non-empty list goes through one pairing at least, so
    a single hash is paired with its own duplicate. *)
Definition spec_merkle_root_paired (hashes : list string) : string :=
  match hashes with
  | [] => sha256 EmptyString
  | _ => let level := spec_level (js_sort hashes) in
         spec_reduce (List.length level) level
  end.

(* ===================================================================== *)
(** ** TransactionQueueService
       (libs/common/src/lib/transaction-queue) *)
(* ===================================================================== *)

(** [redisCacheService.rpop(list)]: the element at the tail, the end
    opposite to [lpush]; [null] on an empty list. *)
Definition rpop (l : list string) : option string * list string :=
  match l with
  | [] => (None, [])
  | _ => (Some (last l EmptyString), removelast l)
  end.

(** [addToMempool(transactionId)] *)
Definition addToMempool (transactionId : string) (s : State) : State :=
  with_mempool s (lpush transactionId (mempool s)).

(** The [for (let i = 0; i < count; i++)] of [getFromMempool], with [n]
    passes left: an item that is [null] or falsy (the empty string) ends
    the loop, after it has been popped. *)
Fixpoint drain (n : nat) (queue items : list string)
  : list string * list string :=
  match n with
  | O => (items, queue)
  | S n' =>
      match rpop queue with
      | (Some item, rest) =>
          if (item =? EmptyString)%string then (items, rest)
          else drain n' rest (items ++ [item])
      | (None, rest) => (items, rest)
      end
  end.

(** [getFromMempool(count)] *)
Definition getFromMempool (count : Z) (s : State) : list string * State :=
  if count <=? 0 then ([], s)
  else
    let '(items, rest) := drain (Z.to_nat count) (mempool s) [] in
    (items, with_mempool s rest).

(* ===================================================================== *)
(** ** BlockService: the read side *)
(* ===================================================================== *)

(** [repository.findOne({ where: { blockHash } })] *)
Definition getBlockByHash (h : string) (s : State) : option Block :=
  find (fun b => (blockHash b =? h)%string) (blocks s).

(** The [transactions] relation of a block: the rows whose [blockId] is the
    block's id, in the order of their creation (rows are appended when
    they are created). *)
Definition transactionsOf (b : Block) (s : State) : list Transaction :=
  filter (fun t => match blockId t with
                   | Some i => (i =? block_id b)%string
                   | None => false
                   end) (transactions s).

(** [getTransactionsInBlock(blockIdOrHash)] *)
Definition getTransactionsInBlock (blockIdOrHash : string) (s : State)
  : list Transaction :=
  match find (fun b => (block_id b =? blockIdOrHash)%string
                       || (blockHash b =? blockIdOrHash)%string)
             (blocks s) with
  | Some block => transactionsOf block s
  | None => []
  end.

(** The format of the [block_hash] and [merkle_root] columns: 64
    lower-case hexadecimal characters. *)
Definition lowerHexChar (c : ascii) : bool :=
  let n := N_of_ascii c in
  (((48 <=? n) && (n <=? 57)) || ((97 <=? n) && (n <=? 102)))%N.

Fixpoint allChars (p : ascii -> bool) (s : string) : bool :=
  match s with
  | EmptyString => true
  | String c r => p c && allChars p r
  end.

Definition isHash64 (s : string) : Prop :=
  String.length s = 64%nat /\ allChars lowerHexChar s = true.


(* ===================================================================== *)
(** ** TransactionProcessorService: the processing cycle *)
(* ===================================================================== *)

(** The configuration read in the constructor. *)
Record Config : Type := mkConfig
  { batchSize : Z;
    blockTimeMs : Z;
    minTxsPerBlock : Z }.

(** The defaults of the constructor. *)
Definition defaultConfig : Config := mkConfig 10 15000 3.

(** The processor: the store and queue it works on, and its
    [lastBlockCreatedAt] field. *)
Record Processor : Type := mkProcessor
  { ledger : State;
    lastBlockCreatedAt : Z }.

(** What one cycle reads from outside the store: whether [SET lockKey NX]
    succeeds for a transaction id, whether a store call fails while that
    transaction is executed (with the error message), the two readings of
    [Date.now()], and the uuid and [new Date()] of the block. *)
Record CycleEnv : Type := mkCycleEnv
  { lockAcquired : string -> bool;
    storeFault : string -> option string;
    nowAtDecision : Z;
    newBlockId : string;
    blockTimestamp : string;
    nowAfterCommit : Z }.

(** [executeSingleTransaction(txId)] as a whole: the [try] block, or the
    [catch] block when a store call fails. *)
Definition runExecutor (env : CycleEnv) (txId : string) (s : State)
  : Execution :=
  match storeFault env txId with
  | Some message => executeSingleTransaction_catch txId message s
  | None => executeSingleTransaction txId s
  end.

(** The [for (const txId of txIdsFromMempool)] loop: the lock is taken,
    the transaction executed, the lock deleted; the [id] and [systemHash]
    of every transaction returned are collected in order. *)
Fixpoint executeBatch (env : CycleEnv) (txIds : list string) (s : State)
  : list (string * string) * State :=
  match txIds with
  | [] => ([], s)
  | txId :: rest =>
      if lockAcquired env txId
      then
        let r := runExecutor env txId s in
        let '(data, s') := executeBatch env rest (store r) in
        (match returned r with
         | Some executedTx => (tx_id executedTx, systemHash executedTx) :: data
         | None => data
         end, s')
      else executeBatch env rest s
  end.

(** [manager.update(Transaction, { id: In(ids), status: PROCESSING },
    { blockId, blockHeight, status: CONFIRMED })] *)
Definition confirmTransactions (ids : list string) (b : Block) (s : State)
  : State :=
  with_transactions s
    (map (fun t =>
            if existsb (fun i => (tx_id t =? i)%string) ids
               && status_eqb (status t) PROCESSING
            then mkTransaction (tx_id t) (systemHash t) (fromAccountId t)
                   (toAccountId t) (amount t) (fee t) (tx_currency t)
                   CONFIRMED (accountNonce t) (description t) (tx_type t)
                   (Some (block_id b)) (Some (height b))
            else t)
         (transactions s)).

(** [shouldCreateBlock] *)
Definition shouldCreateBlock (cfg : Config) (p : Processor)
    (now : Z) (data : list (string * string)) : bool :=
  (0 <? Z.of_nat (List.length data))
  && ((minTxsPerBlock cfg <=? Z.of_nat (List.length data))
      || (blockTimeMs cfg <=? now - lastBlockCreatedAt p)).

(** [processMempoolAndCreateBlock()].  When the block cannot be saved the
    store transaction of the sealing is rolled back and every collected id
    is pushed back with [lpush]. *)
Definition processMempoolAndCreateBlock (cfg : Config) (env : CycleEnv)
    (p : Processor) : Processor :=
  let '(txIdsFromMempool, s0) := getFromMempool (batchSize cfg) (ledger p) in
  let '(successfullyExecutedTxData, s1) :=
    executeBatch env txIdsFromMempool s0 in
  if shouldCreateBlock cfg p (nowAtDecision env) successfullyExecutedTxData
  then
    match createBlockWithTypeORM (newBlockId env) (blockTimestamp env)
                                 successfullyExecutedTxData s1 with
    | inr (newBlock, s2) =>
        let confirmedTxIds := map fst successfullyExecutedTxData in
        mkProcessor (confirmTransactions confirmedTxIds newBlock s2)
                    (nowAfterCommit env)
    | inl _ =>
        mkProcessor
          (with_mempool s1
             (fold_left (fun q txData => lpush (fst txData) q)
                        successfullyExecutedTxData (mempool s1)))
          (lastBlockCreatedAt p)
    end
  else mkProcessor s1 (lastBlockCreatedAt p).


(* ===================================================================== *)
(** ** Runs of the pipeline and their invariants *)
(* ===================================================================== *)

(** The row [confirmTransactions] leaves in place of [t]. *)
Definition confirmRow (ids : list string) (b : Block) (t : Transaction)
  : Transaction :=
  if existsb (fun i => (tx_id t =? i)%string) ids
     && status_eqb (status t) PROCESSING
  then mkTransaction (tx_id t) (systemHash t) (fromAccountId t)
         (toAccountId t) (amount t) (fee t) (tx_currency t)
         CONFIRMED (accountNonce t) (description t) (tx_type t)
         (Some (block_id b)) (Some (height b))
  else t.

(** The transactions a cycle collects ([successfullyExecutedTxData]) and
    the state its executions leave, before the sealing decision. *)
Definition collected (cfg : Config) (env : CycleEnv) (p : Processor)
  : list (string * string) :=
  fst (executeBatch env (fst (getFromMempool (batchSize cfg) (ledger p)))
                    (snd (getFromMempool (batchSize cfg) (ledger p)))).

Definition executedLedger (cfg : Config) (env : CycleEnv) (p : Processor)
  : State :=
  snd (executeBatch env (fst (getFromMempool (batchSize cfg) (ledger p)))
                    (snd (getFromMempool (batchSize cfg) (ledger p)))).

(** The invariant of the account and transaction tables. *)
Definition Disciplined (s : State) : Prop :=
  LedgerOK s /\ AmountsPositive s /\ LockDisciplined s.


(** A cycle in which no store call fails. *)
Definition faultFree (env : CycleEnv) : Prop :=
  forall txId, storeFault env txId = None.

(** One event of the pipeline: an intake that succeeds, or one processing
    cycle whose environment satisfies [ok]. *)
Inductive pipelineStep (cfg : Config) (ok : CycleEnv -> Prop)
  : Processor -> Processor -> Prop :=
  | pipeline_submit newId entropy userId from to amount currency descr
                    p t s' :
      submitTransfer newId entropy userId from to amount currency descr
                     (ledger p) = (inr t, s') ->
      pipelineStep cfg ok p (mkProcessor s' (lastBlockCreatedAt p))
  | pipeline_cycle env p :
      ok env ->
      pipelineStep cfg ok p (processMempoolAndCreateBlock cfg env p).

Definition pipeline (cfg : Config) (ok : CycleEnv -> Prop)
  : Processor -> Processor -> Prop :=
  clos_refl_trans Processor (pipelineStep cfg ok).

(** The columns of a transaction row that identify the transfer. *)
Definition identityOf (t : Transaction)
  : string * string * string * string * Z * string * Z :=
  (tx_id t, systemHash t, fromAccountId t, toAccountId t, amount t,
   tx_currency t, accountNonce t).

(** The moves of the status column: PENDING to PROCESSING, FAILED or
    (through PROCESSING) CONFIRMED, and PROCESSING to CONFIRMED. *)
Definition advances (a b : TransactionStatusTypeORM) : Prop :=
  a = b
  \/ (a = PENDING /\ (b = PROCESSING \/ b = FAILED \/ b = CONFIRMED))
  \/ (a = PROCESSING /\ b = CONFIRMED).

(** How a row may differ after some work of the processor: the transfer it
    records is the same, its status has moved forward at most, and a row
    that was CONFIRMED, FAILED or CANCELLED is the same row. *)
Definition rowEvolves (t t' : Transaction) : Prop :=
  identityOf t' = identityOf t
  /\ advances (status t) (status t')
  /\ (status t <> PENDING -> status t <> PROCESSING -> t' = t).

(** Every row of [s] is found in [s'] under its id, evolved. *)
Definition rowsEvolve (s s' : State) : Prop :=
  forall id t, findTransaction id s = Some t ->
  exists t', findTransaction id s' = Some t' /\ rowEvolves t t'.

(** The amount reserved on an account by its outgoing PENDING transfers. *)
Fixpoint pendingSum (accountId : string) (txs : list Transaction) : Z :=
  match txs with
  | [] => 0
  | t :: rest =>
      (if (fromAccountId t =? accountId)%string
          && status_eqb (status t) PENDING
       then amount t else 0)
      + pendingSum accountId rest
  end.

(** A consistent ledger: well formed, with transaction ids a primary key,
    positive amounts, endpoints that exist (the foreign keys), lock
    discipline, and [locked] equal to what the PENDING transfers of the
    account reserve. *)
Definition Consistent (s : State) : Prop :=
  LedgerOK s
  /\ NoDup (map tx_id (transactions s))
  /\ AmountsPositive s
  /\ LockDisciplined s
  /\ Forall (fun t => In (fromAccountId t) (map acc_id (accounts s))
                      /\ In (toAccountId t) (map acc_id (accounts s)))
            (transactions s)
  /\ Forall (fun a => locked a = pendingSum (acc_id a) (transactions s))
            (accounts s).


(** The sender and the account nonce a transfer was accepted under, and the
    order of nonces: no two stored transfers of one account carry the same
    [accountNonce], and each lies below the [nonce] of its account. *)
Definition nonceKey (t : Transaction) : string * Z :=
  (fromAccountId t, accountNonce t).

Definition NoncesInOrder (s : State) : Prop :=
  NoDup (map nonceKey (transactions s))
  /\ forall t a, In t (transactions s) -> In a (accounts s) ->
                 acc_id a = fromAccountId t -> accountNonce t < nonce a.

(* ===================================================================== *)
(** ** WalletService: reading a transaction, opening an account *)
(* ===================================================================== *)

(** [transaction.fromAccount?.wallet?.userId === userId], through the
    relations loaded with the row. *)
Definition ownedBy (accountId userId : string) (s : State) : bool :=
  match findAccountById accountId s with
  | Some account => (wallet_userId account =? userId)%string
  | None => false
  end.

(** [getTransactionBySystemHash(userId, systemHash)] *)
Definition getTransactionBySystemHash (userId hash : string) (s : State)
  : Exception + option Transaction :=
  match find (fun t => (systemHash t =? hash)%string) (transactions s) with
  | Some transaction =>
      if ownedBy (fromAccountId transaction) userId s
         || ownedBy (toAccountId transaction) userId s
      then inr (Some transaction)
      else inl ForbiddenException
  | None => inr None
  end.

(** The wallet table, as far as [createAccountInWallet] reads it. *)
Record Wallet : Type := mkWallet
  { wallet_id : string;
    wallet_user : string }.

(** What [createAccountInWallet] throws: [NotFoundException],
    [ConflictException], or the error of the refused insert. *)
Inductive AccountRefusal : Type :=
  | WalletNotFound
  | CurrencyExists
  | InsertRefused.

(** [accountRepository.save(entity)] of a new entity: an insert, refused by
    the primary key, by the unique index on [systemAddress] and by the
    unique index on [(walletId, currency)]. *)
Definition insertAccount (a : Account) (s : State) : AccountRefusal + State :=
  if existsb (fun o => (acc_id o =? acc_id a)%string
                       || (systemAddress o =? systemAddress a)%string
                       || ((walletId o =? walletId a)%string
                           && (acc_currency o =? acc_currency a)%string))
             (accounts s)
  then inl InsertRefused
  else inr (with_accounts s (accounts s ++ [a])).

(** [createAccountInWallet(userId, currency)].  [newId] is the generated
    primary key and [entropy] stands for
    [randomBytes(12).toString('hex')]. *)
Definition createAccountInWallet (wallets : list Wallet)
    (newId entropy : string) (userId currency : string) (s : State)
  : (AccountRefusal + Account) * State :=
  let normalizedCurrency := toUpperCase currency in
  match find (fun w => (wallet_user w =? userId)%string) wallets with
  | None => (inl WalletNotFound, s)
  | Some wallet =>
      match find (fun a => (walletId a =? wallet_id wallet)%string
                           && (acc_currency a =? normalizedCurrency)%string)
                 (accounts s) with
      | Some existingAccount => (inl CurrencyExists, s)
      | None =>
          let newAccountEntity :=
            mkAccount newId ("acc_" ++ entropy)%string 0 0 0
                      normalizedCurrency (wallet_id wallet)
                      (wallet_user wallet) in
          match insertAccount newAccountEntity s with
          | inr s' => (inr newAccountEntity, s')
          | inl e => (inl e, s)
          end
      end
  end.


(* ===================================================================== *)
(** ** Scenarios of the specification (literal values) *)
(* ===================================================================== *)

Module Scenario.

(** S1: two NGN accounts, A with 1000 and B with 0; A sends 150.75 to B. *)
Definition alice : Account :=
  mkAccount "id-alice" "acc_alice" 100000000000 0 0 "NGN" "w-alice" "u-alice".

Definition bob : Account :=
  mkAccount "id-bob" "acc_bob" 0 0 0 "NGN" "w-bob" "u-bob".

Definition initial : State := mkState [alice; bob] [] [] [] [].

Definition transfer : Transaction :=
  mkTransaction "tx-1" "txn_000102030405060708090a0b0c0d0e0f"
                "id-alice" "id-bob" 15075000000 0 "NGN" PENDING 0
                (Some "Transfer to acc_bob") TRANSFER None None.

Definition intake : (Exception + Transaction) * State :=
  submitTransfer "tx-1" "000102030405060708090a0b0c0d0e0f"
                 "u-alice" "acc_alice" "acc_bob" 15075000000 "ngn" None
                 initial.

Definition afterIntake : State := snd intake.

Definition afterExecution : State :=
  store (executeSingleTransaction "tx-1" afterIntake).

(** S2: A holds 10 and asks for 50; here the recipient address is unknown
    as well. *)
Definition poor : State :=
  mkState [mkAccount "id-alice" "acc_alice" 1000000000 0 0 "NGN"
                     "w-alice" "u-alice"] [] [] [] [].



(** Amounts of 17 digits, which the columns hold and a double does not:
    A holds 200000000 with 100000000.00000001 locked, B holds
    100000000.00000001. *)
Definition wealthy : State :=
  mkState [mkAccount "id-alice" "acc_alice" 20000000000000000
                     10000000000000001 1 "NGN" "w-alice" "u-alice";
           mkAccount "id-bob" "acc_bob" 10000000000000001 0 0 "NGN"
                     "w-bob" "u-bob"]
          [mkTransaction "tx-0" "txn_00" "id-alice" "id-bob" 1 0
                         "NGN" PENDING 0 None TRANSFER None None]
          [] [] [].

(** A holds 1 with 0.00000001 locked for a PENDING transfer to B, who
    holds 100000000.00000001. *)
Definition crediting : State :=
  mkState [mkAccount "id-alice" "acc_alice" 100000000 1 1 "NGN"
                     "w-alice" "u-alice";
           mkAccount "id-bob" "acc_bob" 10000000000000001 0 0 "NGN"
                     "w-bob" "u-bob"]
          [mkTransaction "tx-0" "txn_00" "id-alice" "id-bob" 1 0
                         "NGN" PENDING 0 None TRANSFER None None]
          [] [] [].

(** A holds 400000000.00000005, nothing locked. *)
Definition round : State :=
  mkState [mkAccount "id-alice" "acc_alice" 40000000000000005 0 0 "NGN"
                     "w-alice" "u-alice"; bob] [] [] [] [].




(** S5 and S6: two blocks sealed one after the other. *)
Definition sealing0 : Exception + (Block * State) :=
  createBlockWithTypeORM "block-0" "2025-01-01T00:00:01.200Z"
                         [("tx-1", "txn_000102030405060708090a0b0c0d0e0f")]
                         afterExecution.

Definition chain0 : State :=
  match sealing0 with inr (_, s) => s | inl _ => afterExecution end.

Definition sealing1 : Exception + (Block * State) :=
  createBlockWithTypeORM "block-1" "2025-01-01T00:00:03.200Z"
                         [("tx-9", "txn_ff")] chain0.

Definition chain1 : State :=
  match sealing1 with inr (_, s) => s | inl _ => chain0 end.

End Scenario.

(** A run of the pipeline on S1: the intake of the transfer, then one
    processing cycle, 20 seconds after the start, that executes it and
    seals it in the first block. *)
Module Run.

Definition env : CycleEnv :=
  mkCycleEnv (fun _ => true) (fun _ => None) 20000
             "block-0" "2025-01-01T00:00:20.000Z" 20001.

Definition p0 : Processor := mkProcessor Scenario.initial 0.

Definition p1 : Processor := mkProcessor Scenario.afterIntake 0.

Definition p2 : Processor := processMempoolAndCreateBlock defaultConfig env p1.

(** Three ids queued in the order a, b, c. *)
Definition queued : State := mkState [] [] [] ["c"; "b"; "a"] [].

(** The wallet of S1's sender, who opens a second account. *)
Definition wallets : list Wallet := [mkWallet "w-alice" "u-alice"].

Definition opening : (AccountRefusal + Account) * State :=
  createAccountInWallet wallets "id-alice-usd" "0a0b0c0d0e0f101112131415"
                        "u-alice" "usd" Scenario.initial.

(** The row of S1's transfer once the cycle has sealed block-0. *)
Definition confirmed : Transaction :=
  mkTransaction "tx-1" "txn_000102030405060708090a0b0c0d0e0f"
                "id-alice" "id-bob" 15075000000 0 "NGN" CONFIRMED 0
                (Some "Transfer to acc_bob") TRANSFER
                (Some "block-0") (Some 0).

(** The sender of S1 submits a second transfer, of 25, before the cycle
    runs. *)
Definition second : (Exception + Transaction) * State :=
  submitTransfer "tx-2" "101112131415161718191a1b1c1d1e1f"
                 "u-alice" "acc_alice" "acc_bob" 2500000000 "NGN" None
                 (ledger p1).

Definition p3 : Processor := mkProcessor (snd second) 0.

Definition p4 : Processor := processMempoolAndCreateBlock defaultConfig env p3.

(** A description of 150 letters e with acute accent, two bytes each. *)
Fixpoint accents (n : nat) : string :=
  match n with
  | O => EmptyString
  | S n' => String (ascii_of_nat 195) (String (ascii_of_nat 169) (accents n'))
  end.

Definition accented : Transaction :=
  mkTransaction "tx-1" "txn_000102030405060708090a0b0c0d0e0f"
                "id-alice" "id-bob" 15075000000 0 "NGN" PENDING 0
                (Some (accents 150)) TRANSFER None None.

End Run.


(* ===================================================================== *)
(** * Properties *)
(* ===================================================================== *)

(** ** SHA-256 test vectors (FIPS 180-4) *)

Example sha256_empty :
  sha256 EmptyString = "e3b0c44298fc1c149afbf4c8996fb92427ae41e4649b934ca495991b7852b855".
Proof. vm_compute. reflexivity. Qed.

Example sha256_abc :
  sha256 "abc" = "ba7816bf8f01cfea414140de5dae2223b00361a396177a9cb410ff61f20015ad".
Proof. vm_compute. reflexivity. Qed.

Example sha256_two_blocks :
  sha256 "abcdbcdecdefdefgefghfghighijhijkijkljklmklmnlmnomnopnopq"
  = "248d6a61d20638b8e5c026930c3e6039a33ce45964ff2167f6ecedd419db06c1".
Proof. vm_compute. reflexivity. Qed.

(** ** Amounts as JavaScript numbers *)

(** With 17 digits the amount stored is not always the [Decimal] that was
    computed. *)
Example toNumber_sum_lost :
  toNumber (10000000000000001 + 1) = 10000000000000001.
Proof. vm_compute. reflexivity. Qed.

Example toNumber_rounds_up :
  toNumber 40000000000000005 = 40000000000000006.
Proof. vm_compute. reflexivity. Qed.

Example toNumber_difference :
  toNumber (10000000000000003 - 1) = 10000000000000001.
Proof. vm_compute. reflexivity. Qed.

Example toNumber_small :
  map toNumber [1; 15075000000; 100000000000; 999999999999999; - 25]
  = [1; 15075000000; 100000000000; 999999999999999; - 25].
Proof. vm_compute. reflexivity. Qed.

(** From 2^26 on the doubles are more than 10^-8 apart: 67108864.00000026
    is stored as 67108864.00000025. *)
Example toNumber_beyond_exact :
  toNumber MAX_EXACT = MAX_EXACT
  /\ toNumber (MAX_EXACT + 27) = MAX_EXACT + 26.
Proof. vm_compute. split; reflexivity. Qed.

Lemma floor_spec (a b : Z) : 0 < a -> (b / a) * a <= b < (b / a + 1) * a.
Proof.
  intros Ha. pose proof (Z.div_mod b a ltac:(lia)) as E.
  pose proof (Z.mod_pos_bound b a Ha). nia.
Qed.

Lemma ceil_spec (a b : Z) :
  0 < a -> (ceilDiv b a - 1) * a < b <= ceilDiv b a * a.
Proof.
  intros Ha. unfold ceilDiv. pose proof (floor_spec a (- b) Ha). nia.
Qed.

Lemma roundHalfEven_spec (a b : Z) :
  0 < b ->
  - b <= 2 * (a - roundHalfEven a b * b) <= b
  /\ (Z.even (roundHalfEven a b) = false ->
      - b < 2 * (a - roundHalfEven a b * b) < b).
Proof.
  intros Hb. unfold roundHalfEven.
  pose proof (Z.div_mod a b ltac:(lia)) as E.
  pose proof (Z.mod_pos_bound a b Hb) as Hr.
  destruct (2 * (a mod b) <? b) eqn:H1.
  - apply Z.ltb_lt in H1. split; [nia|]. intros _. nia.
  - apply Z.ltb_ge in H1. destruct (b <? 2 * (a mod b)) eqn:H2.
    + apply Z.ltb_lt in H2. split; [nia|]. intros _. nia.
    + apply Z.ltb_ge in H2.
      destruct (Z.even (a / b)) eqn:Hev.
      * split; [nia|]. intros Hodd. congruence.
      * split; [nia|]. intros Hodd.
        rewrite Z.even_add, Hev in Hodd. discriminate.
Qed.

Lemma pow10_split (p : Z) :
  - 8 <= p ->
  10 ^ (p + 8) * 10 ^ Z.max 0 (- p) = 10 ^ Z.max 0 p * SCALE.
Proof.
  intros Hp. change SCALE with (10 ^ 8).
  rewrite <- !Z.pow_add_r by lia. f_equal. lia.
Qed.

Lemma units_pos (p e : Z) : 0 < gridUnit p e /\ 0 < binUnit p e.
Proof.
  unfold gridUnit, binUnit. split; apply Z.mul_pos_pos;
    apply Z.pow_pos_nonneg; lia.
Qed.

Lemma onGrid_sound (m e p s : Z) :
  onGrid m e p = Some s ->
  lowMid m * binUnit p e <= s * gridUnit p e <= highMid m * binUnit p e.
Proof.
  unfold onGrid. destruct (units_pos p e) as [Ha Hb].
  set (a := gridUnit p e) in *. set (b := binUnit p e) in *.
  set (lo := lowMid m * b). set (hi := highMid m * b).
  pose proof (floor_spec a lo Ha). pose proof (floor_spec a hi Ha).
  pose proof (ceil_spec a lo Ha). pose proof (ceil_spec a hi Ha).
  destruct (Z.even m);
    match goal with |- context [?x <=? ?y] => destruct (x <=? y) eqn:E end;
    try discriminate; apply Z.leb_le in E; intros H'; inversion H'; nia.
Qed.

Lemma le_of_mul (a s c : Z) : 0 < a -> s * a < (c + 1) * a -> s <= c.
Proof. intros Ha H. nia. Qed.

Lemma ge_of_mul (a s c : Z) : 0 < a -> (c - 1) * a < s * a -> c <= s.
Proof. intros Ha H. nia. Qed.

Lemma onGrid_complete (m e p s : Z) :
  lowMid m * binUnit p e <= s * gridUnit p e <= highMid m * binUnit p e ->
  (Z.even m = false ->
   lowMid m * binUnit p e < s * gridUnit p e < highMid m * binUnit p e) ->
  exists s', onGrid m e p = Some s'.
Proof.
  intros Hin Hstrict. unfold onGrid. destruct (units_pos p e) as [Ha Hb].
  set (a := gridUnit p e) in *. set (b := binUnit p e) in *.
  set (lo := lowMid m * b) in *. set (hi := highMid m * b) in *.
  pose proof (floor_spec a lo Ha) as Hfl. pose proof (floor_spec a hi Ha) as Hfh.
  pose proof (ceil_spec a lo Ha) as Hcl. pose proof (ceil_spec a hi Ha) as Hch.
  destruct (Z.even m).
  - assert (E1 : ceilDiv lo a <= s) by (apply (ge_of_mul a); lia).
    assert (E2 : s <= hi / a) by (apply (le_of_mul a); lia).
    assert (E : ceilDiv lo a <= hi / a) by lia.
    apply Z.leb_le in E. rewrite E. eauto.
  - specialize (Hstrict eq_refl).
    assert (E1 : lo / a + 1 <= s).
    { apply (ge_of_mul a); [lia|].
      replace (lo / a + 1 - 1) with (lo / a) by lia. lia. }
    assert (E2 : s <= ceilDiv hi a - 1).
    { apply (le_of_mul a); [lia|].
      replace (ceilDiv hi a - 1 + 1) with (ceilDiv hi a) by lia. lia. }
    assert (E : lo / a + 1 <= ceilDiv hi a - 1) by lia.
    apply Z.leb_le in E. rewrite E. eauto.
Qed.

Lemma cross_le (l u v B S : Z) :
  0 < B -> 0 < S -> u * B = v * S ->
  (l * B <= v <-> l * S <= u) /\ (v <= l * B <-> u <= l * S).
Proof.
  intros HB HS E. split; split; intros H.
  - apply (Z.mul_le_mono_pos_r _ _ B HB). rewrite E.
    replace (l * S * B) with (l * B * S) by ring.
    apply Z.mul_le_mono_pos_r; assumption.
  - apply (Z.mul_le_mono_pos_r _ _ S HS). rewrite <- E.
    replace (l * B * S) with (l * S * B) by ring.
    apply Z.mul_le_mono_pos_r; assumption.
  - apply (Z.mul_le_mono_pos_r _ _ B HB). rewrite E.
    replace (l * S * B) with (l * B * S) by ring.
    apply Z.mul_le_mono_pos_r; assumption.
  - apply (Z.mul_le_mono_pos_r _ _ S HS). rewrite <- E.
    replace (l * B * S) with (l * S * B) by ring.
    apply Z.mul_le_mono_pos_r; assumption.
Qed.

Lemma cross_lt (l u v B S : Z) :
  0 < B -> 0 < S -> u * B = v * S ->
  (l * B < v <-> l * S < u) /\ (v < l * B <-> u < l * S).
Proof.
  intros HB HS E. destruct (cross_le l u v B S HB HS E) as [H1 H2].
  split; split; intros H; apply Z.nle_gt; intros Hc;
    apply Z.nle_gt in H; apply H; tauto.
Qed.

Lemma grid_reads (m e p s : Z) :
  e <= 1 -> - 8 <= p ->
  (lowMid m * binUnit p e <= s * gridUnit p e <= highMid m * binUnit p e
   <-> reads m e (s * 10 ^ (p + 8)))
  /\ (lowMid m * binUnit p e < s * gridUnit p e < highMid m * binUnit p e
      <-> readsStrictly m e (s * 10 ^ (p + 8))).
Proof.
  intros He Hp. unfold reads, readsStrictly, gridUnit, binUnit.
  rewrite (Z.max_l 0 (e - 2)) by lia. rewrite (Z.max_r 0 (2 - e)) by lia.
  rewrite Z.pow_0_r, Z.mul_1_r.
  pose proof (pow10_split p Hp) as E.
  assert (HB : 0 < 10 ^ Z.max 0 (- p)) by (apply Z.pow_pos_nonneg; lia).
  assert (HS : 0 < SCALE) by reflexivity.
  assert (Ekey : s * 10 ^ (p + 8) * 2 ^ (2 - e) * 10 ^ Z.max 0 (- p)
                 = s * (10 ^ Z.max 0 p * 2 ^ (2 - e)) * SCALE).
  { replace (s * 10 ^ (p + 8) * 2 ^ (2 - e) * 10 ^ Z.max 0 (- p))
      with (s * 2 ^ (2 - e) * (10 ^ (p + 8) * 10 ^ Z.max 0 (- p))) by ring.
    rewrite E. ring. }
  destruct (cross_le (lowMid m) _ _ _ _ HB HS Ekey) as [L1 _].
  destruct (cross_le (highMid m) _ _ _ _ HB HS Ekey) as [_ L2].
  destruct (cross_lt (lowMid m) _ _ _ _ HB HS Ekey) as [L3 _].
  destruct (cross_lt (highMid m) _ _ _ _ HB HS Ekey) as [_ L4].
  tauto.
Qed.

Lemma mids_width (m : Z) : highMid m - lowMid m <= 4.
Proof. unfold highMid, lowMid. destruct (m =? 2 ^ 52); lia. Qed.

Lemma reads_unique (m e X1 X2 : Z) :
  e <= - 27 -> reads m e X1 -> reads m e X2 -> X1 = X2.
Proof.
  intros He [L1 H1] [L2 H2]. pose proof (mids_width m) as Hw.
  assert (HT : 2 ^ 29 <= 2 ^ (2 - e)) by (apply Z.pow_le_mono_r; lia).
  change (2 ^ 29) with 536870912 in HT. unfold SCALE in *.
  set (T := 2 ^ (2 - e)) in *. clearbody T.
  set (l := lowMid m) in *. set (h := highMid m) in *. clearbody l h.
  nia.
Qed.

Lemma log2_small (x : Z) : 0 < x <= MAX_EXACT -> 0 <= Z.log2 x <= 52.
Proof.
  intros [H0 H1]. split; [apply Z.log2_nonneg|].
  assert (Z.log2 x < 53); [|lia].
  apply Z.log2_lt_pow2; [exact H0|].
  change (2 ^ 53) with 9007199254740992. unfold MAX_EXACT in H1. lia.
Qed.

Lemma binade_spec (x : Z) :
  0 < x <= MAX_EXACT ->
  binade x <= 25
  /\ SCALE * 2 ^ 52 <= x * 2 ^ (52 - binade x).
Proof.
  intros Hx. pose proof (log2_small x Hx) as HL.
  destruct (Z.log2_spec x (proj1 Hx)) as [Hlo _].
  unfold binade, scaled. set (k := Z.log2 x - 26).
  destruct (SCALE * 2 ^ Z.max 0 k <=? x * 2 ^ Z.max 0 (- k)) eqn:E.
  - apply Z.leb_le in E.
    destruct (Z.le_gt_cases 0 k) as [Hk|Hk].
    + rewrite (Z.max_r 0 k) in E by lia. rewrite (Z.max_l 0 (- k)) in E by lia.
      rewrite Z.pow_0_r, Z.mul_1_r in E.
      assert (Hk25 : k <= 25).
      { destruct (Z.le_gt_cases k 25) as [H|H]; [exact H|exfalso].
        assert (2 ^ 26 <= 2 ^ k) by (apply Z.pow_le_mono_r; lia).
        change (2 ^ 26) with 67108864 in *.
        unfold SCALE, MAX_EXACT in *. nia. }
      split; [exact Hk25|].
      replace 52 with (k + (52 - k)) at 1 by lia.
      rewrite Z.pow_add_r by lia.
      assert (0 < 2 ^ (52 - k)) by (apply Z.pow_pos_nonneg; lia).
      nia.
    + split; [lia|].
      rewrite (Z.max_l 0 k) in E by lia. rewrite (Z.max_r 0 (- k)) in E by lia.
      rewrite Z.pow_0_r, Z.mul_1_r in E.
      replace (52 - k) with (- k + 52) by lia.
      rewrite Z.pow_add_r by lia.
      assert (0 < 2 ^ 52) by reflexivity. nia.
  - split; [lia|].
    replace (52 - (k - 1)) with (79 - Z.log2 x) by (unfold k; lia).
    assert (E79 : 2 ^ Z.log2 x * 2 ^ (79 - Z.log2 x) = 2 ^ 79)
      by (rewrite <- Z.pow_add_r by lia; f_equal; lia).
    assert (0 < 2 ^ (79 - Z.log2 x)) by (apply Z.pow_pos_nonneg; lia).
    assert (SCALE * 2 ^ 52 <= 2 ^ 79) by (vm_compute; discriminate).
    nia.
Qed.

(** Below 2^26 the doubles lie less than 10^-8 apart, and a multiple of
    10^-8 below a power of two is not rounded up to it. *)
Lemma binary64_reads (x m e : Z) :
  0 < x <= MAX_EXACT ->
  binary64 x = (m, e) ->
  e <= - 27
  /\ reads m e x
  /\ (Z.even m = false -> readsStrictly m e x).
Proof.
  intros Hx. destruct (binade_spec x Hx) as [Hb Hlow].
  unfold binary64, scaled. set (e0 := binade x - 52) in *.
  rewrite (Z.max_r 0 (- e0)) by lia. rewrite (Z.max_l 0 e0) by lia.
  rewrite Z.pow_0_r, Z.mul_1_r.
  replace (52 - binade x) with (- e0) in Hlow by (unfold e0; lia).
  assert (HU : 0 < 2 ^ (- e0)) by (apply Z.pow_pos_nonneg; lia).
  destruct (roundHalfEven_spec (x * 2 ^ (- e0)) SCALE eq_refl) as [Hr Hodd].
  set (m0 := roundHalfEven (x * 2 ^ (- e0)) SCALE) in *.
  unfold reads, readsStrictly, lowMid, highMid.
  destruct (m0 =? 2 ^ 53) eqn:E53; intros H; inversion H; subst m e; clear H.
  - apply Z.eqb_eq in E53.
    assert (He0 : e0 <= - 28).
    { destruct (Z.le_gt_cases e0 (- 28)) as [H|H]; [exact H|exfalso].
      assert (E27 : e0 = - 27) by lia.
      rewrite E27 in Hr. change (2 ^ (- - 27)) with 134217728 in Hr.
      rewrite E53 in Hr. change (2 ^ 53) with 9007199254740992 in Hr.
      unfold SCALE, MAX_EXACT in *. lia. }
    split; [lia|].
    replace (2 - (e0 + 1)) with (1 + - e0) by lia.
    rewrite Z.pow_add_r by lia. change (2 ^ 1) with 2.
    rewrite Z.eqb_refl.
    change (2 ^ 52) with 4503599627370496.
    change (2 ^ 53) with 9007199254740992 in E53.
    set (U := 2 ^ (- e0)) in *. clearbody U. unfold SCALE in *.
    split; [nia|]. intros Hev. discriminate Hev.
  - split; [lia|].
    replace (2 - e0) with (2 + - e0) by lia.
    rewrite Z.pow_add_r by lia. change (2 ^ 2) with 4.
    change (2 ^ 52) with 4503599627370496 in *.
    set (U := 2 ^ (- e0)) in *. clearbody U m0. unfold SCALE in *.
    destruct (m0 =? 4503599627370496) eqn:E52.
    + apply Z.eqb_eq in E52. subst m0. split; [nia|].
      intros Hev. discriminate Hev.
    + split; [nia|]. intros Hev. specialize (Hodd Hev). nia.
Qed.

Lemma shortest_finds (m e x : Z) :
  e <= - 27 -> reads m e x ->
  (Z.even m = false -> readsStrictly m e x) ->
  forall (fuel : nat) (p : Z),
    - 8 <= p -> (Z.to_nat (p + 8) < fuel)%nat ->
    exists s p', shortest fuel m e p = (s, p')
                 /\ - 8 <= p' /\ s * 10 ^ (p' + 8) = x.
Proof.
  intros He Hin Hstrict.
  induction fuel as [|fuel IH]; intros p Hp Hfuel; [lia|].
  cbn [shortest].
  destruct (onGrid m e p) as [s|] eqn:E.
  - exists s, p. split; [reflexivity|]. split; [exact Hp|].
    apply onGrid_sound in E.
    apply (proj1 (grid_reads m e p s ltac:(lia) Hp)) in E.
    exact (reads_unique m e _ _ He E Hin).
  - assert (Hne : p <> - 8).
    { intros ->.
      destruct (onGrid_complete m e (- 8) x) as [s' Hs'].
      - apply (proj1 (grid_reads m e (- 8) x ltac:(lia) ltac:(lia))).
        change (10 ^ (- 8 + 8)) with 1. rewrite Z.mul_1_r. exact Hin.
      - intros Hev.
        apply (proj2 (grid_reads m e (- 8) x ltac:(lia) ltac:(lia))).
        change (10 ^ (- 8 + 8)) with 1. rewrite Z.mul_1_r. auto.
      - congruence. }
    apply IH; lia.
Qed.

Lemma storedPositive_exact (x : Z) :
  0 < x <= MAX_EXACT -> storedPositive x = x.
Proof.
  intros Hx. unfold storedPositive.
  destruct (binary64 x) as [m e] eqn:Hb.
  destruct (binary64_reads x m e Hx Hb) as (He & Hin & Hstrict).
  pose proof (log2_small x Hx) as HL.
  destruct (shortest_finds m e x He Hin Hstrict
              (Z.to_nat (Z.log2 x + 34)) (Z.log2 x)) as (s & p & Hs & Hp & HX);
    [lia | lia |].
  rewrite Hs. unfold toScale8.
  assert (E : (0 <=? p + 8) = true) by (apply Z.leb_le; lia).
  rewrite E. exact HX.
Qed.

Lemma toNumber_exact (x : Z) :
  - MAX_EXACT <= x <= MAX_EXACT -> toNumber x = x.
Proof.
  intros Hx. destruct x as [|q|q]; unfold toNumber.
  - reflexivity.
  - apply storedPositive_exact. lia.
  - rewrite storedPositive_exact; [reflexivity|].
    change (- Z.neg q) with (Z.pos q). lia.
Qed.

Lemma toNumber_exact_nonneg (x : Z) :
  0 <= x <= MAX_EXACT -> toNumber x = x.
Proof. intros H. apply toNumber_exact. unfold MAX_EXACT in *. lia. Qed.

(** ** Strings by code units *)

Lemma codeUnits_bound (c : ascii) : (codeUnits c <= 2)%nat.
Proof.
  unfold codeUnits. destruct (isContinuation c); [lia|].
  destruct (240 <=? N_of_ascii c)%N; lia.
Qed.

Lemma substring0_length (n : nat) (s : string) :
  (utf16_length (substring0 n s) <= n)%nat.
Proof.
  revert n. induction s as [|c r IH]; intros n; cbn [substring0 utf16_length];
    [lia|].
  pose proof (codeUnits_bound c) as Hc.
  destruct (codeUnits c) as [|[|k]] eqn:E.
  - cbn [utf16_length]. rewrite E. exact (IH n).
  - destruct n as [|n]; cbn [utf16_length]; [lia|].
    rewrite E. specialize (IH n). lia.
  - destruct n as [|[|n]]; cbn [utf16_length]; [lia| |].
    + vm_compute. lia.
    + rewrite E. specialize (IH n). lia.
Qed.

Lemma substring0_all (n : nat) (s : string) :
  (utf16_length s <= n)%nat -> substring0 n s = s.
Proof.
  revert n. induction s as [|c r IH]; intros n; cbn [substring0 utf16_length];
    [reflexivity|].
  destruct (codeUnits c) as [|[|k]] eqn:E; intros H.
  - rewrite IH by lia. reflexivity.
  - destruct n as [|n]; [lia|]. rewrite IH by lia. reflexivity.
  - destruct n as [|[|n]]; [lia|lia|]. rewrite IH by lia. reflexivity.
Qed.

(** ** The default sort *)

Lemma ascii_compare_N (a b : ascii) :
  Ascii.compare a b = N.compare (N_of_ascii a) (N_of_ascii b).
Proof. reflexivity. Qed.

Lemma string_leb_trans (a b c : string) :
  (a <=? b)%string = true -> (b <=? c)%string = true ->
  (a <=? c)%string = true.
Proof.
  unfold String.leb. revert b c.
  induction a as [|x a IH]; intros [|y b] [|z c]; simpl; try congruence.
  rewrite !ascii_compare_N.
  destruct (N.compare_spec (N_of_ascii x) (N_of_ascii y)) as [Hxy|Hxy|Hxy];
    destruct (N.compare_spec (N_of_ascii y) (N_of_ascii z)) as [Hyz|Hyz|Hyz];
    destruct (N.compare_spec (N_of_ascii x) (N_of_ascii z)) as [Hxz|Hxz|Hxz];
    try congruence; try lia.
  apply IH.
Qed.

Lemma string_leb_refl (a : string) : (a <=? a)%string = true.
Proof. destruct (String.leb_total a a); assumption. Qed.

Lemma insert_comm (a b : string) (l : list string) :
  insert a (insert b l) = insert b (insert a l).
Proof.
  induction l as [|y l IH]; simpl.
  - destruct (a <=? b)%string eqn:Hab, (b <=? a)%string eqn:Hba;
      try reflexivity.
    + rewrite (String.leb_antisym _ _ Hab Hba). reflexivity.
    + destruct (String.leb_total a b); congruence.
  - destruct (b <=? y)%string eqn:Hby, (a <=? y)%string eqn:Hay; simpl;
      rewrite ?Hby, ?Hay.
    + destruct (a <=? b)%string eqn:Hab, (b <=? a)%string eqn:Hba;
        try reflexivity.
      * rewrite (String.leb_antisym _ _ Hab Hba). reflexivity.
      * destruct (String.leb_total a b); congruence.
    + destruct (a <=? b)%string eqn:Hab; [|reflexivity].
      rewrite (string_leb_trans _ _ _ Hab Hby) in Hay. discriminate.
    + destruct (b <=? a)%string eqn:Hba; [|reflexivity].
      rewrite (string_leb_trans _ _ _ Hba Hay) in Hby. discriminate.
    + rewrite IH. reflexivity.
Qed.

Lemma js_sort_permutation_eq (l l' : list string) :
  Permutation l l' -> js_sort l = js_sort l'.
Proof.
  induction 1 as [|x l l' _ IH|x y l|l l' l'' _ IH1 _ IH2]; simpl.
  - reflexivity.
  - rewrite IH. reflexivity.
  - apply insert_comm.
  - congruence.
Qed.

Lemma insert_permutation (x : string) (l : list string) :
  Permutation (x :: l) (insert x l).
Proof.
  induction l as [|y l IH]; simpl; [reflexivity|].
  destruct (x <=? y)%string; [reflexivity|].
  rewrite perm_swap. constructor. exact IH.
Qed.

Lemma js_sort_permutation (l : list string) : Permutation l (js_sort l).
Proof.
  induction l as [|x l IH]; simpl; [constructor|].
  rewrite <- insert_permutation. constructor. exact IH.
Qed.

Lemma insert_sorted (x : string) (l : list string) :
  Sorted leS l -> Sorted leS (insert x l).
Proof.
  induction 1 as [|y l Hs IH Hhd]; simpl.
  - repeat constructor.
  - destruct (x <=? y)%string eqn:Hxy.
    + repeat constructor; assumption.
    + assert (Hyx : leS y x)
        by (destruct (String.leb_total x y); [congruence | assumption]).
      constructor; [exact IH|].
      destruct l as [|z l]; simpl; [constructor; exact Hyx|].
      destruct (x <=? z)%string; constructor;
        [exact Hyx | inversion Hhd; assumption].
Qed.

Lemma js_sort_sorted (l : list string) : Sorted leS (js_sort l).
Proof.
  induction l as [|x l IH]; simpl; [constructor | apply insert_sorted, IH].
Qed.

Lemma insert_sorted_head (x : string) (l : list string) :
  Sorted leS (x :: l) -> insert x l = x :: l.
Proof.
  intros Hs. destruct l as [|y l]; [reflexivity|]. simpl.
  inversion Hs as [|? ? _ Hhd]; subst. inversion Hhd as [|? ? Hxy]; subst.
  unfold leS in Hxy. rewrite Hxy. reflexivity.
Qed.

(** Whatever algorithm the engine's [sort] runs, an ascending rearrangement
    of the array is the list [js_sort] returns. *)
Lemma js_sort_unique (l sorted : list string) :
  Permutation l sorted -> Sorted leS sorted -> js_sort l = sorted.
Proof.
  intros Hp Hs. rewrite (js_sort_permutation_eq _ _ Hp). clear Hp l.
  induction sorted as [|x l IH]; [reflexivity|]. simpl.
  inversion Hs; subst. rewrite IH by assumption.
  apply insert_sorted_head. exact Hs.
Qed.

Lemma js_sort_idempotent (l : list string) : js_sort (js_sort l) = js_sort l.
Proof.
  apply js_sort_unique; [reflexivity | apply js_sort_sorted].
Qed.

(** ** Merkle root and block hash *)

Lemma pairs_ind (P : list string -> Prop) :
  P [] -> (forall x, P [x]) -> (forall x y r, P r -> P (x :: y :: r)) ->
  forall l, P l.
Proof.
  intros Hnil Hone Hstep.
  fix rec 1. intros [|x [|y r]]; [exact Hnil | apply Hone |].
  apply Hstep, rec.
Qed.

Lemma nextLevel_spec_level (l : list string) : nextLevel l = spec_level l.
Proof.
  unfold spec_level.
  induction l as [|x|x y r IH] using pairs_ind; try reflexivity.
  change (List.length (x :: y :: r)) with (S (S (List.length r))).
  rewrite Nat.odd_succ_succ. simpl nextLevel. rewrite IH.
  destruct (Nat.odd (List.length r)) eqn:Hodd; [|reflexivity].
  destruct r as [|z r]; [discriminate|]. reflexivity.
Qed.

Lemma nextLevel_length (l : list string) :
  (List.length (nextLevel l) <= List.length l)%nat.
Proof.
  induction l as [|x|x y r IH] using pairs_ind; simpl; lia.
Qed.

Lemma merkleLoop_spec_reduce (n : nat) (l : list string) :
  (List.length l <= n)%nat -> hd EmptyString (merkleLoop l) = spec_reduce n l.
Proof.
  revert l. induction n as [|n IH]; intros [|x [|y r]] Hlen;
    simpl in Hlen; try lia; simp merkleLoop; try reflexivity.
  change (spec_reduce (S n) (x :: y :: r))
    with (spec_reduce n (spec_level (x :: y :: r))).
  rewrite <- nextLevel_spec_level. apply IH.
  pose proof (nextLevel_length r). simpl. lia.
Qed.

Lemma js_sort_length (l : list string) :
  List.length (js_sort l) = List.length l.
Proof. symmetry. apply Permutation_length, js_sort_permutation. Qed.

(** C4 (as the code has it).  [calculateMerkleRoot] returns the Merkle root
    of the specification for every input except a single hash [h], where
    its early return gives [sha256 h]; this holds for both readings of the
    specification's reduction. *)
Theorem calculateMerkleRoot_refines_spec (hashes : list string) :
  fst (calculateMerkleRoot hashes)
    = match hashes with
      | [h] => sha256 h
      | _ => spec_merkle_root hashes
      end
  /\ fst (calculateMerkleRoot hashes)
    = match hashes with
      | [h] => sha256 h
      | _ => spec_merkle_root_paired hashes
      end.
Proof.
  destruct hashes as [|x [|y r]]; [split; reflexivity .. |].
  unfold calculateMerkleRoot, spec_merkle_root, spec_merkle_root_paired.
  cbv zeta. cbn [fst].
  assert (Hlen : (2 <= List.length (js_sort (x :: y :: r)))%nat)
    by (rewrite js_sort_length; simpl; lia).
  split.
  - apply merkleLoop_spec_reduce. lia.
  - destruct (js_sort (x :: y :: r)) as [|a [|b l]]; simpl in Hlen; try lia.
    simp merkleLoop. rewrite nextLevel_spec_level.
    apply merkleLoop_spec_reduce. lia.
Qed.

(** C4 (as stated) fails on a single hash: the code returns [sha256 h],
    the specification's reduction returns [h] (reading 1) or
    [sha256 (h ++ h)] (reading 2). *)
Lemma calculateMerkleRoot_single_hash_differs :
  fst (calculateMerkleRoot ["txn_0f"]) <> spec_merkle_root ["txn_0f"]
  /\ fst (calculateMerkleRoot ["txn_0f"]) <> spec_merkle_root_paired ["txn_0f"].
Proof. split; vm_compute; discriminate. Qed.

Lemma calculateMerkleRoot_permutation (l l' : list string) :
  Permutation l l' -> calculateMerkleRoot l = calculateMerkleRoot l'
                      \/ (fst (calculateMerkleRoot l)
                            = fst (calculateMerkleRoot l')
                          /\ snd (calculateMerkleRoot l)
                            = snd (calculateMerkleRoot l')).
Proof.
  intros Hp. destruct l as [|x [|y r]].
  - apply Permutation_nil in Hp. subst. left. reflexivity.
  - apply Permutation_length_1_inv in Hp. subst. left. reflexivity.
  - right. pose proof (Permutation_length Hp) as Hlen.
    destruct l' as [|x' [|y' r']]; simpl in Hlen; try lia.
    unfold calculateMerkleRoot. cbn [fst snd].
    rewrite (js_sort_permutation_eq _ _ Hp). split; reflexivity.
Qed.

(** [createBlockWithTypeORM] hands [calculateMerkleRoot] the array that
    [calculateBlockHash] has sorted in place; the root is the one of the
    batch as it came in. *)
Lemma calculateMerkleRoot_after_sort (hashes : list string) :
  fst (calculateMerkleRoot (js_sort hashes)) = fst (calculateMerkleRoot hashes).
Proof.
  destruct hashes as [|x [|y r]]; try reflexivity.
  pose proof (js_sort_length (x :: y :: r)) as Hlen.
  unfold calculateMerkleRoot at 1.
  destruct (js_sort (x :: y :: r)) as [|a [|b l]] eqn:E;
    simpl in Hlen; try lia.
  cbn [fst]. rewrite <- E, js_sort_idempotent. reflexivity.
Qed.

(** C9.  Permuting the system hashes of a batch changes neither
    [calculateBlockHash] nor [calculateMerkleRoot], and sealing a permuted
    batch at the same height, time and previous hash gives the same block
    (hence the same [merkleRoot] and [blockHash]). *)
Theorem sort_invariant_commitment
    (height timestamp : string) (previousBlockHash : option string)
    (hashes hashes' : list string)
    (newId now : string) (txs txs' : list (string * string)) (s : State) :
  Permutation hashes hashes' ->
  Permutation txs txs' ->
  fst (calculateBlockHash height timestamp previousBlockHash hashes)
    = fst (calculateBlockHash height timestamp previousBlockHash hashes')
  /\ fst (calculateMerkleRoot hashes) = fst (calculateMerkleRoot hashes')
  /\ createBlockWithTypeORM newId now txs s
       = createBlockWithTypeORM newId now txs' s.
Proof.
  intros Hp Ht. split; [|split].
  - unfold calculateBlockHash. cbn [fst].
    rewrite (js_sort_permutation_eq _ _ Hp). reflexivity.
  - destruct (calculateMerkleRoot_permutation _ _ Hp) as [H|[H _]];
      [rewrite H; reflexivity | exact H].
  - unfold createBlockWithTypeORM, calculateBlockHash.
    rewrite (js_sort_permutation_eq _ _ (Permutation_map snd Ht)).
    destruct txs as [|t txs], txs' as [|t' txs']; try reflexivity.
    + apply Permutation_nil in Ht. discriminate.
    + apply Permutation_sym, Permutation_nil in Ht. discriminate.
Qed.

Lemma sort_invariant_commitment_witness :
  let hashes := ["txn_b"; "txn_a"; "txn_c"] in
  let hashes' := ["txn_a"; "txn_b"; "txn_c"] in
  let txs := [("id1", "txn_b"); ("id2", "txn_a")] in
  let txs' := [("id2", "txn_a"); ("id1", "txn_b")] in
  let s := mkState [] [] [] [] [] in
  fst (calculateBlockHash "1" "2025-01-01T00:00:00.000Z" None hashes)
    = fst (calculateBlockHash "1" "2025-01-01T00:00:00.000Z" None hashes')
  /\ fst (calculateMerkleRoot hashes) = fst (calculateMerkleRoot hashes')
  /\ createBlockWithTypeORM "b0" "2025-01-01T00:00:00.000Z" txs s
       = createBlockWithTypeORM "b0" "2025-01-01T00:00:00.000Z" txs' s.
Proof.
  apply (sort_invariant_commitment "1" "2025-01-01T00:00:00.000Z" None
           ["txn_b"; "txn_a"; "txn_c"] ["txn_a"; "txn_b"; "txn_c"]
           "b0" "2025-01-01T00:00:00.000Z"
           [("id1", "txn_b"); ("id2", "txn_a")]
           [("id2", "txn_a"); ("id1", "txn_b")]
           (mkState [] [] [] [] [])).
  - apply perm_swap.
  - apply perm_swap.
Defined.

(** ** Chain linkage *)

Lemma highest_None (bs : list Block) : highest bs = None -> bs = [].
Proof.
  destruct bs as [|b bs]; [reflexivity|]. simpl.
  destruct (highest bs) as [m|]; [destruct (height m <? height b)|];
    discriminate.
Qed.

Lemma highest_In (bs : list Block) (m : Block) :
  highest bs = Some m -> In m bs.
Proof.
  revert m. induction bs as [|b bs IH]; simpl; intros m Hm; [discriminate|].
  destruct (highest bs) as [m'|].
  - destruct (height m' <? height b); inversion Hm; subst; auto.
  - inversion Hm. auto.
Qed.

Lemma highest_max (bs : list Block) (m : Block) :
  highest bs = Some m -> forall b, In b bs -> height b <= height m.
Proof.
  revert m. induction bs as [|b0 bs IH]; simpl; intros m Hm b Hb;
    [contradiction|].
  destruct (highest bs) as [m'|] eqn:Hh.
  - specialize (IH m' eq_refl).
    destruct (height m' <? height b0) eqn:Hlt; inversion Hm; subst;
      [apply Z.ltb_lt in Hlt | apply Z.ltb_ge in Hlt];
      destruct Hb as [->|Hb]; try lia; specialize (IH b Hb); lia.
  - apply highest_None in Hh. subst. inversion Hm; subst.
    destruct Hb as [->|[]]. lia.
Qed.

Lemma createBlock_inv newId now txs s b s' :
  createBlockWithTypeORM newId now txs s = inr (b, s') ->
  blocks s' = blocks s ++ [b]
  /\ height b = match getLatestBlock s with
                | Some latest => height latest + 1
                | None => 0
                end
  /\ previousBlockHash b = option_map blockHash (getLatestBlock s).
Proof.
  unfold createBlockWithTypeORM. destruct txs as [|t txs]; [discriminate|].
  destruct (calculateBlockHash _ _ _ _) as [bh hs].
  destruct (calculateMerkleRoot hs) as [mr hs'].
  unfold insertBlock. destruct (existsb _ _); [discriminate|].
  intros H. inversion H; subst. simpl. auto.
Qed.

Lemma find_app_first {A} (f : A -> bool) (l l' : list A) (x : A) :
  find f l = Some x -> find f (l ++ l') = Some x.
Proof.
  induction l as [|a l IH]; simpl; [discriminate|].
  destruct (f a); auto.
Qed.

Lemma find_height_some (bs : list Block) (b : Block) :
  In b bs -> exists p, find (fun o => height o =? height b) bs = Some p
                       /\ In p bs /\ height p = height b.
Proof.
  induction bs as [|a bs IH]; simpl; [contradiction|].
  intros [->|Hin].
  - rewrite Z.eqb_refl. eauto.
  - destruct (height a =? height b) eqn:E.
    + apply Z.eqb_eq in E. eauto.
    + destruct (IH Hin) as (p & Hf & Hp & Hh). eauto.
Qed.

Lemma NoDup_key_inj {A B : Type} (f : A -> B) (l : list A) (a b : A) :
  NoDup (map f l) -> In a l -> In b l -> f a = f b -> a = b.
Proof.
  induction l as [|c l IH]; simpl; intros Hnd Ha Hb Heq; [contradiction|].
  inversion Hnd as [|? ? Hnotin Hnd']; subst.
  destruct Ha as [->|Ha], Hb as [->|Hb]; auto.
  - exfalso. apply Hnotin. rewrite Heq. apply in_map. exact Hb.
  - exfalso. apply Hnotin. rewrite <- Heq. apply in_map. exact Ha.
Qed.

Lemma Sealed_invariant (s : State) :
  Sealed s ->
  NoDup (map height (blocks s)) /\ forall B, In B (blocks s) -> linked (blocks s) B.
Proof.
  induction 1 as [s Hnil|newId now txs s b s' Hs [Hnd Hlink] Hcreate
                  |s s' Hs IH Heq].
  - rewrite Hnil. split; [constructor | intros B []].
  - apply createBlock_inv in Hcreate. destruct Hcreate as (Hbs & Hh & Hp).
    rewrite Hbs. unfold getLatestBlock in *.
    destruct (highest (blocks s)) as [latest|] eqn:Hlatest.
    + pose proof (highest_In _ _ Hlatest) as Hin.
      pose proof (highest_max _ _ Hlatest) as Hmax.
      split.
      * rewrite map_app. simpl.
        apply Permutation_NoDup with (l := height b :: map height (blocks s)).
        { apply Permutation_cons_append. }
        constructor; [|exact Hnd].
        intros Hc. apply in_map_iff in Hc. destruct Hc as (o & Ho & Hino).
        specialize (Hmax o Hino). lia.
      * intros B HB. apply in_app_or in HB. destruct HB as [HB|[<-|[]]].
        -- intros Hpos. destruct (Hlink B HB Hpos) as (P & Hf & HP).
           exists P. split; [apply find_app_first; exact Hf | exact HP].
        -- intros _. destruct (find_height_some _ _ Hin) as (p & Hf & Hpin & Hph).
           assert (p = latest) by (apply (NoDup_key_inj height (blocks s)); auto). subst p.
           exists latest. split.
           ++ apply find_app_first. rewrite Hh.
              replace (height latest + 1 - 1) with (height latest) by lia.
              exact Hf.
           ++ rewrite Hp. reflexivity.
    + apply highest_None in Hlatest. rewrite Hlatest. simpl. split.
      * repeat constructor. intros [].
      * intros B [<-|[]] Hpos. lia.
  - rewrite Heq. exact IH.
Qed.

(** C8.  A block created on an empty block table is the genesis block, at
    height 0 without previous hash; a block created on any other table
    sits one above a block of the greatest stored height and carries that
    block's hash; hence in a chain grown by [createBlockWithTypeORM] every
    block above height 0 names the hash of the block found one height
    below. *)
Theorem chain_linkage :
  (forall newId now txs s b s',
      createBlockWithTypeORM newId now txs s = inr (b, s') ->
      (blocks s = [] -> height b = 0 /\ previousBlockHash b = None)
      /\ (blocks s <> [] ->
          exists latest,
            In latest (blocks s)
            /\ (forall o, In o (blocks s) -> height o <= height latest)
            /\ height b = height latest + 1
            /\ previousBlockHash b = Some (blockHash latest)))
  /\ (forall s, Sealed s ->
      forall B, In B (blocks s) -> 0 < height B ->
      exists P, getBlockByHeight (height B - 1) s = Some P
                /\ previousBlockHash B = Some (blockHash P)).
Proof.
  split.
  - intros newId now txs s b s' Hcreate.
    apply createBlock_inv in Hcreate. destruct Hcreate as (_ & Hh & Hp).
    unfold getLatestBlock in *.
    destruct (highest (blocks s)) as [latest|] eqn:Hl; simpl in Hp.
    + split; [intros Hnil; rewrite Hnil in Hl; discriminate Hl|].
      intros _. exists latest.
      split; [exact (highest_In _ _ Hl)|].
      split; [exact (highest_max _ _ Hl)|]. auto.
    + split; [auto|]. intros Hne. contradiction Hne.
      exact (highest_None _ Hl).
  - intros s Hs B HB Hpos.
    destruct (Sealed_invariant s Hs) as [_ Hlink].
    exact (Hlink B HB Hpos).
Qed.

(** ** Store primitives *)

Section SaveAndFind.

Context {A : Type}.
Variable key : A -> string.

Lemma find_key (k : string) (rows : list A) (r : A) :
  find (fun r => (key r =? k)%string) rows = Some r ->
  key r = k /\ In r rows.
Proof.
  intros H. apply find_some in H. destruct H as [Hin Hk].
  apply String.eqb_eq in Hk. auto.
Qed.

Lemma find_existsb (k : string) (rows : list A) (r : A) :
  find (fun r => (key r =? k)%string) rows = Some r ->
  existsb (fun r => (key r =? k)%string) rows = true.
Proof.
  intros H. apply find_some in H. apply existsb_exists. eauto.
Qed.

Lemma find_map_replace_same (row : A) (rows : list A) :
  existsb (fun r => (key r =? key row)%string) rows = true ->
  find (fun r => (key r =? key row)%string)
       (map (fun r => if (key r =? key row)%string then row else r) rows)
  = Some row.
Proof.
  induction rows as [|a rows IH]; simpl; [discriminate|].
  destruct (key a =? key row)%string eqn:E; simpl.
  - rewrite String.eqb_refl. reflexivity.
  - rewrite E. exact IH.
Qed.

Lemma find_save_same (row : A) (rows : list A) :
  find (fun r => (key r =? key row)%string) (save key row rows) = Some row.
Proof.
  unfold save.
  destruct (existsb _ rows) eqn:E; [apply find_map_replace_same, E|].
  induction rows as [|a rows IH]; simpl in *.
  - rewrite String.eqb_refl. reflexivity.
  - apply orb_false_iff in E. destruct E as [E1 E2]. rewrite E1. auto.
Qed.

Lemma find_save_other (k : string) (row : A) (rows : list A) :
  key row <> k ->
  find (fun r => (key r =? k)%string) (save key row rows)
  = find (fun r => (key r =? k)%string) rows.
Proof.
  intros Hne. apply String.eqb_neq in Hne. unfold save.
  destruct (existsb _ rows).
  - induction rows as [|a rows IH]; simpl; [reflexivity|].
    destruct (key a =? key row)%string eqn:E.
    + apply String.eqb_eq in E. rewrite Hne, E, Hne. exact IH.
    + destruct (key a =? k)%string; [reflexivity | exact IH].
  - induction rows as [|a rows IH]; simpl.
    + rewrite Hne. reflexivity.
    + destruct (key a =? k)%string; [reflexivity | exact IH].
Qed.

Lemma Forall_save (P : A -> Prop) (row : A) (rows : list A) :
  Forall P rows -> P row -> Forall P (save key row rows).
Proof.
  intros Hrows Hrow. unfold save. destruct (existsb _ rows).
  - induction Hrows; simpl; constructor; auto.
    destruct (key x =? key row)%string; assumption.
  - apply Forall_app. auto.
Qed.

(** Overwriting a stored row with an entity that agrees with it under
    [f] leaves the [f]-image of the table as it is. *)
Lemma map_save_existing {B : Type} (f : A -> B) (row old : A)
      (rows : list A) :
  find (fun r => (key r =? key row)%string) rows = Some old ->
  (forall r, In r rows -> key r = key row -> f r = f row) ->
  map f (save key row rows) = map f rows.
Proof.
  intros Hfind Hagree. unfold save.
  rewrite (find_existsb _ _ _ Hfind). clear Hfind.
  induction rows as [|a rows IH]; simpl; [reflexivity|].
  rewrite IH by (intros; apply Hagree; simpl; auto). f_equal.
  destruct (key a =? key row)%string eqn:E; [|reflexivity].
  apply String.eqb_eq in E. symmetry. apply Hagree; simpl; auto.
Qed.

End SaveAndFind.

(** ** The executor *)

Lemma status_eqb_eq (a b : TransactionStatusTypeORM) :
  status_eqb a b = true <-> a = b.
Proof. destruct a, b; simpl; split; congruence. Qed.

Lemma findTransaction_saveTransaction (t : Transaction) (s : State) :
  findTransaction (tx_id t) (saveTransaction t s) = Some t.
Proof. apply (find_save_same tx_id). Qed.

Lemma findAccountById_saveAccount (a : Account) (s : State) :
  findAccountById (acc_id a) (saveAccount a s) = Some a.
Proof. apply (find_save_same acc_id). Qed.

Lemma findAccountById_saveAccount_other (id : string) (a : Account)
      (s : State) :
  acc_id a <> id ->
  findAccountById id (saveAccount a s) = findAccountById id s.
Proof. apply (find_save_other acc_id). Qed.

Lemma findAccountById_updateLocked (id : string) (v : Z) (s : State)
      (a : Account) :
  findAccountById id s = Some a ->
  findAccountById id (updateAccountLocked id v s) = Some (set_locked a v).
Proof.
  unfold findAccountById, updateAccountLocked. simpl.
  induction (accounts s) as [|x l IH]; simpl; [discriminate|].
  destruct (acc_id x =? id)%string eqn:E; simpl.
  - rewrite E. congruence.
  - rewrite E. exact IH.
Qed.

Lemma findAccountById_updateLocked_other (id id' : string) (v : Z)
      (s : State) :
  id' <> id ->
  findAccountById id' (updateAccountLocked id v s) = findAccountById id' s.
Proof.
  intros Hne. unfold findAccountById, updateAccountLocked. simpl.
  induction (accounts s) as [|x l IH]; simpl; [reflexivity|].
  destruct (acc_id x =? id)%string eqn:E; simpl.
  - destruct (acc_id x =? id')%string eqn:E'; [|exact IH].
    apply String.eqb_eq in E, E'. congruence.
  - destruct (acc_id x =? id')%string; [reflexivity | exact IH].
Qed.

(** The [try] block ends in a commit, or returns null with the store
    transaction left open. *)
Lemma try_ending txId s :
  ending (executeSingleTransaction_try txId s) = Committed
  \/ (ending (executeSingleTransaction_try txId s) = LeftOpen
      /\ returned (executeSingleTransaction_try txId s) = None).
Proof.
  unfold executeSingleTransaction_try.
  destruct (findTransaction txId s) as [t|]; [|left; reflexivity].
  destruct (negb (status_eqb (status t) PENDING)); [left; reflexivity|].
  destruct (findAccountById _ s) as [sender|]; [|right; split; reflexivity].
  destruct (findAccountById _ s) as [recipient|];
    [|right; split; reflexivity].
  destruct (locked sender <? _); [right; split; reflexivity|].
  destruct (balance sender <? _); [right; split; reflexivity|].
  left; reflexivity.
Qed.

(** The call keeps the writes of a committed run and no others. *)
Lemma executeSingleTransaction_run txId s :
  (ending (executeSingleTransaction_try txId s) = Committed
   /\ executeSingleTransaction txId s = executeSingleTransaction_try txId s)
  \/ (ending (executeSingleTransaction_try txId s) = LeftOpen
      /\ returned (executeSingleTransaction_try txId s) = None
      /\ executeSingleTransaction txId s = mkExecution None s LeftOpen).
Proof.
  unfold executeSingleTransaction.
  destruct (try_ending txId s) as [E|[E R]]; rewrite E.
  - left. auto.
  - right. rewrite R. auto.
Qed.

Lemma try_not_pending txId s t :
  findTransaction txId s = Some t ->
  status t <> PENDING ->
  executeSingleTransaction_try txId s
  = mkExecution (if status_eqb (status t) PROCESSING then Some t else None)
                s Committed.
Proof.
  intros Hfind Hst. unfold executeSingleTransaction_try. rewrite Hfind.
  destruct (status_eqb (status t) PENDING) eqn:E; [|reflexivity].
  apply status_eqb_eq in E. contradiction.
Qed.

(** Iterated calls of the executor on one id. *)
Lemma executeSingleTransaction_not_pending txId s t :
  findTransaction txId s = Some t ->
  status t <> PENDING ->
  executeSingleTransaction txId s
  = mkExecution (if status_eqb (status t) PROCESSING then Some t else None)
                s Committed.
Proof.
  intros Hfind Hst. pose proof (try_not_pending _ _ _ Hfind Hst) as Htry.
  destruct (executeSingleTransaction_run txId s) as [[_ E]|[E _]].
  - rewrite E. exact Htry.
  - rewrite Htry in E. discriminate E.
Qed.

Lemma try_success txId s t :
  returned (executeSingleTransaction_try txId s) = Some t ->
  status t = PROCESSING
  /\ findTransaction txId (store (executeSingleTransaction_try txId s))
     = Some t.
Proof.
  unfold executeSingleTransaction_try.
  destruct (findTransaction txId s) as [t0|] eqn:Hfind; [|discriminate].
  destruct (find_key tx_id _ _ _ Hfind) as [Hid _].
  destruct (status_eqb (status t0) PENDING) eqn:Hp; simpl.
  - destruct (findAccountById (fromAccountId t0) s) as [sender|];
      [|discriminate].
    destruct (findAccountById (toAccountId t0) s) as [recipient|];
      [|discriminate].
    destruct (locked sender <? amount t0); [discriminate|].
    destruct (balance sender <? amount t0); [discriminate|].
    simpl. intros H. inversion H; subst. split; [reflexivity|].
    unfold findTransaction, saveAccount. simpl.
    apply (find_save_same tx_id (set_status t0 PROCESSING)).
  - destruct (status_eqb (status t0) PROCESSING) eqn:Hq; [|discriminate].
    intros H. inversion H; subst. apply status_eqb_eq in Hq. auto.
Qed.

Lemma executeSingleTransaction_success txId s t :
  returned (executeSingleTransaction txId s) = Some t ->
  status t = PROCESSING
  /\ findTransaction txId (store (executeSingleTransaction txId s)) = Some t.
Proof.
  destruct (executeSingleTransaction_run txId s) as [[_ E]|(_ & _ & E)];
    rewrite E.
  - apply try_success.
  - discriminate.
Qed.

Lemma failTransaction_accounts t reason s :
  accounts (failTransaction t reason s) = accounts s.
Proof. reflexivity. Qed.

Lemma failTransaction_status t reason s :
  option_map status (findTransaction (tx_id t) (failTransaction t reason s))
  = Some FAILED.
Proof.
  unfold failTransaction.
  set (t' := set_description _ _).
  change (tx_id t) with (tx_id t').
  rewrite findTransaction_saveTransaction. reflexivity.
Qed.

Lemma revertLockOnAccount_covered id amt s a :
  findAccountById id s = Some a ->
  amt <= locked a ->
  revertLockOnAccount id amt s
  = updateAccountLocked id (toNumber (locked a - amt)) s.
Proof.
  intros Hfind Hle. unfold revertLockOnAccount. rewrite Hfind.
  destruct (locked a - amt <? 0) eqn:E; [|reflexivity].
  apply Z.ltb_lt in E. lia.
Qed.

(** C7.  On a transaction that is not PENDING the executor writes nothing
    and returns the row exactly when it is PROCESSING; so once a call has
    returned a row, any number of further calls on that id leave the
    store as it is and return that PROCESSING row. *)
Theorem executor_idempotent :
  (forall txId s t,
      findTransaction txId s = Some t ->
      status t <> PENDING ->
      store (executeSingleTransaction txId s) = s
      /\ (status t = PROCESSING ->
          returned (executeSingleTransaction txId s) = Some t)
      /\ (status t <> PROCESSING ->
          returned (executeSingleTransaction txId s) = None))
  /\ (forall txId s t,
      returned (executeSingleTransaction txId s) = Some t ->
      forall n,
        status t = PROCESSING
        /\ repeatExecute n txId (store (executeSingleTransaction txId s))
           = store (executeSingleTransaction txId s)
        /\ executeSingleTransaction txId
             (repeatExecute n txId (store (executeSingleTransaction txId s)))
           = mkExecution (Some t) (store (executeSingleTransaction txId s))
                         Committed).
Proof.
  split.
  - intros txId s t Hfind Hst.
    rewrite (executeSingleTransaction_not_pending _ _ _ Hfind Hst). simpl.
    split; [reflexivity|]. split; intros H.
    + rewrite H. reflexivity.
    + destruct (status_eqb (status t) PROCESSING) eqn:E; [|reflexivity].
      apply status_eqb_eq in E. contradiction.
  - intros txId s t Hret n.
    destruct (executeSingleTransaction_success _ _ _ Hret) as [Hst Hfind].
    set (s' := store (executeSingleTransaction txId s)) in *.
    assert (Hnp : status t <> PENDING) by (rewrite Hst; discriminate).
    assert (Hcall : executeSingleTransaction txId s'
                    = mkExecution (Some t) s' Committed).
    { rewrite (executeSingleTransaction_not_pending _ _ _ Hfind Hnp).
      rewrite Hst. reflexivity. }
    assert (Hiter : repeatExecute n txId s' = s').
    { induction n as [|n IH]; [reflexivity|].
      unfold repeatExecute in *. simpl. rewrite IH, Hcall. reflexivity. }
    rewrite Hiter. auto.
Qed.

(** The two FAILED branches of the [try] block, on a PENDING transaction
    with both endpoint rows present.  Inside the store transaction: with
    [locked < amount] the row is saved FAILED and nothing is written to the
    sender; with [locked >= amount > balance] the row is saved FAILED and
    the sender's [locked] is written as [toNumber (locked - amount)]; the
    sender's [balance] and the recipient row are not written.  Both
    branches return null with the store transaction open. *)
Lemma executor_failed_writes txId s t sender recipient :
  findTransaction txId s = Some t ->
  status t = PENDING ->
  findAccountById (fromAccountId t) s = Some sender ->
  findAccountById (toAccountId t) s = Some recipient ->
  fromAccountId t <> toAccountId t ->
  let r := executeSingleTransaction_try txId s in
  (locked sender < amount t ->
     returned r = None /\ ending r = LeftOpen
     /\ option_map status (findTransaction txId (store r)) = Some FAILED
     /\ findAccountById (fromAccountId t) (store r) = Some sender
     /\ findAccountById (toAccountId t) (store r) = Some recipient)
  /\ (amount t <= locked sender -> balance sender < amount t ->
     returned r = None /\ ending r = LeftOpen
     /\ option_map status (findTransaction txId (store r)) = Some FAILED
     /\ findAccountById (fromAccountId t) (store r)
        = Some (set_locked sender (toNumber (locked sender - amount t)))
     /\ findAccountById (toAccountId t) (store r) = Some recipient).
Proof.
  intros Hfind Hst Hs Hr Hne r. subst r.
  destruct (find_key tx_id _ _ _ Hfind) as [Hid _].
  destruct (find_key acc_id _ _ _ Hs) as [Hsid _].
  unfold executeSingleTransaction_try. rewrite Hfind, Hst.
  cbn [status_eqb negb].
  change (fromAccountId (set_status t PROCESSING)) with (fromAccountId t).
  change (toAccountId (set_status t PROCESSING)) with (toAccountId t).
  change (amount (set_status t PROCESSING)) with (amount t).
  rewrite Hs, Hr. split.
  - intros Hlt. apply Z.ltb_lt in Hlt. rewrite Hlt. cbn [returned store ending].
    split; [reflexivity|]. split; [reflexivity|].
    split; [|split; assumption].
    rewrite <- Hid. apply (failTransaction_status (set_status t PROCESSING)).
  - intros Hle Hlt. apply Z.ltb_ge in Hle. apply Z.ltb_lt in Hlt.
    rewrite Hle, Hlt. cbn [returned store ending].
    set (s2 := failTransaction _ _ _).
    assert (Hs2 : findAccountById (acc_id sender) s2 = Some sender)
      by (rewrite Hsid; exact Hs).
    rewrite (revertLockOnAccount_covered _ _ _ _ Hs2)
      by (apply Z.ltb_ge; exact Hle).
    split; [reflexivity|]. split; [reflexivity|]. split; [|split].
    + rewrite <- Hid.
      apply (failTransaction_status (set_status t PROCESSING)).
    + rewrite <- Hsid. apply findAccountById_updateLocked. exact Hs2.
    + rewrite findAccountById_updateLocked_other by congruence. exact Hr.
Qed.

(** A call that fails a PENDING transaction commits nothing: it returns
    null, the store transaction is left open, and the store is as it was,
    the row still PENDING. *)
Lemma executor_failed_left_open txId s t :
  findTransaction txId s = Some t ->
  status t = PENDING ->
  returned (executeSingleTransaction txId s) = None ->
  executeSingleTransaction txId s = mkExecution None s LeftOpen
  /\ findTransaction txId (store (executeSingleTransaction txId s)) = Some t.
Proof.
  intros Hfind Hst Hret.
  destruct (executeSingleTransaction_run txId s) as [[Hc E]|(_ & _ & E)].
  - exfalso. rewrite E in Hret. revert Hc Hret.
    unfold executeSingleTransaction_try. rewrite Hfind, Hst.
    cbn [status_eqb negb].
    destruct (findAccountById _ s) as [sender|]; [|discriminate].
    destruct (findAccountById _ s) as [recipient|]; [|discriminate].
    destruct (locked sender <? _); [discriminate|].
    destruct (balance sender <? _); discriminate.
  - rewrite E. split; [reflexivity | exact Hfind].
Qed.

(** ** The intake *)

Lemma submitTransfer_success
      newId entropy userId from to amount currency descr s t s' :
  submitTransfer newId entropy userId from to amount currency descr s
    = (inr t, s') ->
  exists sender recipient,
    0 < amount
    /\ from <> to
    /\ find (fun a => (systemAddress a =? from)%string
                      && (wallet_userId a =? userId)%string) (accounts s)
       = Some sender
    /\ find (fun a => (systemAddress a =? to)%string) (accounts s)
       = Some recipient
    /\ acc_currency sender = toUpperCase currency
    /\ acc_currency recipient = toUpperCase currency
    /\ amount <= balance sender - locked sender
    /\ t = mkTransaction newId ("txn_" ++ entropy)%string (acc_id sender)
             (acc_id recipient) (toNumber amount) 0 (toUpperCase currency)
             PENDING (nonce sender)
             (Some (orElse descr ("Transfer to " ++ to)%string))
             TRANSFER None None
    /\ existsb (fun o => (tx_id o =? tx_id t)%string
                         || (systemHash o =? systemHash t)%string)
               (transactions s) = false
    /\ s' = mkState
              (save acc_id
                 (set_nonce
                    (set_locked sender (toNumber (locked sender + amount)))
                    (nonce sender + 1))
                 (accounts s))
              (transactions s ++ [t]) (blocks s)
              (lpush newId (mempool s)) (deadLetter s).
Proof.
  unfold submitTransfer.
  destruct (amount <=? 0) eqn:Hamt; [discriminate|].
  destruct (from =? to)%string eqn:Hft; [discriminate|].
  destruct (find _ (accounts s)) as [sender|] eqn:Hs; [|discriminate].
  destruct (acc_currency sender =? toUpperCase currency)%string eqn:Hcs;
    cbn [negb]; [|discriminate].
  destruct (balance sender - locked sender <? amount) eqn:Hav; [discriminate|].
  match goal with |- context [find ?f (accounts s)] =>
    destruct (find f (accounts s)) as [recipient|] eqn:Hr end;
    [|discriminate].
  destruct (acc_currency recipient =? toUpperCase currency)%string eqn:Hcr;
    cbn [negb]; [|discriminate].
  unfold insertTransaction.
  match goal with |- context [existsb ?f ?l] =>
    destruct (existsb f l) eqn:Hex end; [discriminate|].
  intros H. inversion H; subst; clear H.
  exists sender, recipient.
  apply Z.leb_gt in Hamt. apply String.eqb_neq in Hft.
  apply String.eqb_eq in Hcs, Hcr. apply Z.ltb_ge in Hav.
  repeat split; try assumption.
Qed.

(** A failed intake hands back the state it started from. *)
Lemma submitTransfer_failure
      newId entropy userId from to amount currency descr s e s' :
  submitTransfer newId entropy userId from to amount currency descr s
    = (inl e, s') ->
  s' = s.
Proof.
  unfold submitTransfer.
  repeat match goal with
         | |- context [if ?c then _ else _] => destruct c
         | |- context [match find ?f ?l with _ => _ end] => destruct (find f l)
         | |- context [match insertTransaction ?t ?x with _ => _ end] =>
             destruct (insertTransaction t x)
         end;
    intros H; inversion H; reflexivity.
Qed.

(** C6 (as the code has it).  A successful [submitTransfer] whose sender
    row holds [locked >= 0] and a balance of at most [MAX_EXACT] leaves the
    sender row with [locked] raised by [amount], [nonce] raised by 1 and
    [balance] as it was, and appends one transaction row: PENDING, of that
    amount, carrying the sender's previous nonce, with a [systemHash] no
    stored transaction has. *)
Theorem submitTransfer_post_state
      newId entropy userId from to amt currency descr s t s' :
  (forall sender,
      find (fun a => (systemAddress a =? from)%string
                     && (wallet_userId a =? userId)%string) (accounts s)
        = Some sender ->
      0 <= locked sender /\ balance sender <= MAX_EXACT) ->
  submitTransfer newId entropy userId from to amt currency descr s
    = (inr t, s') ->
  exists sender sender',
    find (fun a => (systemAddress a =? from)%string
                   && (wallet_userId a =? userId)%string) (accounts s)
      = Some sender
    /\ findAccountById (acc_id sender) s' = Some sender'
    /\ locked sender' = locked sender + amt
    /\ nonce sender' = nonce sender + 1
    /\ balance sender' = balance sender
    /\ transactions s' = transactions s ++ [t]
    /\ status t = PENDING
    /\ amount t = amt
    /\ accountNonce t = nonce sender
    /\ systemHash t = ("txn_" ++ entropy)%string
    /\ forall o, In o (transactions s) -> systemHash o <> systemHash t.
Proof.
  intros Hrange H. apply submitTransfer_success in H.
  destruct H as (sender & recipient & Hamt & _ & Hs & _ & _ & _ & Hav & Ht
                 & Hex & Hs').
  destruct (Hrange sender Hs) as [H0 Hb].
  exists sender,
    (set_nonce (set_locked sender (toNumber (locked sender + amt)))
               (nonce sender + 1)).
  subst s'. split; [exact Hs|]. split.
  - apply (find_save_same acc_id
             (set_nonce (set_locked sender (toNumber (locked sender + amt)))
                        (nonce sender + 1))).
  - split; [apply toNumber_exact_nonneg; cbn [locked]; lia|].
    split; [reflexivity|]. split; [reflexivity|]. split; [reflexivity|].
    split; [subst t; reflexivity|].
    split; [subst t; apply toNumber_exact_nonneg; lia|].
    split; [subst t; reflexivity|]. split; [subst t; reflexivity|].
    intros o Ho Heq.
    assert (existsb (fun o => (tx_id o =? tx_id t)%string
                              || (systemHash o =? systemHash t)%string)
                    (transactions s) = true) as Hc.
    { apply existsb_exists. exists o. split; [exact Ho|].
      rewrite Heq, String.eqb_refl. apply orb_true_r. }
    congruence.
Qed.

(** C6 (as stated) fails: with 100000000.00000001 locked, a transfer of
    0.00000001 is accepted, the nonce moves and the PENDING row is
    inserted, and [locked] is written back as it was. *)
Lemma submitTransfer_locked_not_raised :
  exists t s' sender sender',
    submitTransfer "tx-1" "01" "u-alice" "acc_alice" "acc_bob" 1 "NGN" None
                   Scenario.wealthy = (inr t, s')
    /\ find (fun a => (systemAddress a =? "acc_alice")%string
                      && (wallet_userId a =? "u-alice")%string)
            (accounts Scenario.wealthy) = Some sender
    /\ findAccountById (acc_id sender) s' = Some sender'
    /\ status t = PENDING
    /\ nonce sender' = nonce sender + 1
    /\ locked sender' = locked sender
    /\ locked sender' <> locked sender + 1.
Proof.
  do 4 eexists. vm_compute.
  repeat (split; [reflexivity|]). discriminate.
Qed.

(** ** Account rows under a primary key *)

Lemma find_unique_row (rows : list Account) (id : string) (a r : Account) :
  NoDup (map acc_id rows) ->
  find (fun x => (acc_id x =? id)%string) rows = Some a ->
  In r rows -> acc_id r = id -> r = a.
Proof.
  intros Hnd Hfind Hin Hid.
  destruct (find_key acc_id _ _ _ Hfind) as [Ha Hina].
  apply (NoDup_key_inj acc_id rows); congruence.
Qed.

Lemma save_account_keys (rows : list Account) (old a' : Account) :
  NoDup (map acc_id rows) ->
  find (fun x => (acc_id x =? acc_id a')%string) rows = Some old ->
  acc_currency a' = acc_currency old ->
  map keyOf (save acc_id a' rows) = map keyOf rows.
Proof.
  intros Hnd Hfind Hcur.
  apply (map_save_existing acc_id keyOf a' old); [exact Hfind|].
  intros r Hin Hid.
  rewrite (find_unique_row _ _ _ _ Hnd Hfind Hin Hid).
  destruct (find_key acc_id _ _ _ Hfind) as [Ha _].
  unfold keyOf. congruence.
Qed.

Lemma save_account_sum (c : string) (rows : list Account) (old a' : Account) :
  NoDup (map acc_id rows) ->
  find (fun x => (acc_id x =? acc_id a')%string) rows = Some old ->
  acc_currency a' = acc_currency old ->
  sumBalance c (save acc_id a' rows)
  = sumBalance c rows
    + (if (acc_currency old =? c)%string then balance a' - balance old else 0).
Proof.
  intros Hnd Hfind Hcur. unfold save.
  rewrite (find_existsb acc_id _ _ _ Hfind).
  induction rows as [|x rows IH]; simpl in *; [discriminate|].
  inversion Hnd as [|? ? Hnotin Hnd']; subst.
  destruct (acc_id x =? acc_id a')%string eqn:E.
  - inversion Hfind; subst x. apply String.eqb_eq in E.
    assert (Hrest : map (fun r => if (acc_id r =? acc_id a')%string
                                  then a' else r) rows = rows).
    { rewrite <- (map_id rows) at 2. apply map_ext_in. intros r Hr.
      destruct (acc_id r =? acc_id a')%string eqn:E'; [|reflexivity].
      apply String.eqb_eq in E'. exfalso. apply Hnotin.
      rewrite E, <- E'. apply in_map. exact Hr. }
    rewrite Hrest, Hcur.
    destruct (acc_currency old =? c)%string; lia.
  - rewrite (IH Hnd' Hfind). lia.
Qed.

Lemma update_locked_keys (id : string) (v : Z) (rows : list Account) :
  map keyOf (map (fun a => if (acc_id a =? id)%string
                           then set_locked a v else a) rows)
  = map keyOf rows.
Proof.
  rewrite map_map. apply map_ext. intros a.
  destruct (acc_id a =? id)%string; reflexivity.
Qed.

Lemma update_locked_sum (c id : string) (v : Z) (rows : list Account) :
  sumBalance c (map (fun a => if (acc_id a =? id)%string
                              then set_locked a v else a) rows)
  = sumBalance c rows.
Proof.
  induction rows as [|a rows IH]; simpl; [reflexivity|].
  rewrite IH. destruct (acc_id a =? id)%string; reflexivity.
Qed.

Lemma accountKeys_ids (s : State) :
  map acc_id (accounts s) = map fst (accountKeys s).
Proof. unfold accountKeys. rewrite map_map. reflexivity. Qed.

Lemma revertLockOnAccount_accounts id amt s :
  accountKeys (revertLockOnAccount id amt s) = accountKeys s
  /\ (forall c, totalBalance c (revertLockOnAccount id amt s)
                = totalBalance c s)
  /\ transactions (revertLockOnAccount id amt s) = transactions s.
Proof.
  unfold revertLockOnAccount.
  destruct (findAccountById id s) as [a|]; [|auto].
  unfold accountKeys, totalBalance, updateAccountLocked. simpl.
  split; [apply update_locked_keys|].
  split; [intros c; apply update_locked_sum | reflexivity].
Qed.

(** ** Amounts in the exact range *)

Lemma sumBalance_nonneg (c : string) (rows : list Account) :
  Forall (fun a => 0 <= balance a) rows -> 0 <= sumBalance c rows.
Proof.
  induction 1 as [|a rows Ha _ IH]; simpl; [lia|].
  destruct (acc_currency a =? c)%string; lia.
Qed.

Lemma sumBalance_covers (rows : list Account) (a : Account) :
  Forall (fun a => 0 <= balance a) rows -> In a rows ->
  balance a <= sumBalance (acc_currency a) rows.
Proof.
  induction 1 as [|x rows Hx Hrows IH]; intros Hin; [contradiction|].
  simpl. pose proof (sumBalance_nonneg (acc_currency a) rows Hrows).
  destruct Hin as [->|Hin].
  - rewrite String.eqb_refl. lia.
  - specialize (IH Hin). destruct (acc_currency x =? _)%string; lia.
Qed.

Lemma sumBalance_covers_two (rows : list Account) (a b : Account) :
  Forall (fun a => 0 <= balance a) rows -> In a rows -> In b rows ->
  acc_id a <> acc_id b -> acc_currency a = acc_currency b ->
  balance a + balance b <= sumBalance (acc_currency a) rows.
Proof.
  intros Hrows Ha Hb Hne Hcur. revert Ha Hb.
  induction Hrows as [|x rows Hx Hrows IH]; intros Ha Hb; [contradiction|].
  simpl. pose proof (sumBalance_nonneg (acc_currency a) rows Hrows).
  destruct Ha as [->|Ha], Hb as [->|Hb].
  - contradiction Hne; reflexivity.
  - rewrite String.eqb_refl.
    pose proof (sumBalance_covers rows b Hrows Hb) as H1.
    rewrite <- Hcur in H1. lia.
  - rewrite <- Hcur, String.eqb_refl.
    pose proof (sumBalance_covers rows a Hrows Ha). lia.
  - specialize (IH Ha Hb). destruct (acc_currency x =? _)%string; lia.
Qed.

Lemma discipline_nonneg (s : State) :
  LockDisciplined s -> Forall (fun a => 0 <= balance a) (accounts s).
Proof.
  intros Hd. apply Forall_forall. intros a Ha.
  destruct (proj1 (Forall_forall _ _) Hd a Ha). lia.
Qed.

(** Under lock discipline and bounded totals every stored amount is in
    the range on which [toNumber] is exact. *)
Lemma account_in_range (s : State) (a : Account) :
  LockDisciplined s -> Bounded s -> In a (accounts s) ->
  0 <= locked a /\ locked a <= balance a /\ balance a <= MAX_EXACT.
Proof.
  intros Hd Hb Ha. destruct (proj1 (Forall_forall _ _) Hd a Ha) as [H0 H1].
  pose proof (sumBalance_covers _ a (discipline_nonneg s Hd) Ha) as H2.
  specialize (Hb (acc_currency a)). unfold totalBalance in Hb. lia.
Qed.

Lemma revertLockOnAccount_discipline id amt s :
  NoDup (map acc_id (accounts s)) ->
  LockDisciplined s ->
  Bounded s ->
  0 <= amt ->
  LockDisciplined (revertLockOnAccount id amt s).
Proof.
  intros Hnd Hd Hbd Hamt. unfold revertLockOnAccount.
  destruct (findAccountById id s) as [a|] eqn:Hfind; [|exact Hd].
  destruct (find_key acc_id _ _ _ Hfind) as [_ Hain].
  destruct (account_in_range s a Hd Hbd Hain) as (Ha0 & Ha1 & Ha2).
  unfold LockDisciplined, updateAccountLocked in *. simpl.
  apply Forall_forall. intros r Hr. apply in_map_iff in Hr.
  destruct Hr as (x & Hx & Hin).
  pose proof (proj1 (Forall_forall _ _) Hd x Hin) as [Hx0 Hxb].
  destruct (acc_id x =? id)%string eqn:E; [|subst r; split; assumption].
  apply String.eqb_eq in E.
  assert (x = a) by (eapply find_unique_row; eauto). subst x r.
  unfold lockDiscipline. simpl.
  destruct (locked a - amt <? 0) eqn:Hneg; [lia|].
  apply Z.ltb_ge in Hneg.
  rewrite toNumber_exact_nonneg by lia. lia.
Qed.

(** ** Shape of the executor's writes *)

Lemma txFrame_refl (s : State) : txFrame s s.
Proof. intros t Ht. eauto. Qed.

Lemma txFrame_trans (s1 s2 s3 : State) :
  txFrame s1 s2 -> txFrame s2 s3 -> txFrame s1 s3.
Proof.
  intros H12 H23 t3 Ht3.
  destruct (H23 t3 Ht3) as (t2 & Ht2 & ? & ? & ?).
  destruct (H12 t2 Ht2) as (t1 & Ht1 & ? & ? & ?).
  exists t1. repeat split; congruence.
Qed.

Lemma txFrame_same (s s' : State) :
  transactions s' = transactions s -> txFrame s s'.
Proof. intros H t Ht. rewrite H in Ht. eauto. Qed.

Lemma txFrame_save (s : State) (t t' : Transaction) :
  In t (transactions s) ->
  fromAccountId t' = fromAccountId t ->
  toAccountId t' = toAccountId t ->
  amount t' = amount t ->
  txFrame s (saveTransaction t' s).
Proof.
  intros Hin Hf Ht Ha x Hx. unfold saveTransaction in Hx. simpl in Hx.
  revert x Hx. apply Forall_forall.
  apply (Forall_save tx_id); [|eauto].
  apply Forall_forall. intros y Hy. eauto.
Qed.

Lemma txFrame_failTransaction (s : State) (t t' : Transaction) reason :
  In t (transactions s) ->
  fromAccountId t' = fromAccountId t ->
  toAccountId t' = toAccountId t ->
  amount t' = amount t ->
  txFrame s (failTransaction t' reason s).
Proof.
  intros. unfold failTransaction. apply txFrame_save with (t := t); assumption.
Qed.

Lemma txFrame_markTransactionFailed txId reason s :
  txFrame s (markTransactionFailed txId reason s).
Proof.
  unfold markTransactionFailed.
  destruct (findTransaction txId s) as [t|] eqn:Hfind; [|apply txFrame_refl].
  apply txFrame_save with (t := t); try reflexivity.
  apply (find_key tx_id _ _ _ Hfind).
Qed.

Lemma revertLockOnAccount_same_accounts id amt s s0 :
  accounts s0 = accounts s ->
  accounts (revertLockOnAccount id amt s0)
  = accounts (revertLockOnAccount id amt s).
Proof.
  intros H. unfold revertLockOnAccount, findAccountById. rewrite H.
  destruct (find _ (accounts s)); [|exact H].
  unfold updateAccountLocked. simpl. rewrite H. reflexivity.
Qed.

Lemma try_frame txId s :
  txFrame s (store (executeSingleTransaction_try txId s)).
Proof.
  unfold executeSingleTransaction_try.
  destruct (findTransaction txId s) as [t|] eqn:Hfind; [|apply txFrame_refl].
  destruct (find_key tx_id _ _ _ Hfind) as [_ Hin].
  destruct (status_eqb (status t) PENDING); cbn [negb]; [|apply txFrame_refl].
  change (fromAccountId (set_status t PROCESSING)) with (fromAccountId t).
  change (toAccountId (set_status t PROCESSING)) with (toAccountId t).
  change (amount (set_status t PROCESSING)) with (amount t).
  set (t1 := set_status t PROCESSING).
  assert (H1 : txFrame s (saveTransaction t1 s))
    by (apply txFrame_save with (t := t); auto).
  assert (Hfail : forall reason,
             txFrame s (failTransaction t1 reason (saveTransaction t1 s))).
  { intros reason. eapply txFrame_trans; [exact H1|].
    apply txFrame_failTransaction with (t := t1); try reflexivity.
    apply (find_key tx_id (tx_id t1)), findTransaction_saveTransaction. }
  destruct (findAccountById (fromAccountId t) s) as [sender|]; [|apply Hfail].
  destruct (findAccountById (toAccountId t) s) as [recipient|];
    [|apply Hfail].
  destruct (locked sender <? amount t); [apply Hfail|].
  destruct (balance sender <? amount t); cbn [store].
  - eapply txFrame_trans; [apply Hfail|]. apply txFrame_same.
    apply revertLockOnAccount_accounts.
  - exact H1.
Qed.

(** The debit and credit of the [try] block, in a well-formed ledger
    under lock discipline and bounded totals: the three amounts written
    are the amounts computed. *)
Lemma try_transfer_exact (s : State) (t : Transaction)
      (sender recipient : Account) :
  LedgerOK s -> LockDisciplined s -> Bounded s ->
  In t (transactions s) ->
  findAccountById (fromAccountId t) s = Some sender ->
  findAccountById (toAccountId t) s = Some recipient ->
  amount t <= locked sender ->
  amount t <= balance sender ->
  0 < amount t ->
  toNumber (balance sender - amount t) = balance sender - amount t
  /\ toNumber (locked sender - amount t) = locked sender - amount t
  /\ toNumber (balance recipient + amount t) = balance recipient + amount t.
Proof.
  intros [Hnd Htx] Hd Hbd Hin Hs Hr Hl Hb Hpos.
  destruct (find_key acc_id _ _ _ Hs) as [Hsid Hsin].
  destruct (find_key acc_id _ _ _ Hr) as [Hrid Hrin].
  destruct (account_in_range s sender Hd Hbd Hsin) as (Hs0 & Hs1 & Hs2).
  destruct (account_in_range s recipient Hd Hbd Hrin) as (Hr0 & Hr1 & Hr2).
  destruct (proj1 (Forall_forall _ _) Htx t Hin) as [Hne Hcur].
  assert (Hsame : acc_currency sender = acc_currency recipient).
  { apply Hcur; unfold accountKeys.
    - rewrite <- Hsid. apply (in_map keyOf _ _ Hsin).
    - rewrite <- Hrid. apply (in_map keyOf _ _ Hrin). }
  pose proof (sumBalance_covers_two _ sender recipient
                (discipline_nonneg s Hd) Hsin Hrin ltac:(congruence) Hsame)
    as Hpair.
  pose proof (Hbd (acc_currency sender)) as Htot. unfold totalBalance in Htot.
  repeat split; apply toNumber_exact_nonneg; lia.
Qed.

Lemma try_effect txId s :
  LedgerOK s -> AmountsPositive s -> LockDisciplined s -> Bounded s ->
  accountEffect s (accounts (store (executeSingleTransaction_try txId s))).
Proof.
  intros Hok Hpos Hd Hbd. unfold executeSingleTransaction_try.
  destruct (findTransaction txId s) as [t|] eqn:Hfind;
    [|exact (effect_none s)].
  destruct (find_key tx_id _ _ _ Hfind) as [_ Hin].
  destruct (status_eqb (status t) PENDING); cbn [negb];
    [|exact (effect_none s)].
  change (fromAccountId (set_status t PROCESSING)) with (fromAccountId t).
  change (toAccountId (set_status t PROCESSING)) with (toAccountId t).
  change (amount (set_status t PROCESSING)) with (amount t).
  destruct (findAccountById (fromAccountId t) s) as [sender|] eqn:Hs;
    [|exact (effect_none s)].
  destruct (findAccountById (toAccountId t) s) as [recipient|] eqn:Hr;
    [|exact (effect_none s)].
  destruct (locked sender <? amount t) eqn:Hl; [exact (effect_none s)|].
  destruct (balance sender <? amount t) eqn:Hb; cbn [store].
  - rewrite (revertLockOnAccount_same_accounts _ _ s) by reflexivity.
    apply effect_revert. exact Hin.
  - apply Z.ltb_ge in Hl, Hb.
    pose proof (proj1 (Forall_forall _ _) Hpos t Hin) as Hamt.
    cbv beta in Hamt.
    destruct (try_transfer_exact s t sender recipient Hok Hd Hbd Hin Hs Hr
                Hl Hb Hamt) as (E1 & E2 & E3).
    rewrite E1, E2, E3.
    apply (effect_transfer s t sender recipient); assumption.
Qed.

Lemma executeSingleTransaction_catch_shape txId message s :
  txFrame s (store (executeSingleTransaction_catch txId message s))
  /\ accountEffect s
       (accounts (store (executeSingleTransaction_catch txId message s))).
Proof.
  unfold executeSingleTransaction_catch. cbn [store].
  set (s1 := markTransactionFailed _ _ s).
  assert (H1 : txFrame s s1) by apply txFrame_markTransactionFailed.
  assert (Hacc : accounts s1 = accounts s).
  { unfold s1, markTransactionFailed.
    destruct (findTransaction txId s); reflexivity. }
  destruct (findTransaction txId s1) as [tx|] eqn:Hfind;
    [|split; [exact H1 | simpl; rewrite Hacc; exact (effect_none s)]].
  destruct (findAccountById (fromAccountId tx) s1) as [fromAccount|];
    [|split; [exact H1 | simpl; rewrite Hacc; exact (effect_none s)]].
  destruct (find_key tx_id _ _ _ Hfind) as [_ Hin].
  destruct (H1 tx Hin) as (t & Ht & _ & _ & Hamt).
  split.
  - eapply txFrame_trans; [exact H1|]. apply txFrame_same.
    apply revertLockOnAccount_accounts.
  - change (accounts (moveToDLQ txId ?x)) with (accounts x).
    rewrite (revertLockOnAccount_same_accounts _ _ s) by exact Hacc.
    rewrite Hamt. apply effect_revert. exact Ht.
Qed.

Lemma map_acc_id_keyOf (rows : list Account) :
  map acc_id rows = map fst (map keyOf rows).
Proof. rewrite map_map. reflexivity. Qed.

Lemma find_by_id_of_In (rows : list Account) (a : Account) :
  NoDup (map acc_id rows) -> In a rows ->
  find (fun x => (acc_id x =? acc_id a)%string) rows = Some a.
Proof.
  intros Hnd Hin.
  destruct (find (fun x => (acc_id x =? acc_id a)%string) rows) as [b|] eqn:E.
  - f_equal. symmetry. eapply find_unique_row; eauto.
  - exfalso. apply (find_none _ _ E) in Hin.
    rewrite String.eqb_refl in Hin. discriminate.
Qed.

Lemma keys_lookup (rows : list Account) (a : Account) (c : string) :
  NoDup (map acc_id rows) -> In a rows ->
  In (acc_id a, c) (map keyOf rows) -> c = acc_currency a.
Proof.
  intros Hnd Hin Hk. apply in_map_iff in Hk. destruct Hk as (r & Hr & Hrin).
  inversion Hr as [[Hid Hc]].
  assert (r = a) by (apply (NoDup_key_inj acc_id rows); auto).
  subst r. reflexivity.
Qed.

Lemma transferOK_endpoints keys (t t' : Transaction) :
  fromAccountId t' = fromAccountId t ->
  toAccountId t' = toAccountId t ->
  transferOK keys t -> transferOK keys t'.
Proof. unfold transferOK. intros -> ->. auto. Qed.

Lemma LedgerOK_frame (s s' : State) :
  LedgerOK s -> accountKeys s' = accountKeys s -> txFrame s s' ->
  LedgerOK s'.
Proof.
  intros [Hnd Htx] Hkeys Hframe. split.
  - rewrite accountKeys_ids, Hkeys, <- accountKeys_ids. exact Hnd.
  - rewrite Hkeys. apply Forall_forall. intros t' Ht'.
    destruct (Hframe t' Ht') as (t & Ht & Hf & Hto & _).
    apply (transferOK_endpoints _ t); auto.
    exact (proj1 (Forall_forall _ _) Htx t Ht).
Qed.

Lemma AmountsPositive_frame (s s' : State) :
  AmountsPositive s -> txFrame s s' -> AmountsPositive s'.
Proof.
  intros Hpos Hframe. apply Forall_forall. intros t' Ht'.
  destruct (Hframe t' Ht') as (t & Ht & _ & _ & Ha). rewrite Ha.
  exact (proj1 (Forall_forall _ _) Hpos t Ht).
Qed.

(** Every effect of the executor keeps the rows' identities and
    currencies, and the sum of balances of every currency. *)
Lemma accountEffect_conserves (s : State) (rows : list Account) :
  LedgerOK s -> accountEffect s rows ->
  map keyOf rows = accountKeys s
  /\ forall c, sumBalance c rows = totalBalance c s.
Proof.
  intros [Hnd Htx] Heff.
  destruct Heff as [|t id Hin|t sender recipient Hin Hs Hr Hl Hb].
  - auto.
  - destruct (revertLockOnAccount_accounts id (amount t) s) as (Hk & Hsum & _).
    auto.
  - destruct (proj1 (Forall_forall _ _) Htx t Hin) as [Hne Hcur].
    destruct (find_key acc_id _ _ _ Hs) as [Hsid Hsin].
    destruct (find_key acc_id _ _ _ Hr) as [Hrid Hrin].
    assert (Hsame : acc_currency sender = acc_currency recipient).
    { apply Hcur; unfold accountKeys.
      - rewrite <- Hsid. apply (in_map keyOf _ _ Hsin).
      - rewrite <- Hrid. apply (in_map keyOf _ _ Hrin). }
    set (sender' := set_locked (set_balance sender _) _).
    set (recipient' := set_balance recipient _).
    assert (Hs' : find (fun x => (acc_id x =? acc_id sender')%string)
                       (accounts s) = Some sender).
    { change (acc_id sender') with (acc_id sender). rewrite Hsid. exact Hs. }
    assert (Hk1 : map keyOf (save acc_id sender' (accounts s))
                  = map keyOf (accounts s))
      by (apply (save_account_keys _ sender); auto).
    assert (Hnd1 : NoDup (map acc_id (save acc_id sender' (accounts s))))
      by (rewrite map_acc_id_keyOf, Hk1, <- map_acc_id_keyOf; exact Hnd).
    assert (Hr' : find (fun x => (acc_id x =? acc_id recipient')%string)
                       (save acc_id sender' (accounts s)) = Some recipient).
    { change (acc_id recipient') with (acc_id recipient). rewrite Hrid.
      rewrite (find_save_other acc_id); [exact Hr|].
      change (acc_id sender') with (acc_id sender). congruence. }
    split.
    + rewrite (save_account_keys _ recipient); auto.
    + intros c.
      rewrite (save_account_sum c _ recipient) by auto.
      rewrite (save_account_sum c _ sender) by auto.
      unfold totalBalance. rewrite Hsame. subst sender' recipient'. simpl.
      destruct (acc_currency recipient =? c)%string; lia.
Qed.

(** Every effect of the executor keeps [balance >= locked >= 0]. *)
Lemma accountEffect_discipline (s : State) (rows : list Account) :
  NoDup (map acc_id (accounts s)) -> LockDisciplined s -> AmountsPositive s ->
  Bounded s ->
  accountEffect s rows -> Forall lockDiscipline rows.
Proof.
  intros Hnd Hd Hpos Hbd Heff.
  destruct Heff as [|t id Hin|t sender recipient Hin Hs Hr Hl Hb].
  - exact Hd.
  - pose proof (proj1 (Forall_forall _ _) Hpos t Hin) as Hamt.
    cbv beta in Hamt. apply revertLockOnAccount_discipline; auto. lia.
  - pose proof (proj1 (Forall_forall _ _) Hpos t Hin) as Hamt.
    cbv beta in Hamt.
    destruct (find_key acc_id _ _ _ Hs) as [_ Hsin].
    destruct (find_key acc_id _ _ _ Hr) as [_ Hrin].
    destruct (proj1 (Forall_forall _ _) Hd sender Hsin) as [Hs0 Hsb].
    destruct (proj1 (Forall_forall _ _) Hd recipient Hrin) as [Hr0 Hrb].
    apply (Forall_save acc_id); [apply (Forall_save acc_id); [exact Hd|]|];
      unfold lockDiscipline; simpl; lia.
Qed.

(** ** Steps of the pipeline *)

Lemma save_existing_map {B : Type} (f : Account -> B) (rows : list Account)
      (old a' : Account) :
  NoDup (map acc_id rows) -> In old rows ->
  acc_id a' = acc_id old -> f a' = f old ->
  map f (save acc_id a' rows) = map f rows.
Proof.
  intros Hnd Hin Hid Hf.
  assert (Hfind : find (fun x => (acc_id x =? acc_id a')%string) rows
                  = Some old)
    by (rewrite Hid; apply find_by_id_of_In; assumption).
  apply (map_save_existing acc_id f a' old rows Hfind).
  intros r Hr Hrid.
  rewrite (find_unique_row _ _ _ _ Hnd Hfind Hr Hrid). symmetry. exact Hf.
Qed.

Lemma sumBalance_ext (c : string) (rows rows' : list Account) :
  map (fun a => (acc_currency a, balance a)) rows
  = map (fun a => (acc_currency a, balance a)) rows' ->
  sumBalance c rows = sumBalance c rows'.
Proof.
  revert rows'. induction rows as [|a rows IH]; intros [|a' rows'] H;
    simpl in *; try discriminate; [reflexivity|].
  inversion H as [[Hc Hb Hrest]]. rewrite Hc, Hb, (IH _ Hrest). reflexivity.
Qed.

Lemma submitTransfer_step
      newId entropy userId from to amount currency descr s t s' :
  LedgerOK s ->
  submitTransfer newId entropy userId from to amount currency descr s
    = (inr t, s') ->
  LedgerOK s' /\ forall c, totalBalance c s' = totalBalance c s.
Proof.
  intros [Hnd Htx] H. apply submitTransfer_success in H.
  destruct H as (sender & recipient & Hamt & Hne & Hs & Hr & Hcs & Hcr & Hav
                 & Ht & _ & Hs').
  apply find_some in Hs. destruct Hs as [Hsin Hsaddr].
  apply find_some in Hr. destruct Hr as [Hrin Hraddr].
  apply andb_true_iff in Hsaddr. destruct Hsaddr as [Hsaddr _].
  apply String.eqb_eq in Hsaddr, Hraddr.
  set (sender' := set_nonce _ _) in Hs'.
  assert (Hkeys : accountKeys s' = accountKeys s).
  { subst s'. unfold accountKeys. simpl.
    apply (save_existing_map keyOf _ sender); auto. }
  split; [split|].
  - rewrite accountKeys_ids, Hkeys, <- accountKeys_ids. exact Hnd.
  - rewrite Hkeys. subst s'. simpl. apply Forall_app. split; [exact Htx|].
    constructor; [|constructor]. subst t. split; simpl.
    + intros Heq. apply Hne.
      assert (sender = recipient)
        by (apply (NoDup_key_inj acc_id (accounts s)); auto).
      congruence.
    + intros c1 c2 H1 H2.
      apply (keys_lookup _ sender) in H1; auto.
      apply (keys_lookup _ recipient) in H2; auto. congruence.
  - intros c. subst s'. unfold totalBalance. simpl.
    apply sumBalance_ext.
    apply (save_existing_map (fun a => (acc_currency a, balance a)) _ sender);
      auto.
Qed.

(** A successful intake in the exact range: what is written to the
    sender's [locked] and to the row's [amount] are the amounts computed. *)
Lemma submitTransfer_exact (s : State) (sender : Account) (amount : Z) :
  LockDisciplined s -> Bounded s -> In sender (accounts s) ->
  0 < amount -> amount <= balance sender - locked sender ->
  toNumber (locked sender + amount) = locked sender + amount
  /\ toNumber amount = amount.
Proof.
  intros Hd Hbd Hin Hpos Hav.
  destruct (account_in_range s sender Hd Hbd Hin) as (H0 & H1 & H2).
  split; apply toNumber_exact_nonneg; lia.
Qed.

Lemma Bounded_totals (s s' : State) :
  (forall c, totalBalance c s' = totalBalance c s) ->
  Bounded s -> Bounded s'.
Proof. intros H Hb c. rewrite H. apply Hb. Qed.

Lemma submitTransfer_sound
      newId entropy userId from to amt currency descr s t s' :
  Disciplined s -> Bounded s ->
  submitTransfer newId entropy userId from to amt currency descr s
    = (inr t, s') ->
  Disciplined s' /\ Bounded s'
  /\ forall c, totalBalance c s' = totalBalance c s.
Proof.
  intros (Hok & Hpos & Hd) Hbd H.
  destruct (submitTransfer_step _ _ _ _ _ _ _ _ _ _ _ Hok H) as [Hok' Hsum].
  apply submitTransfer_success in H.
  destruct H as (sender & recipient & Hamt & _ & Hs & _ & _ & _ & Hav
                 & Ht & _ & Hs').
  apply find_some in Hs. destruct Hs as [Hsin _].
  destruct (submitTransfer_exact s sender amt Hd Hbd Hsin Hamt Hav)
    as [E1 E2].
  destruct (proj1 (Forall_forall _ _) Hd sender Hsin) as [H0 Hb].
  split; [split; [exact Hok'|split]|split; [|exact Hsum]].
  - subst s'. unfold AmountsPositive. simpl. apply Forall_app.
    split; [exact Hpos|]. constructor; [|constructor].
    subst t. cbn [amount]. rewrite E2. exact Hamt.
  - subst s'. unfold LockDisciplined. simpl.
    apply (Forall_save acc_id); [exact Hd|].
    unfold lockDiscipline. simpl. rewrite E1. lia.
  - exact (Bounded_totals s s' Hsum Hbd).
Qed.

Lemma try_sound txId s :
  Disciplined s -> Bounded s ->
  Disciplined (store (executeSingleTransaction_try txId s))
  /\ Bounded (store (executeSingleTransaction_try txId s))
  /\ forall c, totalBalance c (store (executeSingleTransaction_try txId s))
               = totalBalance c s.
Proof.
  intros (Hok & Hpos & Hd) Hbd.
  pose proof (try_frame txId s) as Hframe.
  pose proof (try_effect txId s Hok Hpos Hd Hbd) as Heff.
  destruct (accountEffect_conserves _ _ Hok Heff) as [Hkeys Hsum].
  split; [split; [|split]|split; [|exact Hsum]].
  - apply (LedgerOK_frame s); assumption.
  - apply (AmountsPositive_frame s); assumption.
  - apply (accountEffect_discipline s); auto. apply Hok.
  - exact (Bounded_totals s _ Hsum Hbd).
Qed.

Lemma catch_sound txId message s :
  Disciplined s -> Bounded s ->
  Disciplined (store (executeSingleTransaction_catch txId message s))
  /\ Bounded (store (executeSingleTransaction_catch txId message s))
  /\ forall c,
       totalBalance c (store (executeSingleTransaction_catch txId message s))
       = totalBalance c s.
Proof.
  intros (Hok & Hpos & Hd) Hbd.
  destruct (executeSingleTransaction_catch_shape txId message s)
    as [Hframe Heff].
  destruct (accountEffect_conserves _ _ Hok Heff) as [Hkeys Hsum].
  split; [split; [|split]|split; [|exact Hsum]].
  - apply (LedgerOK_frame s); assumption.
  - apply (AmountsPositive_frame s); assumption.
  - apply (accountEffect_discipline s); auto. apply Hok.
  - exact (Bounded_totals s _ Hsum Hbd).
Qed.

Lemma executeSingleTransaction_sound txId s :
  Disciplined s -> Bounded s ->
  Disciplined (store (executeSingleTransaction txId s))
  /\ Bounded (store (executeSingleTransaction txId s))
  /\ forall c, totalBalance c (store (executeSingleTransaction txId s))
               = totalBalance c s.
Proof.
  intros Hdis Hbd.
  destruct (executeSingleTransaction_run txId s) as [[_ E]|(_ & _ & E)];
    rewrite E.
  - apply try_sound; assumption.
  - cbn [store]. auto.
Qed.

(** Every step keeps the ledger well formed, disciplined and bounded, and
    the sum of balances of every currency. *)
Lemma step_preserves (s s' : State) :
  Disciplined s -> Bounded s -> step s s' ->
  Disciplined s' /\ Bounded s'
  /\ forall c, totalBalance c s' = totalBalance c s.
Proof.
  intros Hdis Hbd Hstep.
  destruct Hstep as [newId entropy userId from to amount currency descr s t s' H
                    |txId s|txId s|txId message s].
  - eapply submitTransfer_sound; eauto.
  - apply executeSingleTransaction_sound; assumption.
  - apply try_sound; assumption.
  - apply catch_sound; assumption.
Qed.

Lemma steps_preserve (s s' : State) :
  steps s s' -> Disciplined s -> Bounded s ->
  Disciplined s' /\ Bounded s'
  /\ forall c, totalBalance c s' = totalBalance c s.
Proof.
  induction 1 as [s s' Hstep|s|s1 s2 s3 _ IH12 _ IH23]; intros Hdis Hbd.
  - apply step_preserves; assumption.
  - auto.
  - destruct (IH12 Hdis Hbd) as (Hdis2 & Hbd2 & H12).
    destruct (IH23 Hdis2 Hbd2) as (Hdis3 & Hbd3 & H23).
    split; [exact Hdis3|]. split; [exact Hbd3|].
    intros c. rewrite H23. apply H12.
Qed.

Lemma submitTransfer_balances
      newId entropy userId from to amount currency descr s :
  NoDup (map acc_id (accounts s)) ->
  map (fun a => (acc_id a, balance a))
      (accounts (snd (submitTransfer newId entropy userId from to amount
                                     currency descr s)))
  = map (fun a => (acc_id a, balance a)) (accounts s).
Proof.
  intros Hnd.
  destruct (submitTransfer newId entropy userId from to amount currency
                           descr s) as [[e|t] s'] eqn:H; simpl.
  - apply submitTransfer_failure in H. subst s'. reflexivity.
  - apply submitTransfer_success in H.
    destruct H as (sender & recipient & _ & _ & Hs & _ & _ & _ & _ & _ & _
                   & Hs').
    apply find_some in Hs. destruct Hs as [Hsin _]. subst s'. simpl.
    apply (save_existing_map (fun a => (acc_id a, balance a)) _ sender); auto.
Qed.

(** ** Conservation and lock discipline *)

(** The run that debits and credits: what it writes. *)
Lemma executor_success_written txId s t sender recipient :
  findTransaction txId s = Some t ->
  status t = PENDING ->
  findAccountById (fromAccountId t) s = Some sender ->
  findAccountById (toAccountId t) s = Some recipient ->
  amount t <= locked sender ->
  amount t <= balance sender ->
  executeSingleTransaction txId s
  = mkExecution
      (Some (set_status t PROCESSING))
      (saveAccount
         (set_balance recipient (toNumber (balance recipient + amount t)))
         (saveAccount
            (set_locked
               (set_balance sender (toNumber (balance sender - amount t)))
               (toNumber (locked sender - amount t)))
            (saveTransaction (set_status t PROCESSING) s)))
      Committed.
Proof.
  intros Hfind Hst Hs Hr Hl Hb.
  assert (E : executeSingleTransaction_try txId s
              = mkExecution
                  (Some (set_status t PROCESSING))
                  (saveAccount
                     (set_balance recipient
                        (toNumber (balance recipient + amount t)))
                     (saveAccount
                        (set_locked
                           (set_balance sender
                              (toNumber (balance sender - amount t)))
                           (toNumber (locked sender - amount t)))
                        (saveTransaction (set_status t PROCESSING) s)))
                  Committed).
  { unfold executeSingleTransaction_try. rewrite Hfind, Hst.
    cbn [status_eqb negb].
    change (fromAccountId (set_status t PROCESSING)) with (fromAccountId t).
    change (toAccountId (set_status t PROCESSING)) with (toAccountId t).
    change (amount (set_status t PROCESSING)) with (amount t).
    rewrite Hs, Hr.
    apply Z.ltb_ge in Hl, Hb. rewrite Hl, Hb. reflexivity. }
  destruct (executeSingleTransaction_run txId s) as [[_ E']|(E' & _)].
  - rewrite E'. exact E.
  - rewrite E in E'. discriminate E'.
Qed.

(** A call that returns the transaction took the debit and credit path. *)
Lemma executor_returned_pending txId s t sender recipient :
  findTransaction txId s = Some t ->
  status t = PENDING ->
  findAccountById (fromAccountId t) s = Some sender ->
  findAccountById (toAccountId t) s = Some recipient ->
  returned (executeSingleTransaction txId s) <> None ->
  amount t <= locked sender /\ amount t <= balance sender.
Proof.
  intros Hfind Hst Hs Hr.
  destruct (executeSingleTransaction_run txId s) as [[_ E]|(_ & _ & E)];
    rewrite E; [|intros H; contradiction H; reflexivity].
  unfold executeSingleTransaction_try. rewrite Hfind, Hst.
  cbn [status_eqb negb].
  change (fromAccountId (set_status t PROCESSING)) with (fromAccountId t).
  change (toAccountId (set_status t PROCESSING)) with (toAccountId t).
  change (amount (set_status t PROCESSING)) with (amount t).
  rewrite Hs, Hr.
  destruct (locked sender <? amount t) eqn:Hl;
    [intros H; contradiction H; reflexivity|].
  destruct (balance sender <? amount t) eqn:Hb;
    [intros H; contradiction H; reflexivity|].
  intros _. apply Z.ltb_ge in Hl, Hb. auto.
Qed.

(** In a well-formed, disciplined and bounded ledger the amounts written
    are the amounts computed. *)
Lemma executor_success_form txId s t sender recipient :
  Disciplined s -> Bounded s ->
  findTransaction txId s = Some t ->
  status t = PENDING ->
  findAccountById (fromAccountId t) s = Some sender ->
  findAccountById (toAccountId t) s = Some recipient ->
  amount t <= locked sender ->
  amount t <= balance sender ->
  executeSingleTransaction txId s
  = mkExecution
      (Some (set_status t PROCESSING))
      (saveAccount (set_balance recipient (balance recipient + amount t))
         (saveAccount
            (set_locked (set_balance sender (balance sender - amount t))
                        (locked sender - amount t))
            (saveTransaction (set_status t PROCESSING) s)))
      Committed.
Proof.
  intros (Hok & Hpos & Hd) Hbd Hfind Hst Hs Hr Hl Hb.
  rewrite (executor_success_written _ _ _ _ _ Hfind Hst Hs Hr Hl Hb).
  destruct (find_key tx_id _ _ _ Hfind) as [_ Hin].
  pose proof (proj1 (Forall_forall _ _) Hpos t Hin) as Hamt.
  cbv beta in Hamt.
  destruct (try_transfer_exact s t sender recipient Hok Hd Hbd Hin Hs Hr
              Hl Hb Hamt) as (E1 & E2 & E3).
  rewrite E1, E2, E3. reflexivity.
Qed.

Lemma executeSingleTransaction_transfer txId s t sender recipient :
  Disciplined s -> Bounded s ->
  findTransaction txId s = Some t ->
  status t = PENDING ->
  findAccountById (fromAccountId t) s = Some sender ->
  findAccountById (toAccountId t) s = Some recipient ->
  returned (executeSingleTransaction txId s) <> None ->
  findAccountById (fromAccountId t) (store (executeSingleTransaction txId s))
    = Some (set_locked (set_balance sender (balance sender - amount t))
                       (locked sender - amount t))
  /\ findAccountById (toAccountId t) (store (executeSingleTransaction txId s))
    = Some (set_balance recipient (balance recipient + amount t)).
Proof.
  intros Hdis Hbd Hfind Hst Hs Hr Hret.
  destruct (executor_returned_pending _ _ _ _ _ Hfind Hst Hs Hr Hret)
    as [Hl Hb].
  rewrite (executor_success_form _ _ _ _ _ Hdis Hbd Hfind Hst Hs Hr Hl Hb).
  cbn [store].
  destruct (find_key acc_id _ _ _ Hs) as [Hsid _].
  destruct (find_key acc_id _ _ _ Hr) as [Hrid _].
  destruct (find_key tx_id _ _ _ Hfind) as [_ Hin].
  destruct Hdis as ((_ & Htx) & _).
  destruct (proj1 (Forall_forall _ _) Htx t Hin) as [Hne _].
  set (sender' := set_locked _ _). set (recipient' := set_balance recipient _).
  split.
  - rewrite findAccountById_saveAccount_other
      by (change (acc_id recipient') with (acc_id recipient); congruence).
    rewrite <- Hsid. apply (findAccountById_saveAccount sender').
  - rewrite <- Hrid. apply (findAccountById_saveAccount recipient').
Qed.

(** C1 (as the code has it).  From a well-formed ledger with
    [balance >= locked >= 0] on every account, positive stored amounts and
    a sum of balances of at most [MAX_EXACT] in every currency: over any
    run of the transfer pipeline the sum of [balance] over the accounts of
    each currency stays what it was; an execution that returns the
    transaction moves exactly [amount] from the sender's balance to the
    recipient's; and [submitTransfer] leaves every [balance] as it was
    (this last part in any ledger whose account ids are a key). *)
Theorem conservation :
  (forall s s', Disciplined s -> Bounded s -> steps s s' ->
                forall currency,
                  totalBalance currency s' = totalBalance currency s)
  /\ (forall txId s t sender recipient,
         Disciplined s -> Bounded s ->
         findTransaction txId s = Some t ->
         status t = PENDING ->
         findAccountById (fromAccountId t) s = Some sender ->
         findAccountById (toAccountId t) s = Some recipient ->
         returned (executeSingleTransaction txId s) <> None ->
         exists sender' recipient',
           findAccountById (fromAccountId t)
                           (store (executeSingleTransaction txId s))
             = Some sender'
           /\ findAccountById (toAccountId t)
                              (store (executeSingleTransaction txId s))
              = Some recipient'
           /\ balance sender' = balance sender - amount t
           /\ balance recipient' = balance recipient + amount t)
  /\ (forall newId entropy userId from to amount currency descr s,
         NoDup (map acc_id (accounts s)) ->
         map (fun a => (acc_id a, balance a))
             (accounts (snd (submitTransfer newId entropy userId from to
                                            amount currency descr s)))
         = map (fun a => (acc_id a, balance a)) (accounts s)).
Proof.
  split; [|split].
  - intros s s' Hdis Hbd Hsteps.
    apply (steps_preserve s s' Hsteps Hdis Hbd).
  - intros txId s t sender recipient Hdis Hbd Hfind Hst Hs Hr Hret.
    destruct (executeSingleTransaction_transfer _ _ _ _ _ Hdis Hbd Hfind Hst
                                                Hs Hr Hret) as [H1 H2].
    eexists. eexists. split; [exact H1|]. split; [exact H2|].
    split; reflexivity.
  - intros. apply submitTransfer_balances. assumption.
Qed.

(** C1 (as stated) fails: B holds 100000000.00000001 and A sends
    0.00000001.  The execution returns the transaction, A is debited, and
    the balance written for B is the one it had: the sum of balances
    drops by the amount. *)
Lemma conservation_fails_beyond_doubles :
  LedgerOK Scenario.crediting
  /\ LockDisciplined Scenario.crediting
  /\ returned (executeSingleTransaction "tx-0" Scenario.crediting) <> None
  /\ option_map balance
       (findAccountById "id-alice"
          (store (executeSingleTransaction "tx-0" Scenario.crediting)))
     = Some (100000000 - 1)
  /\ option_map balance
       (findAccountById "id-bob"
          (store (executeSingleTransaction "tx-0" Scenario.crediting)))
     = Some 10000000000000001
  /\ totalBalance "NGN"
       (store (executeSingleTransaction "tx-0" Scenario.crediting))
     = totalBalance "NGN" Scenario.crediting - 1.
Proof.
  split; [|split].
  - split.
    + simpl. constructor; [simpl; intros [H|[]]; discriminate H|].
      constructor; [intros []|constructor].
    + constructor; [|constructor]. split; [discriminate|].
      intros c1 c2 [H1|[H1|[]]] [H2|[H2|[]]]; inversion H1; inversion H2;
        subst; try reflexivity; discriminate.
  - repeat constructor; simpl; lia.
  - vm_compute. repeat split; try reflexivity. discriminate.
Qed.



(** C3 (as the code has it).  With a positive amount, distinct addresses
    and a sender row owned by the caller in the transfer's currency, a
    missing recipient row makes [submitTransfer] fail with NotFound when the
    sender's available balance covers the amount, and with BadRequest
    (insufficient funds) when it does not; the state is unchanged in both
    cases. *)
Theorem submitTransfer_missing_recipient
      newId entropy userId from to amount currency descr s sender :
  0 < amount ->
  from <> to ->
  find (fun a => (systemAddress a =? from)%string
                 && (wallet_userId a =? userId)%string) (accounts s)
    = Some sender ->
  acc_currency sender = toUpperCase currency ->
  find (fun a => (systemAddress a =? to)%string) (accounts s) = None ->
  (amount <= balance sender - locked sender ->
   submitTransfer newId entropy userId from to amount currency descr s
     = (inl NotFoundException, s))
  /\ (balance sender - locked sender < amount ->
      submitTransfer newId entropy userId from to amount currency descr s
        = (inl BadRequestException, s)).
Proof.
  intros Hamt Hne Hs Hcur Hr.
  apply Z.leb_gt in Hamt. apply String.eqb_neq in Hne.
  unfold submitTransfer. rewrite Hamt, Hne, Hs, Hcur, String.eqb_refl.
  cbn [negb]. split; intros H.
  - apply Z.ltb_ge in H. rewrite H, Hr. reflexivity.
  - apply Z.ltb_lt in H. rewrite H. reflexivity.
Qed.

(** C3 (as stated) fails: with 10 available, a transfer of 50 to an
    address no account has is refused with BadRequest, not NotFound. *)
Lemma submitTransfer_missing_recipient_insufficient :
  0 < 5000000000
  /\ "acc_alice" <> "acc_nobody"
  /\ option_map acc_currency
       (find (fun a => (systemAddress a =? "acc_alice")%string
                       && (wallet_userId a =? "u-alice")%string)
             (accounts Scenario.poor))
     = Some (toUpperCase "NGN")
  /\ find (fun a => (systemAddress a =? "acc_nobody")%string)
          (accounts Scenario.poor) = None
  /\ submitTransfer "tx-1" "00" "u-alice" "acc_alice" "acc_nobody"
                    5000000000 "NGN" None Scenario.poor
     = (inl BadRequestException, Scenario.poor)
  /\ submitTransfer "tx-1" "00" "u-alice" "acc_alice" "acc_nobody"
                    5000000000 "NGN" None Scenario.poor
     <> (inl NotFoundException, Scenario.poor).
Proof.
  repeat split; try reflexivity; try lia; discriminate.
Qed.

(** ** The properties on the scenarios of the specification *)

Lemma Scenario_intake :
  Scenario.intake = (inr Scenario.transfer, Scenario.afterIntake).
Proof. vm_compute. reflexivity. Defined.

Lemma Scenario_initial_ok : LedgerOK Scenario.initial.
Proof.
  split; simpl.
  - constructor; [simpl; intros [H|[]]; discriminate H|].
    constructor; [intros []|constructor].
  - constructor.
Defined.

Lemma Scenario_initial_disciplined : Disciplined Scenario.initial.
Proof.
  split; [exact Scenario_initial_ok|]. split.
  - constructor.
  - repeat constructor; simpl; lia.
Defined.

Lemma Scenario_initial_bounded : Bounded Scenario.initial.
Proof.
  intros c. unfold totalBalance.
  change (accounts Scenario.initial) with [Scenario.alice; Scenario.bob].
  cbn [sumBalance].
  change (balance Scenario.alice) with 100000000000.
  change (balance Scenario.bob) with 0.
  destruct (acc_currency Scenario.alice =? c)%string;
    destruct (acc_currency Scenario.bob =? c)%string; unfold MAX_EXACT; lia.
Defined.

Lemma Scenario_afterIntake_sound :
  Disciplined Scenario.afterIntake /\ Bounded Scenario.afterIntake.
Proof.
  destruct (submitTransfer_sound _ _ _ _ _ _ _ _ _ _ _
              Scenario_initial_disciplined Scenario_initial_bounded
              Scenario_intake) as (H1 & H2 & _).
  exact (conj H1 H2).
Defined.

Lemma Scenario_afterIntake_keys :
  NoDup (map acc_id (accounts Scenario.afterIntake)).
Proof.
  vm_compute.
  constructor; [simpl; intros [H|[]]; discriminate H|].
  constructor; [intros []|constructor].
Defined.

Lemma Scenario_run : steps Scenario.initial Scenario.afterExecution.
Proof.
  apply rt_trans with (y := Scenario.afterIntake); apply rt_step.
  - exact (step_submit _ _ _ _ _ _ _ _ _ _ _ Scenario_intake).
  - exact (step_execute "tx-1" Scenario.afterIntake).
Defined.

Lemma conservation_witness :
  totalBalance "NGN" Scenario.afterExecution
  = totalBalance "NGN" Scenario.initial
  /\ (exists sender' recipient',
         findAccountById "id-alice" Scenario.afterExecution = Some sender'
         /\ findAccountById "id-bob" Scenario.afterExecution
            = Some recipient'
         /\ balance sender' = 100000000000 - 15075000000
         /\ balance recipient' = 0 + 15075000000)
  /\ map (fun a => (acc_id a, balance a)) (accounts Scenario.afterIntake)
     = map (fun a => (acc_id a, balance a)) (accounts Scenario.initial).
Proof.
  destruct conservation as (Hrun & Hexec & Hsubmit).
  destruct Scenario_afterIntake_sound as [Hdis Hbd].
  split; [|split].
  - exact (Hrun Scenario.initial Scenario.afterExecution
                Scenario_initial_disciplined Scenario_initial_bounded
                Scenario_run "NGN"%string).
  - apply (Hexec "tx-1"%string Scenario.afterIntake Scenario.transfer
                 (mkAccount "id-alice" "acc_alice" 100000000000 15075000000 1
                            "NGN" "w-alice" "u-alice")
                 Scenario.bob Hdis Hbd);
      try (vm_compute; reflexivity).
    vm_compute. discriminate.
  - exact (Hsubmit "tx-1"%string "000102030405060708090a0b0c0d0e0f"%string
                   "u-alice"%string "acc_alice"%string "acc_bob"%string
                   15075000000 "ngn"%string None Scenario.initial
                   (proj1 Scenario_initial_ok)).
Defined.


Lemma submitTransfer_missing_recipient_witness :
  submitTransfer "tx-1" "00" "u-alice" "acc_alice" "acc_nobody"
                 500000000 "NGN" None Scenario.poor
    = (inl NotFoundException, Scenario.poor)
  /\ submitTransfer "tx-1" "00" "u-alice" "acc_alice" "acc_nobody"
                    5000000000 "NGN" None Scenario.poor
     = (inl BadRequestException, Scenario.poor).
Proof.
  split.
  - apply (submitTransfer_missing_recipient "tx-1" "00" "u-alice" "acc_alice"
             "acc_nobody" 500000000 "NGN" None Scenario.poor
             (mkAccount "id-alice" "acc_alice" 1000000000 0 0 "NGN"
                        "w-alice" "u-alice"));
      try reflexivity; try discriminate; simpl; lia.
  - apply (submitTransfer_missing_recipient "tx-1" "00" "u-alice" "acc_alice"
             "acc_nobody" 5000000000 "NGN" None Scenario.poor
             (mkAccount "id-alice" "acc_alice" 1000000000 0 0 "NGN"
                        "w-alice" "u-alice"));
      try reflexivity; try discriminate; simpl; lia.
Defined.

Lemma Scenario_initial_range :
  forall sender,
    find (fun a => (systemAddress a =? "acc_alice")%string
                   && (wallet_userId a =? "u-alice")%string)
         (accounts Scenario.initial) = Some sender ->
    0 <= locked sender /\ balance sender <= MAX_EXACT.
Proof.
  intros sender H. vm_compute in H. inversion H; subst sender.
  unfold MAX_EXACT; simpl; lia.
Defined.

Lemma submitTransfer_post_state_witness :
  exists sender sender',
    find (fun a => (systemAddress a =? "acc_alice")%string
                   && (wallet_userId a =? "u-alice")%string)
         (accounts Scenario.initial) = Some sender
    /\ findAccountById (acc_id sender) Scenario.afterIntake = Some sender'
    /\ locked sender' = locked sender + 15075000000
    /\ nonce sender' = nonce sender + 1
    /\ balance sender' = balance sender
    /\ transactions Scenario.afterIntake
       = transactions Scenario.initial ++ [Scenario.transfer]
    /\ status Scenario.transfer = PENDING
    /\ amount Scenario.transfer = 15075000000
    /\ accountNonce Scenario.transfer = nonce sender
    /\ systemHash Scenario.transfer
       = ("txn_" ++ "000102030405060708090a0b0c0d0e0f")%string
    /\ forall o, In o (transactions Scenario.initial) ->
                 systemHash o <> systemHash Scenario.transfer.
Proof.
  exact (submitTransfer_post_state _ _ _ _ _ _ _ _ _ _ _
           Scenario_initial_range Scenario_intake).
Defined.

Lemma executor_idempotent_witness :
  (store (executeSingleTransaction "tx-1" Scenario.afterExecution)
   = Scenario.afterExecution)
  /\ repeatExecute 3 "tx-1" Scenario.afterExecution = Scenario.afterExecution
  /\ executeSingleTransaction "tx-1"
       (repeatExecute 3 "tx-1" Scenario.afterExecution)
     = mkExecution (Some (set_status Scenario.transfer PROCESSING))
                   Scenario.afterExecution Committed.
Proof.
  destruct executor_idempotent as [Hskip Hrepeat].
  split.
  - apply (Hskip "tx-1" Scenario.afterExecution
                 (set_status Scenario.transfer PROCESSING));
      [vm_compute; reflexivity | discriminate].
  - apply (Hrepeat "tx-1" Scenario.afterIntake
                   (set_status Scenario.transfer PROCESSING)).
    vm_compute. reflexivity.
Defined.





Lemma Scenario_sealing0 :
  exists b, Scenario.sealing0 = inr (b, Scenario.chain0).
Proof. eexists. vm_compute. reflexivity. Defined.

Lemma Scenario_sealing1 :
  exists b, Scenario.sealing1 = inr (b, Scenario.chain1)
            /\ In b (blocks Scenario.chain1) /\ height b = 1.
Proof. eexists. vm_compute. split; [reflexivity|]. auto. Defined.

Lemma Scenario_chain0_blocks : blocks Scenario.chain0 <> [].
Proof. vm_compute. discriminate. Defined.

Lemma chain_linkage_witness :
  (exists b0, Scenario.sealing0 = inr (b0, Scenario.chain0)
              /\ height b0 = 0 /\ previousBlockHash b0 = None)
  /\ (exists b1 latest,
         Scenario.sealing1 = inr (b1, Scenario.chain1)
         /\ In latest (blocks Scenario.chain0)
         /\ (forall o, In o (blocks Scenario.chain0) ->
                       height o <= height latest)
         /\ height b1 = height latest + 1
         /\ previousBlockHash b1 = Some (blockHash latest))
  /\ (exists B P,
         In B (blocks Scenario.chain1) /\ height B = 1
         /\ getBlockByHeight (height B - 1) Scenario.chain1 = Some P
         /\ previousBlockHash B = Some (blockHash P)).
Proof.
  destruct Scenario_sealing0 as [b0 H0].
  destruct Scenario_sealing1 as [b1 (H1 & Hin & Hh)].
  destruct chain_linkage as [Hcreate Hchain].
  split; [|split].
  - exists b0. split; [exact H0|].
    exact (proj1 (Hcreate _ _ _ _ _ _ H0) eq_refl).
  - destruct (proj2 (Hcreate _ _ _ _ _ _ H1) Scenario_chain0_blocks)
      as (latest & L1 & L2 & L3 & L4).
    exists b1, latest. exact (conj H1 (conj L1 (conj L2 (conj L3 L4)))).
  - assert (Hsealed : Sealed Scenario.chain1)
      by exact (Sealed_create _ _ _ _ _ _ (Sealed_create _ _ _ _ _ _
                  (Sealed_genesis Scenario.afterExecution eq_refl) H0) H1).
    assert (Hpos : 0 < height b1) by (rewrite Hh; reflexivity).
    destruct (Hchain Scenario.chain1 Hsealed b1 Hin Hpos)
      as (P & Hfind & Hprev).
    exists b1, P. exact (conj Hin (conj Hh (conj Hfind Hprev))).
Defined.

(* ===================================================================== *)
(** * Further properties of the code *)
(* ===================================================================== *)

(** ** The mempool queue *)

Lemma rpop_snoc (q : list string) (x : string) :
  rpop (q ++ [x]) = (Some x, q).
Proof.
  unfold rpop. destruct (q ++ [x]) eqn:E.
  - destruct q; discriminate.
  - rewrite <- E, last_last, removelast_last. reflexivity.
Qed.

Lemma drain_spec (n : nat) (q items : list string) :
  Forall (fun id => id <> EmptyString) q ->
  exists taken rest,
    drain n q items = (items ++ taken, rest)
    /\ q = rest ++ rev taken
    /\ List.length taken = Nat.min n (List.length q).
Proof.
  revert q items. induction n as [|n IH]; intros q items Hq.
  - exists [], q. simpl. rewrite !app_nil_r. auto.
  - destruct (rev q) as [|x rq] eqn:Hrev.
    + assert (q = []) by (apply (f_equal (@rev string)) in Hrev;
                          rewrite rev_involutive in Hrev; exact Hrev).
      subst q. exists [], []. simpl. rewrite app_nil_r. auto.
    + assert (Hq' : q = rev rq ++ [x])
        by (apply (f_equal (@rev string)) in Hrev;
            rewrite rev_involutive in Hrev; exact Hrev).
      subst q. simpl drain. rewrite rpop_snoc.
      apply Forall_app in Hq. destruct Hq as [Hrest Hx].
      inversion Hx as [|? ? Hne _]; subst.
      apply String.eqb_neq in Hne. rewrite Hne.
      destruct (IH (rev rq) (items ++ [x]) Hrest)
        as (taken & rest & Hd & Hsplit & Hlen).
      exists (x :: taken), rest. split; [|split].
      * rewrite Hd, <- app_assoc. reflexivity.
      * cbn [rev]. rewrite app_assoc, <- Hsplit. reflexivity.
      * rewrite length_app. cbn [List.length]. lia.
Qed.

Lemma getFromMempool_frame (count : Z) (s : State) :
  exists rest, snd (getFromMempool count s) = with_mempool s rest.
Proof.
  unfold getFromMempool. destruct (count <=? 0).
  - exists (mempool s). destruct s; reflexivity.
  - destruct (drain _ _ _) as [items rest]. exists rest. reflexivity.
Qed.

Lemma getFromMempool_split (count : Z) (s : State) :
  Forall (fun id => id <> EmptyString) (mempool s) ->
  mempool s
    = mempool (snd (getFromMempool count s))
      ++ rev (fst (getFromMempool count s))
  /\ List.length (fst (getFromMempool count s))
     = Nat.min (Z.to_nat count) (List.length (mempool s)).
Proof.
  intros Hq. unfold getFromMempool.
  destruct (count <=? 0) eqn:Hc.
  - apply Z.leb_le in Hc. simpl. rewrite app_nil_r.
    replace (Z.to_nat count) with 0%nat by lia. auto.
  - destruct (drain_spec (Z.to_nat count) (mempool s) [] Hq)
      as (taken & rest & Hd & Hsplit & Hlen).
    rewrite Hd. simpl. auto.
Qed.

(** X1.  [getFromMempool(count)] on a queue of non-empty ids takes
    [min(count, length)] ids off the tail, hands them back oldest first,
    and leaves the rest of the queue and the store as they were: nothing is
    lost and nothing is duplicated. *)
Theorem getFromMempool_takes_tail (count : Z) (s : State) :
  Forall (fun id => id <> EmptyString) (mempool s) ->
  mempool s
    = mempool (snd (getFromMempool count s))
      ++ rev (fst (getFromMempool count s))
  /\ List.length (fst (getFromMempool count s))
     = Nat.min (Z.to_nat count) (List.length (mempool s))
  /\ with_mempool (snd (getFromMempool count s)) (mempool s) = s.
Proof.
  intros Hq. destruct (getFromMempool_split count s Hq) as [Hsplit Hlen].
  split; [exact Hsplit|]. split; [exact Hlen|].
  destruct (getFromMempool_frame count s) as [rest Hr].
  rewrite Hr. destruct s; reflexivity.
Qed.

Lemma addToMempool_all (ids : list string) (s : State) :
  fold_left (fun st id => addToMempool id st) ids s
  = with_mempool s (rev ids ++ mempool s).
Proof.
  revert s. induction ids as [|id ids IH]; intros s; simpl.
  - destruct s; reflexivity.
  - rewrite IH. unfold addToMempool, with_mempool, lpush. simpl.
    rewrite <- app_assoc. reflexivity.
Qed.

(** X2.  First in, first out: ids added with [addToMempool] to an empty
    queue come back from [getFromMempool(count)] in the order they were
    added, the first [count] of them, and the later ones stay queued. *)
Theorem mempool_fifo (ids : list string) (count : Z) (s : State) :
  Forall (fun id => id <> EmptyString) ids ->
  mempool s = [] ->
  let queued := fold_left (fun st id => addToMempool id st) ids s in
  fst (getFromMempool count queued) = firstn (Z.to_nat count) ids
  /\ mempool (snd (getFromMempool count queued))
     = rev (skipn (Z.to_nat count) ids).
Proof.
  intros Hids Hempty queued.
  assert (Hq : mempool queued = rev ids).
  { unfold queued. rewrite addToMempool_all, Hempty, app_nil_r. reflexivity. }
  assert (Hne : Forall (fun id => id <> EmptyString) (mempool queued)).
  { rewrite Hq. apply Forall_rev. exact Hids. }
  destruct (getFromMempool_split count queued Hne) as (Hsplit & Hlen).
  set (items := fst (getFromMempool count queued)) in *.
  set (rest := mempool (snd (getFromMempool count queued))) in *.
  rewrite Hq in Hsplit, Hlen. rewrite length_rev in Hlen.
  assert (Hids' : ids = items ++ rev rest).
  { apply (f_equal (@rev string)) in Hsplit.
    rewrite rev_involutive, rev_app_distr, rev_involutive in Hsplit.
    exact Hsplit. }
  assert (Hn : List.length items = Nat.min (Z.to_nat count) (List.length ids))
    by exact Hlen.
  clear Hsplit Hlen.
  assert (Hfirst : firstn (Z.to_nat count) ids = items).
  { rewrite Hids' at 1. rewrite Hids', length_app in Hn.
    rewrite firstn_app.
    destruct (Nat.le_ge_cases (Z.to_nat count) (List.length items)) as [Hle|Hge].
    - replace (Z.to_nat count - List.length items)%nat with 0%nat by lia.
      simpl. rewrite app_nil_r.
      replace (Z.to_nat count) with (List.length items) by lia.
      apply firstn_all.
    - rewrite (firstn_all2 items) by exact Hge.
      assert (List.length (rev rest) = 0%nat \/
              Z.to_nat count = List.length items) as [H0|Heq] by lia.
      + destruct (rev rest); [|discriminate]. rewrite firstn_nil.
        apply app_nil_r.
      + rewrite Heq, Nat.sub_diag. apply app_nil_r. }
  split; [symmetry; exact Hfirst|].
  rewrite <- (rev_involutive rest). f_equal.
  apply (app_inv_head items).
  rewrite <- Hids', <- Hfirst. symmetry. apply firstn_skipn.
Qed.

(** ** Digests *)

Lemma string_length_append (a b : string) :
  String.length (a ++ b)%string = (String.length a + String.length b)%nat.
Proof. induction a as [|c a IH]; simpl; congruence. Qed.

Lemma allChars_append (p : ascii -> bool) (a b : string) :
  allChars p (a ++ b)%string = allChars p a && allChars p b.
Proof.
  induction a as [|c a IH]; simpl; [reflexivity|].
  rewrite IH. apply andb_assoc.
Qed.

Lemma hex_digit_lower (x : Z) :
  0 <= x < 16 -> lowerHexChar (SHA256.hex_digit x) = true.
Proof.
  intros Hx.
  assert (Hcases : exists k, (k < 16)%nat /\ x = Z.of_nat k)
    by (exists (Z.to_nat x); lia).
  destruct Hcases as (k & Hk & ->).
  do 16 (destruct k as [|k]; [reflexivity|]). lia.
Qed.

Lemma hex_of_format (n : nat) (x : Z) :
  String.length (SHA256.hex_of n x) = n
  /\ allChars lowerHexChar (SHA256.hex_of n x) = true.
Proof.
  induction n as [|n [IHl IHc]]; simpl; [auto|].
  rewrite IHl, IHc, hex_digit_lower; [auto|].
  apply Z.mod_pos_bound. lia.
Qed.

Lemma concat_hex_format (ws : list Z) :
  String.length (String.concat EmptyString (map (SHA256.hex_of 8) ws))
  = (8 * List.length ws)%nat
  /\ allChars lowerHexChar
       (String.concat EmptyString (map (SHA256.hex_of 8) ws)) = true.
Proof.
  induction ws as [|w ws [IHl IHc]]; [auto|].
  destruct (hex_of_format 8 w) as [Hl Hc].
  destruct ws as [|w' ws].
  - change (String.concat EmptyString (map (SHA256.hex_of 8) [w]))
      with (SHA256.hex_of 8 w).
    rewrite Hl, Hc. auto.
  - change (String.concat EmptyString
              (map (SHA256.hex_of 8) (w :: w' :: ws)))
      with (SHA256.hex_of 8 w
            ++ String.concat EmptyString
                 (map (SHA256.hex_of 8) (w' :: ws)))%string.
    rewrite string_length_append, allChars_append, Hl, Hc, IHl, IHc.
    simpl List.length. split; [lia | reflexivity].
Qed.

Lemma compress_length (h block : list Z) :
  List.length (SHA256.compress h block) = 8%nat.
Proof. reflexivity. Qed.

Lemma digest_words_length (msg : list Z) :
  List.length (SHA256.digest_words msg) = 8%nat.
Proof.
  unfold SHA256.digest_words.
  generalize (SHA256.blocks (List.length (SHA256.pad msg))
                (SHA256.words (List.length (SHA256.pad msg))
                              (SHA256.pad msg))).
  intros bl.
  assert (H : List.length SHA256.H0 = 8%nat) by reflexivity.
  revert H. generalize SHA256.H0.
  induction bl as [|b bl IH]; intros h Hh; simpl; [exact Hh|].
  apply IH, compress_length.
Qed.

Lemma sha256_isHash64 (data : string) : isHash64 (sha256 data).
Proof.
  unfold isHash64, sha256, SHA256.hex.
  destruct (concat_hex_format
              (SHA256.digest_words (SHA256.bytes_of_string data))) as [Hl Hc].
  rewrite Hl, Hc, digest_words_length. auto.
Qed.

Lemma nextLevel_hashes (l : list string) :
  Forall isHash64 (nextLevel l).
Proof.
  induction l as [|x|x y r IH] using pairs_ind; simpl;
    repeat constructor; try apply sha256_isHash64; assumption.
Qed.

Lemma merkleLoop_root (n : nat) (l : list string) :
  (List.length l <= n)%nat -> Forall isHash64 l -> l <> [] ->
  exists root, merkleLoop l = [root] /\ isHash64 root.
Proof.
  revert l. induction n as [|n IH]; intros [|x [|y r]] Hlen Hall Hne;
    simpl in Hlen; try lia; try congruence.
  - exists x. simp merkleLoop. inversion Hall. auto.
  - destruct (IH (nextLevel (x :: y :: r))) as (root & Hroot & Hfmt).
    + pose proof (nextLevel_length r). simpl. lia.
    + apply nextLevel_hashes.
    + discriminate.
    + exists root. simp merkleLoop. auto.
Qed.

Lemma calculateMerkleRoot_format (hashes : list string) :
  isHash64 (fst (calculateMerkleRoot hashes)).
Proof.
  destruct hashes as [|x [|y r]]; try apply sha256_isHash64.
  unfold calculateMerkleRoot. cbn [fst].
  pose proof (js_sort_length (x :: y :: r)) as Hlen.
  destruct (js_sort (x :: y :: r)) as [|a [|b l]]; simpl in Hlen; try lia.
  destruct (merkleLoop_root (List.length (nextLevel (a :: b :: l)))
                            (nextLevel (a :: b :: l)))
    as (root & Hroot & Hfmt);
    [lia | apply nextLevel_hashes | discriminate |].
  rewrite merkleLoop_equation_3, Hroot. exact Hfmt.
Qed.

(** ** The block table *)

Lemma createBlock_fresh newId now txs s b s' :
  createBlockWithTypeORM newId now txs s = inr (b, s') ->
  Forall (fun o => block_id o <> block_id b
                   /\ height o <> height b
                   /\ blockHash o <> blockHash b) (blocks s).
Proof.
  unfold createBlockWithTypeORM. destruct txs as [|t txs]; [discriminate|].
  destruct (calculateBlockHash _ _ _ _) as [bh hs].
  destruct (calculateMerkleRoot hs) as [mr hs'].
  unfold insertBlock.
  match goal with |- context [existsb ?f ?l] =>
    destruct (existsb f l) eqn:Hex end; [discriminate|].
  intros H. inversion H; subst; clear H.
  apply Forall_forall. intros o Ho. simpl in *.
  match type of Hex with existsb ?f _ = false =>
    assert (Hfo : f o = false) end.
  { match goal with |- ?c = false => destruct c eqn:E end; [|reflexivity].
    rewrite <- Hex. symmetry. apply existsb_exists. eauto. }
  apply orb_false_iff in Hfo. destruct Hfo as [Hfo Hh].
  apply orb_false_iff in Hfo. destruct Hfo as [Hi Hz].
  apply String.eqb_neq in Hi, Hh. apply Z.eqb_neq in Hz. auto.
Qed.

Lemma createBlock_fields newId now txs s b s' :
  createBlockWithTypeORM newId now txs s = inr (b, s') ->
  block_id b = newId
  /\ timestamp b = now
  /\ blockHash b
     = fst (calculateBlockHash (bigint_toString (height b)) now
                               (previousBlockHash b) (map snd txs))
  /\ merkleRoot b
     = Some (fst (calculateMerkleRoot (js_sort (map snd txs))))
  /\ accounts s' = accounts s
  /\ transactions s' = transactions s
  /\ mempool s' = mempool s
  /\ deadLetter s' = deadLetter s.
Proof.
  unfold createBlockWithTypeORM. destruct txs as [|t txs]; [discriminate|].
  unfold calculateBlockHash. cbv beta iota zeta.
  match goal with |- context [calculateMerkleRoot ?x] =>
    destruct (calculateMerkleRoot x) as [mr hs'] eqn:Hmr end.
  assert (Hroot : mr = fst (calculateMerkleRoot
                              (js_sort (map snd (t :: txs)))))
    by (rewrite Hmr; reflexivity).
  clear Hmr. unfold insertBlock. destruct (existsb _ _); [discriminate|].
  intros H. inversion H; subst; clear H.
  repeat split; reflexivity.
Qed.

Lemma highest_app_new (bs : list Block) (b : Block) :
  (forall o, In o bs -> height o < height b) ->
  highest (bs ++ [b]) = Some b.
Proof.
  induction bs as [|a bs IH]; intros Hlt; simpl; [reflexivity|].
  rewrite IH by (intros o Ho; apply Hlt; simpl; auto).
  assert (height a < height b) by (apply Hlt; simpl; auto).
  destruct (height b <? height a) eqn:E; [|reflexivity].
  apply Z.ltb_lt in E. lia.
Qed.

Lemma find_app_new {A} (f : A -> bool) (l : list A) (x : A) :
  (forall o, In o l -> f o = false) -> f x = true ->
  find f (l ++ [x]) = Some x.
Proof.
  intros Hl Hx. induction l as [|a l IH]; simpl.
  - rewrite Hx. reflexivity.
  - rewrite (Hl a) by (simpl; auto). apply IH.
    intros o Ho. apply Hl. simpl. auto.
Qed.

Lemma createBlock_above newId now txs s b s' :
  createBlockWithTypeORM newId now txs s = inr (b, s') ->
  forall o, In o (blocks s) -> height o < height b.
Proof.
  intros H o Ho. apply createBlock_inv in H. destruct H as (_ & Hh & _).
  unfold getLatestBlock in Hh.
  destruct (highest (blocks s)) as [latest|] eqn:Hl.
  - pose proof (highest_max _ _ Hl o Ho). lia.
  - apply highest_None in Hl. rewrite Hl in Ho. contradiction.
Qed.

(** X3.  A block that [createBlockWithTypeORM] has saved is the block
    found under its hash, under its height and as the latest block, and
    every block stored before is still found under its own hash and
    height. *)
Theorem created_block_is_found newId now txs s b s' :
  createBlockWithTypeORM newId now txs s = inr (b, s') ->
  getBlockByHash (blockHash b) s' = Some b
  /\ getBlockByHeight (height b) s' = Some b
  /\ getLatestBlock s' = Some b
  /\ (forall o, In o (blocks s) ->
        getBlockByHash (blockHash o) s' = getBlockByHash (blockHash o) s
        /\ getBlockByHeight (height o) s' = getBlockByHeight (height o) s).
Proof.
  intros H.
  pose proof (createBlock_fresh _ _ _ _ _ _ H) as Hfresh.
  pose proof (createBlock_above _ _ _ _ _ _ H) as Habove.
  destruct (createBlock_inv _ _ _ _ _ _ H) as (Hbs & _ & _).
  rewrite Forall_forall in Hfresh.
  unfold getBlockByHash, getBlockByHeight, getLatestBlock. rewrite Hbs.
  split; [|split; [|split]].
  - apply find_app_new; [|apply String.eqb_refl].
    intros o Ho. apply String.eqb_neq. apply (Hfresh o Ho).
  - apply find_app_new; [|apply Z.eqb_refl].
    intros o Ho. apply Z.eqb_neq. apply (Hfresh o Ho).
  - apply highest_app_new. exact Habove.
  - intros o Ho. split.
    + destruct (find (fun x => (blockHash x =? blockHash o)%string)
                     (blocks s)) as [p|] eqn:E.
      * apply find_app_first. exact E.
      * apply (find_none _ _ E) in Ho. rewrite String.eqb_refl in Ho.
        discriminate.
    + destruct (find (fun x => height x =? height o) (blocks s))
        as [p|] eqn:E.
      * apply find_app_first. exact E.
      * apply (find_none _ _ E) in Ho. rewrite Z.eqb_refl in Ho.
        discriminate.
Qed.

Lemma NoDup_snoc {A} (l : list A) (x : A) :
  NoDup l -> ~ In x l -> NoDup (l ++ [x]).
Proof.
  intros Hnd Hx. apply Permutation_NoDup with (l := x :: l).
  - apply Permutation_cons_append.
  - constructor; assumption.
Qed.

(** X4.  In a chain grown by [createBlockWithTypeORM] from an empty block
    table the heights are exactly 0, 1, 2, ... in the order of creation,
    without gap or repetition. *)
Theorem sealed_heights_gapless (s : State) :
  Sealed s ->
  map height (blocks s) = map Z.of_nat (seq 0 (List.length (blocks s))).
Proof.
  induction 1 as [s Hnil|newId now txs s b s' Hs IH Hcreate|s s' Hs IH Heq].
  - rewrite Hnil. reflexivity.
  - destruct (createBlock_inv _ _ _ _ _ _ Hcreate) as (Hbs & Hh & _).
    rewrite Hbs, map_app, length_app, Nat.add_comm. simpl List.length.
    rewrite seq_S, map_app, <- IH. simpl. f_equal. f_equal.
    unfold getLatestBlock in Hh.
    destruct (highest (blocks s)) as [latest|] eqn:Hl.
    + pose proof (highest_In _ _ Hl) as Hin.
      pose proof (highest_max _ _ Hl) as Hmax.
      assert (Hlat : In (height latest) (map height (blocks s)))
        by (apply in_map; exact Hin).
      rewrite IH in Hlat. apply in_map_iff in Hlat.
      destruct Hlat as (k & Hk & Hkin). apply in_seq in Hkin.
      assert (Hlast : In (Z.of_nat (List.length (blocks s) - 1))
                         (map height (blocks s))).
      { rewrite IH. apply in_map, in_seq. lia. }
      apply in_map_iff in Hlast. destruct Hlast as (o & Ho & Hoin).
      specialize (Hmax o Hoin). lia.
    + apply highest_None in Hl. rewrite Hl. exact Hh.
  - rewrite Heq. exact IH.
Qed.

(** X6.  Every block [createBlockWithTypeORM] saves carries a [blockHash]
    and a [merkleRoot] of 64 lower-case hexadecimal characters, whatever
    the system hashes of the batch are. *)
Theorem created_block_hash_format newId now txs s b s' :
  createBlockWithTypeORM newId now txs s = inr (b, s') ->
  isHash64 (blockHash b)
  /\ exists root, merkleRoot b = Some root /\ isHash64 root.
Proof.
  intros H. destruct (createBlock_fields _ _ _ _ _ _ H)
    as (_ & _ & Hh & Hm & _).
  split.
  - rewrite Hh. apply sha256_isHash64.
  - eexists. split; [exact Hm|]. apply calculateMerkleRoot_format.
Qed.

(** ** Transaction rows through the executor *)

Lemma advances_trans (a b c : TransactionStatusTypeORM) :
  advances a b -> advances b c -> advances a c.
Proof.
  unfold advances. intros Hab Hbc.
  destruct a, b, c; intuition congruence.
Qed.

Lemma rowEvolves_refl (t : Transaction) : rowEvolves t t.
Proof. unfold rowEvolves, advances. auto. Qed.

Lemma rowEvolves_trans (t1 t2 t3 : Transaction) :
  rowEvolves t1 t2 -> rowEvolves t2 t3 -> rowEvolves t1 t3.
Proof.
  intros (Hi12 & Ha12 & Hf12) (Hi23 & Ha23 & Hf23).
  split; [congruence|]. split; [eapply advances_trans; eauto|].
  intros Hp Hq. specialize (Hf12 Hp Hq). subst t2. auto.
Qed.

Lemma rowsEvolve_refl (s : State) : rowsEvolve s s.
Proof. intros id t H. exists t. split; [exact H | apply rowEvolves_refl]. Qed.

Lemma rowsEvolve_trans (s1 s2 s3 : State) :
  rowsEvolve s1 s2 -> rowsEvolve s2 s3 -> rowsEvolve s1 s3.
Proof.
  intros H12 H23 id t Ht.
  destruct (H12 id t Ht) as (t2 & Ht2 & He2).
  destruct (H23 id t2 Ht2) as (t3 & Ht3 & He3).
  exists t3. split; [exact Ht3 | eapply rowEvolves_trans; eauto].
Qed.

Lemma rowsEvolve_same (s s' : State) :
  transactions s' = transactions s -> rowsEvolve s s'.
Proof.
  intros H id t Ht. exists t. unfold findTransaction in *. rewrite H.
  split; [exact Ht | apply rowEvolves_refl].
Qed.

Lemma findTransaction_save_other (id : string) (t : Transaction) (s : State) :
  tx_id t <> id ->
  findTransaction id (saveTransaction t s) = findTransaction id s.
Proof. apply (find_save_other tx_id). Qed.

(** What a lookup by id sees after the [try] block has run on [txId]:
    the same as before, or the row of [txId], which was PENDING, now
    PROCESSING or FAILED, and every other id as before. *)
Lemma try_lookup (txId : string) (s : State) :
  (forall id, findTransaction id (store (executeSingleTransaction_try txId s))
              = findTransaction id s)
  \/ (exists t0 t',
         findTransaction txId s = Some t0
         /\ status t0 = PENDING
         /\ identityOf t' = identityOf t0
         /\ (status t' = PROCESSING \/ status t' = FAILED)
         /\ findTransaction txId (store (executeSingleTransaction_try txId s))
            = Some t'
         /\ forall id, id <> txId ->
              findTransaction id (store (executeSingleTransaction_try txId s))
              = findTransaction id s).
Proof.
  unfold executeSingleTransaction_try.
  destruct (findTransaction txId s) as [t0|] eqn:Hfind; [|left; reflexivity].
  destruct (find_key tx_id _ _ _ Hfind) as [Hid _].
  destruct (status_eqb (status t0) PENDING) eqn:Hp; cbn [negb];
    [|left; reflexivity].
  apply status_eqb_eq in Hp. right.
  set (t1 := set_status t0 PROCESSING).
  assert (Hfail : forall reason (sx : State),
             (forall id, findTransaction id sx
                         = findTransaction id
                             (failTransaction t1 reason (saveTransaction t1 s))) ->
             exists t',
               identityOf t' = identityOf t0
               /\ (status t' = PROCESSING \/ status t' = FAILED)
               /\ findTransaction txId sx = Some t'
               /\ forall id, id <> txId ->
                    findTransaction id sx = findTransaction id s).
  { intros reason sx Hsx.
    exists (set_description (set_status t1 FAILED)
              (failureDescription (set_status t1 FAILED) reason)).
    split; [reflexivity|]. split; [right; reflexivity|]. split.
    - rewrite Hsx, <- Hid. unfold failTransaction.
      apply (findTransaction_saveTransaction
               (set_description (set_status t1 FAILED)
                  (failureDescription (set_status t1 FAILED) reason))).
    - intros id Hne. rewrite Hsx. unfold failTransaction.
      rewrite !findTransaction_save_other by (simpl; congruence).
      reflexivity. }
  assert (Hok : forall sx : State,
             (forall id, findTransaction id sx
                         = findTransaction id (saveTransaction t1 s)) ->
             exists t',
               identityOf t' = identityOf t0
               /\ (status t' = PROCESSING \/ status t' = FAILED)
               /\ findTransaction txId sx = Some t'
               /\ forall id, id <> txId ->
                    findTransaction id sx = findTransaction id s).
  { intros sx Hsx. exists t1.
    split; [reflexivity|]. split; [left; reflexivity|]. split.
    - rewrite Hsx, <- Hid. apply (findTransaction_saveTransaction t1).
    - intros id Hne. rewrite Hsx.
      rewrite findTransaction_save_other by (simpl; congruence).
      reflexivity. }
  exists t0.
  destruct (findAccountById (fromAccountId t1) s) as [sender|];
    [|destruct (Hfail "Sender or recipient account data missing."
                 (failTransaction t1
                    "Sender or recipient account data missing."
                    (saveTransaction t1 s)) (fun _ => eq_refl))
        as (t' & H1 & H2 & H3 & H4); exists t'; repeat (split; [eassumption || reflexivity|]); assumption].
  destruct (findAccountById (toAccountId t1) s) as [recipient|];
    [|destruct (Hfail "Sender or recipient account data missing."
                 (failTransaction t1
                    "Sender or recipient account data missing."
                    (saveTransaction t1 s)) (fun _ => eq_refl))
        as (t' & H1 & H2 & H3 & H4); exists t'; repeat (split; [eassumption || reflexivity|]); assumption].
  destruct (locked sender <? amount t1).
  - destruct (Hfail "Inconsistent locked amount for sender."
                (failTransaction t1 "Inconsistent locked amount for sender."
                   (saveTransaction t1 s)) (fun _ => eq_refl))
      as (t' & H1 & H2 & H3 & H4); exists t'; repeat (split; [eassumption || reflexivity|]); assumption.
  - destruct (balance sender <? amount t1); cbn [store].
    + match goal with |- context [revertLockOnAccount ?i ?a ?x] =>
        destruct (Hfail "Insufficient total balance."
                    (revertLockOnAccount i a x)) as (t' & H1 & H2 & H3 & H4)
      end.
      { intros id. unfold findTransaction.
        rewrite (proj2 (proj2 (revertLockOnAccount_accounts _ _ _))).
        reflexivity. }
      exists t'; repeat (split; [eassumption || reflexivity|]); assumption.
    + match goal with |- context [saveAccount ?r (saveAccount ?a ?x)] =>
        destruct (Hok (saveAccount r (saveAccount a x)) (fun _ => eq_refl))
          as (t' & H1 & H2 & H3 & H4)
      end.
      exists t'; repeat (split; [eassumption || reflexivity|]); assumption.
Qed.

Lemma executor_lookup (txId : string) (s : State) :
  (forall id, findTransaction id (store (executeSingleTransaction txId s))
              = findTransaction id s)
  \/ (exists t0 t',
         findTransaction txId s = Some t0
         /\ status t0 = PENDING
         /\ identityOf t' = identityOf t0
         /\ (status t' = PROCESSING \/ status t' = FAILED)
         /\ findTransaction txId (store (executeSingleTransaction txId s))
            = Some t'
         /\ forall id, id <> txId ->
              findTransaction id (store (executeSingleTransaction txId s))
              = findTransaction id s).
Proof.
  destruct (executeSingleTransaction_run txId s) as [[_ E]|(_ & _ & E)];
    rewrite E.
  - apply try_lookup.
  - left. reflexivity.
Qed.

Lemma executor_rowsEvolve (txId : string) (s : State) :
  rowsEvolve s (store (executeSingleTransaction txId s)).
Proof.
  intros id t Ht.
  destruct (executor_lookup txId s)
    as [Hsame|(t0 & t' & Hf0 & Hp & Hid & Hst & Hf' & Hother)].
  - exists t. rewrite Hsame. split; [exact Ht | apply rowEvolves_refl].
  - destruct (String.eqb_spec id txId) as [->|Hne].
    + exists t'. split; [exact Hf'|].
      assert (t = t0) by congruence. subst t0.
      split; [exact Hid|]. split.
      * right; left. split; [exact Hp|]. destruct Hst as [->| ->]; auto.
      * intros Hnp. contradiction.
    + exists t. rewrite (Hother id Hne).
      split; [exact Ht | apply rowEvolves_refl].
Qed.

Lemma find_map_key (f : Transaction -> Transaction) (id : string)
      (txs : list Transaction) :
  (forall t, tx_id (f t) = tx_id t) ->
  find (fun t => (tx_id t =? id)%string) (map f txs)
  = option_map f (find (fun t => (tx_id t =? id)%string) txs).
Proof.
  intros Hkey. induction txs as [|t txs IH]; simpl; [reflexivity|].
  rewrite Hkey. destruct (tx_id t =? id)%string; [reflexivity | exact IH].
Qed.

Lemma confirmRow_key ids b t : tx_id (confirmRow ids b t) = tx_id t.
Proof. unfold confirmRow. destruct (_ && _); reflexivity. Qed.

Lemma confirmTransactions_lookup ids b s id :
  findTransaction id (confirmTransactions ids b s)
  = option_map (confirmRow ids b) (findTransaction id s).
Proof.
  unfold findTransaction, confirmTransactions. simpl.
  apply (find_map_key (confirmRow ids b)). apply confirmRow_key.
Qed.

Lemma confirmRow_evolves ids b t : rowEvolves t (confirmRow ids b t).
Proof.
  unfold confirmRow.
  destruct (existsb _ ids && status_eqb (status t) PROCESSING) eqn:E;
    [|apply rowEvolves_refl].
  apply andb_true_iff in E. destruct E as [_ E]. apply status_eqb_eq in E.
  split; [reflexivity|]. split.
  - right; right. simpl. auto.
  - intros _ Hq. contradiction.
Qed.

Lemma confirmTransactions_rowsEvolve ids b s :
  rowsEvolve s (confirmTransactions ids b s).
Proof.
  intros id t Ht. rewrite confirmTransactions_lookup, Ht. simpl.
  eexists. split; [reflexivity | apply confirmRow_evolves].
Qed.

Lemma executor_keeps_nonpending (txId id : string) (s : State)
      (t : Transaction) :
  findTransaction id s = Some t ->
  status t <> PENDING ->
  findTransaction id (store (executeSingleTransaction txId s)) = Some t.
Proof.
  intros Ht Hnp.
  destruct (executor_lookup txId s)
    as [Hsame|(t0 & t' & Hf0 & Hp & _ & _ & _ & Hother)].
  - rewrite Hsame. exact Ht.
  - destruct (String.eqb_spec id txId) as [->|Hne].
    + congruence.
    + rewrite (Hother id Hne). exact Ht.
Qed.

Lemma revertLockOnAccount_frame id amt s :
  blocks (revertLockOnAccount id amt s) = blocks s
  /\ mempool (revertLockOnAccount id amt s) = mempool s
  /\ deadLetter (revertLockOnAccount id amt s) = deadLetter s.
Proof.
  unfold revertLockOnAccount. destruct (findAccountById id s); auto.
Qed.

Lemma executor_frame (txId : string) (s : State) :
  blocks (store (executeSingleTransaction txId s)) = blocks s
  /\ mempool (store (executeSingleTransaction txId s)) = mempool s
  /\ deadLetter (store (executeSingleTransaction txId s)) = deadLetter s.
Proof.
  destruct (executeSingleTransaction_run txId s) as [[_ E]|(_ & _ & E)];
    rewrite E; [|auto].
  unfold executeSingleTransaction_try.
  destruct (findTransaction txId s) as [t0|]; [|auto].
  destruct (negb _); [auto|].
  destruct (findAccountById _ s) as [sender|]; [|auto].
  destruct (findAccountById _ s) as [recipient|]; [|auto].
  destruct (locked sender <? _); [auto|].
  destruct (balance sender <? _); [|auto].
  cbn [store].
  match goal with |- context [revertLockOnAccount ?i ?a ?x] =>
    destruct (revertLockOnAccount_frame i a x) as (Hb & Hm & Hd)
  end.
  rewrite Hb, Hm, Hd. auto.
Qed.

Lemma executor_catch_frame (txId message : string) (s : State) :
  blocks (store (executeSingleTransaction_catch txId message s)) = blocks s
  /\ mempool (store (executeSingleTransaction_catch txId message s))
     = mempool s.
Proof.
  unfold executeSingleTransaction_catch. cbn [store].
  set (s1 := markTransactionFailed _ _ s).
  assert (H1 : blocks s1 = blocks s /\ mempool s1 = mempool s).
  { unfold s1, markTransactionFailed.
    destruct (findTransaction txId s); auto. }
  destruct H1 as [Hb Hm].
  destruct (findTransaction txId s1) as [tx|]; [|simpl; auto].
  destruct (findAccountById _ s1) as [a|]; [|simpl; auto].
  destruct (revertLockOnAccount_frame (acc_id a) (amount tx) s1)
    as (Hb' & Hm' & _).
  simpl. split; congruence.
Qed.

Lemma runExecutor_step (env : CycleEnv) (txId : string) (s : State) :
  step s (store (runExecutor env txId s)).
Proof.
  unfold runExecutor. destruct (storeFault env txId); constructor.
Qed.

Lemma runExecutor_blocks (env : CycleEnv) (txId : string) (s : State) :
  blocks (store (runExecutor env txId s)) = blocks s.
Proof.
  unfold runExecutor. destruct (storeFault env txId).
  - apply executor_catch_frame.
  - apply executor_frame.
Qed.

Lemma executeBatch_steps (env : CycleEnv) (txIds : list string) (s : State) :
  steps s (snd (executeBatch env txIds s))
  /\ blocks (snd (executeBatch env txIds s)) = blocks s.
Proof.
  revert s. induction txIds as [|txId rest IH]; intros s; simpl.
  - split; [apply rt_refl | reflexivity].
  - destruct (lockAcquired env txId); [|apply IH].
    destruct (IH (store (runExecutor env txId s))) as [Hsteps Hblocks].
    destruct (executeBatch env rest (store (runExecutor env txId s)))
      as [data s'] eqn:E. simpl in *. split.
    + eapply rt_trans; [apply rt_step, runExecutor_step | exact Hsteps].
    + rewrite Hblocks. apply runExecutor_blocks.
Qed.

(** ** The processing cycle *)

Lemma requeue_all (data : list (string * string)) (q : list string) :
  fold_left (fun q txData => lpush (fst txData) q) data q
  = rev (map fst data) ++ q.
Proof.
  revert q. induction data as [|d data IH]; intros q; simpl; [reflexivity|].
  rewrite IH. unfold lpush. rewrite <- app_assoc. reflexivity.
Qed.

(** The three ways a cycle ends: no sealing, a sealed block, a sealing
    that failed. *)
Lemma cycle_cases (cfg : Config) (env : CycleEnv) (p : Processor) :
  (shouldCreateBlock cfg p (nowAtDecision env) (collected cfg env p) = false
   /\ processMempoolAndCreateBlock cfg env p
      = mkProcessor (executedLedger cfg env p) (lastBlockCreatedAt p))
  \/ (shouldCreateBlock cfg p (nowAtDecision env) (collected cfg env p) = true
      /\ exists b s2,
          createBlockWithTypeORM (newBlockId env) (blockTimestamp env)
            (collected cfg env p) (executedLedger cfg env p) = inr (b, s2)
          /\ processMempoolAndCreateBlock cfg env p
             = mkProcessor
                 (confirmTransactions (map fst (collected cfg env p)) b s2)
                 (nowAfterCommit env))
  \/ (shouldCreateBlock cfg p (nowAtDecision env) (collected cfg env p) = true
      /\ exists e,
          createBlockWithTypeORM (newBlockId env) (blockTimestamp env)
            (collected cfg env p) (executedLedger cfg env p) = inl e
          /\ processMempoolAndCreateBlock cfg env p
             = mkProcessor
                 (with_mempool (executedLedger cfg env p)
                    (rev (map fst (collected cfg env p))
                     ++ mempool (executedLedger cfg env p)))
                 (lastBlockCreatedAt p)).
Proof.
  unfold processMempoolAndCreateBlock, collected, executedLedger.
  destruct (getFromMempool (batchSize cfg) (ledger p)) as [ids s0].
  cbn [fst snd].
  destruct (executeBatch env ids s0) as [data s1]. cbn [fst snd].
  destruct (shouldCreateBlock cfg p (nowAtDecision env) data);
    [|left; auto].
  right.
  destruct (createBlockWithTypeORM (newBlockId env) (blockTimestamp env)
                                   data s1) as [e|[b s2]].
  - right. split; [reflexivity|]. exists e. split; [reflexivity|].
    rewrite requeue_all. reflexivity.
  - left. split; [reflexivity|]. exists b, s2. auto.
Qed.

Lemma executedLedger_steps (cfg : Config) (env : CycleEnv) (p : Processor) :
  exists rest,
    steps (with_mempool (ledger p) rest) (executedLedger cfg env p)
    /\ blocks (executedLedger cfg env p) = blocks (ledger p).
Proof.
  unfold executedLedger.
  destruct (getFromMempool_frame (batchSize cfg) (ledger p)) as [rest Hrest].
  exists rest. rewrite Hrest.
  destruct (executeBatch_steps env
              (fst (getFromMempool (batchSize cfg) (ledger p)))
              (with_mempool (ledger p) rest)) as [Hsteps Hblocks].
  split; [exact Hsteps | exact Hblocks].
Qed.

Lemma Disciplined_tables (s s' : State) :
  accounts s' = accounts s -> transactions s' = transactions s ->
  Disciplined s -> Disciplined s'.
Proof.
  unfold Disciplined, LedgerOK, AmountsPositive, LockDisciplined, accountKeys.
  intros -> ->. auto.
Qed.

Lemma totalBalance_accounts (c : string) (s s' : State) :
  accounts s' = accounts s -> totalBalance c s' = totalBalance c s.
Proof. unfold totalBalance. intros ->. reflexivity. Qed.

Lemma confirmTransactions_frame ids b s :
  txFrame s (confirmTransactions ids b s).
Proof.
  intros t' Ht'. unfold confirmTransactions in Ht'. simpl in Ht'.
  apply in_map_iff in Ht'. destruct Ht' as (t & Heq & Hin).
  exists t. split; [exact Hin|]. subst t'.
  destruct (existsb _ ids && status_eqb (status t) PROCESSING); auto.
Qed.

Lemma Bounded_tables (s s' : State) :
  accounts s' = accounts s -> Bounded s -> Bounded s'.
Proof.
  intros H. apply Bounded_totals. intros c.
  apply totalBalance_accounts. exact H.
Qed.

Lemma cycle_disciplined (cfg : Config) (env : CycleEnv) (p : Processor) :
  Disciplined (ledger p) -> Bounded (ledger p) ->
  Disciplined (ledger (processMempoolAndCreateBlock cfg env p))
  /\ Bounded (ledger (processMempoolAndCreateBlock cfg env p))
  /\ forall c, totalBalance c (ledger (processMempoolAndCreateBlock cfg env p))
               = totalBalance c (ledger p).
Proof.
  intros Hd Hbd.
  destruct (executedLedger_steps cfg env p) as (rest & Hsteps & _).
  assert (Hd0 : Disciplined (with_mempool (ledger p) rest))
    by (apply (Disciplined_tables (ledger p)); auto).
  assert (Hbd0 : Bounded (with_mempool (ledger p) rest))
    by (apply (Bounded_tables (ledger p)); auto).
  destruct (steps_preserve _ _ Hsteps Hd0 Hbd0) as (Hd1 & Hbd1 & Hsum).
  destruct (cycle_cases cfg env p)
    as [[_ ->]|[(_ & b & s2 & Hcreate & ->)|(_ & e & _ & ->)]];
    cbn [ledger].
  - split; [exact Hd1|]. split; [exact Hbd1|].
    intros c. rewrite Hsum. reflexivity.
  - destruct (createBlock_fields _ _ _ _ _ _ Hcreate)
      as (_ & _ & _ & _ & Hacc & Htx & _).
    assert (Hd2 : Disciplined s2)
      by (apply (Disciplined_tables (executedLedger cfg env p)); auto).
    assert (Hbd2 : Bounded s2)
      by (apply (Bounded_tables (executedLedger cfg env p)); auto).
    destruct Hd2 as (Hok & Hpos & Hdis). split; [|split].
    + split; [|split].
      * apply (LedgerOK_frame s2); [exact Hok | reflexivity
                                    | apply confirmTransactions_frame].
      * apply (AmountsPositive_frame s2);
          [exact Hpos | apply confirmTransactions_frame].
      * exact Hdis.
    + apply (Bounded_tables s2); [reflexivity | exact Hbd2].
    + intros c.
      rewrite (totalBalance_accounts c s2) by reflexivity.
      rewrite (totalBalance_accounts c (executedLedger cfg env p))
        by exact Hacc.
      rewrite Hsum. reflexivity.
  - split; [|split].
    + apply (Disciplined_tables (executedLedger cfg env p)); auto.
    + apply (Bounded_tables (executedLedger cfg env p)); auto.
    + intros c.
      rewrite (totalBalance_accounts c (executedLedger cfg env p))
        by reflexivity.
      rewrite Hsum. reflexivity.
Qed.

(** X8.  Over any run of the pipeline (intakes and whole processing
    cycles, store faults included) the sum of [balance] in each currency
    is constant and [balance >= locked >= 0] holds on every account,
    provided that at the start the ledger is well formed (one row per
    account id, every transfer between two distinct stored accounts of
    one currency), every stored amount is positive, every account has
    [balance >= locked >= 0] and the balances of each currency add up to
    at most [MAX_EXACT], the range in which [toNumber] writes back what
    was computed.  The bound on the totals is kept as well. *)
Theorem pipeline_conserves (cfg : Config) (p p' : Processor) :
  Disciplined (ledger p) ->
  Bounded (ledger p) ->
  pipeline cfg (fun _ => True) p p' ->
  Disciplined (ledger p')
  /\ Bounded (ledger p')
  /\ forall currency,
       totalBalance currency (ledger p') = totalBalance currency (ledger p).
Proof.
  intros Hd Hbd Hrun. revert Hd Hbd.
  induction Hrun as [p p' Hstep|p|p1 p2 p3 _ IH12 _ IH23]; intros Hd Hbd.
  - destruct Hstep as [newId entropy userId from to amount currency descr
                       p t s' H|env p _].
    + cbn [ledger]. eapply submitTransfer_sound; eauto.
    + apply cycle_disciplined; assumption.
  - auto.
  - destruct (IH12 Hd Hbd) as (Hd2 & Hbd2 & H12).
    destruct (IH23 Hd2 Hbd2) as (Hd3 & Hbd3 & H23).
    split; [exact Hd3|]. split; [exact Hbd3|].
    intros c. rewrite H23. apply H12.
Qed.

Lemma cycle_blocks (cfg : Config) (env : CycleEnv) (p : Processor) :
  (blocks (ledger (processMempoolAndCreateBlock cfg env p))
   = blocks (ledger p)
   /\ lastBlockCreatedAt (processMempoolAndCreateBlock cfg env p)
      = lastBlockCreatedAt p)
  \/ (exists b s2,
         createBlockWithTypeORM (newBlockId env) (blockTimestamp env)
           (collected cfg env p) (executedLedger cfg env p) = inr (b, s2)
         /\ shouldCreateBlock cfg p (nowAtDecision env) (collected cfg env p)
            = true
         /\ blocks (ledger (processMempoolAndCreateBlock cfg env p))
            = blocks (ledger p) ++ [b]
         /\ lastBlockCreatedAt (processMempoolAndCreateBlock cfg env p)
            = nowAfterCommit env).
Proof.
  destruct (executedLedger_steps cfg env p) as (rest & _ & Hblocks).
  destruct (cycle_cases cfg env p)
    as [[_ ->]|[(Hshould & b & s2 & Hcreate & ->)|(_ & e & _ & ->)]];
    cbn [ledger lastBlockCreatedAt].
  - left. auto.
  - right. exists b, s2. split; [exact Hcreate|]. split; [exact Hshould|].
    destruct (createBlock_inv _ _ _ _ _ _ Hcreate) as (Hbs & _).
    split; [|reflexivity].
    change (blocks (confirmTransactions (map fst (collected cfg env p)) b s2))
      with (blocks s2).
    rewrite Hbs, Hblocks. reflexivity.
  - left. split; [exact Hblocks | reflexivity].
Qed.

(** X9.  A cycle appends at most one block.  It appends one only when it
    has collected at least one executed transaction and either the batch
    reaches [minTxsPerBlock] or [blockTimeMs] has passed since the last
    block; then, and only then, [lastBlockCreatedAt] is advanced. *)
Theorem cycle_seals_at_threshold (cfg : Config) (env : CycleEnv)
        (p : Processor) :
  (blocks (ledger (processMempoolAndCreateBlock cfg env p))
   = blocks (ledger p)
   /\ lastBlockCreatedAt (processMempoolAndCreateBlock cfg env p)
      = lastBlockCreatedAt p)
  \/ (exists b,
         blocks (ledger (processMempoolAndCreateBlock cfg env p))
         = blocks (ledger p) ++ [b]
         /\ block_id b = newBlockId env
         /\ collected cfg env p <> []
         /\ (minTxsPerBlock cfg <= Z.of_nat (List.length (collected cfg env p))
             \/ blockTimeMs cfg <= nowAtDecision env - lastBlockCreatedAt p)
         /\ lastBlockCreatedAt (processMempoolAndCreateBlock cfg env p)
            = nowAfterCommit env).
Proof.
  destruct (cycle_blocks cfg env p)
    as [H|(b & s2 & Hcreate & Hshould & Hbs & Hlast)]; [left; exact H|].
  right. exists b. split; [exact Hbs|].
  split; [apply (createBlock_fields _ _ _ _ _ _ Hcreate)|].
  unfold shouldCreateBlock in Hshould.
  apply andb_true_iff in Hshould. destruct Hshould as [Hpos Hthr].
  apply Z.ltb_lt in Hpos. apply orb_true_iff in Hthr.
  split; [|split; [|exact Hlast]].
  - intros Hnil. rewrite Hnil in Hpos. simpl in Hpos. lia.
  - destruct Hthr as [H|H]; apply Z.leb_le in H; auto.
Qed.

(** X10.  Under any run of the pipeline the block table is append-only
    and stays a chain grown by [createBlockWithTypeORM]: stored blocks are
    never changed or removed. *)
Theorem pipeline_chain_append_only (cfg : Config) (p p' : Processor) :
  pipeline cfg (fun _ => True) p p' ->
  (exists added, blocks (ledger p') = blocks (ledger p) ++ added)
  /\ (Sealed (ledger p) -> Sealed (ledger p')).
Proof.
  induction 1 as [p p' Hstep|p|p1 p2 p3 _ IH12 _ IH23].
  - destruct Hstep as [newId entropy userId from to amount currency descr
                       p t s' H|env p _].
    + apply submitTransfer_success in H.
      destruct H as (sender & recipient & _ & _ & _ & _ & _ & _ & _ & _ & _
                     & ->).
      cbn [ledger blocks]. split.
      * exists []. symmetry. apply app_nil_r.
      * intros Hs. apply (Sealed_other (ledger p)); [exact Hs | reflexivity].
    + destruct (cycle_blocks cfg env p)
        as [[Hb _]|(b & s2 & Hcreate & _ & Hbs & _)].
      * split; [exists []; rewrite Hb; symmetry; apply app_nil_r|].
        intros Hs. apply (Sealed_other (ledger p)); assumption.
      * split; [exists [b]; exact Hbs|].
        intros Hs.
        destruct (executedLedger_steps cfg env p) as (rest & _ & Hblocks).
        destruct (createBlock_inv _ _ _ _ _ _ Hcreate) as (Hbs2 & _).
        apply (Sealed_other s2).
        -- apply (Sealed_create _ _ _ _ _ _
                    (Sealed_other _ _ Hs Hblocks) Hcreate).
        -- rewrite Hbs, Hbs2, Hblocks. reflexivity.
  - split; [exists []; symmetry; apply app_nil_r | auto].
  - destruct IH12 as [[a1 H1] Hs12]. destruct IH23 as [[a2 H2] Hs23].
    split; [|auto]. exists (a1 ++ a2). rewrite H2, H1, app_assoc. reflexivity.
Qed.

Lemma runExecutor_faultFree (env : CycleEnv) (txId : string) (s : State) :
  faultFree env -> runExecutor env txId s = executeSingleTransaction txId s.
Proof. intros H. unfold runExecutor. rewrite (H txId). reflexivity. Qed.

Lemma executeBatch_rowsEvolve (env : CycleEnv) (txIds : list string)
      (s : State) :
  faultFree env -> rowsEvolve s (snd (executeBatch env txIds s)).
Proof.
  intros Hff. revert s.
  induction txIds as [|txId rest IH]; intros s; simpl.
  - apply rowsEvolve_refl.
  - destruct (lockAcquired env txId); [|apply IH].
    rewrite (runExecutor_faultFree env txId s Hff).
    specialize (IH (store (executeSingleTransaction txId s))).
    destruct (executeBatch env rest (store (executeSingleTransaction txId s)))
      as [data s'].
    simpl in *. eapply rowsEvolve_trans; [apply executor_rowsEvolve | exact IH].
Qed.

Lemma executeBatch_keeps_processing (env : CycleEnv) (txIds : list string)
      (s : State) (id : string) (t : Transaction) :
  faultFree env ->
  findTransaction id s = Some t -> status t = PROCESSING ->
  findTransaction id (snd (executeBatch env txIds s)) = Some t.
Proof.
  intros Hff. revert s.
  induction txIds as [|txId rest IH]; intros s Ht Hst; simpl; [exact Ht|].
  destruct (lockAcquired env txId); [|apply IH; assumption].
  rewrite (runExecutor_faultFree env txId s Hff).
  assert (Hkeep : findTransaction id
                    (store (executeSingleTransaction txId s)) = Some t)
    by (apply executor_keeps_nonpending; [exact Ht | rewrite Hst; discriminate]).
  specialize (IH _ Hkeep Hst).
  destruct (executeBatch env rest (store (executeSingleTransaction txId s)))
    as [data s'].
  exact IH.
Qed.

Lemma executeBatch_collected (env : CycleEnv) (txIds : list string)
      (s : State) (id h : string) :
  faultFree env ->
  In (id, h) (fst (executeBatch env txIds s)) ->
  exists t, findTransaction id (snd (executeBatch env txIds s)) = Some t
            /\ status t = PROCESSING /\ tx_id t = id /\ systemHash t = h
            /\ In id txIds.
Proof.
  intros Hff. revert s.
  induction txIds as [|txId rest IH]; intros s Hin; simpl in *;
    [contradiction|].
  destruct (lockAcquired env txId).
  - rewrite (runExecutor_faultFree env txId s Hff) in *.
    pose proof (executeBatch_keeps_processing env rest
                  (store (executeSingleTransaction txId s))) as Hkeep.
    specialize (IH (store (executeSingleTransaction txId s))).
    destruct (executeBatch env rest (store (executeSingleTransaction txId s)))
      as [data s'].
    cbn [fst snd] in *.
    destruct (returned (executeSingleTransaction txId s)) as [tx|] eqn:Hret.
    + destruct Hin as [Heq|Hin].
      * inversion Heq; subst; clear Heq.
        destruct (executeSingleTransaction_success _ _ _ Hret) as [Hst Hf].
        destruct (find_key tx_id _ _ _ Hf) as [Hid _].
        exists tx. rewrite Hid.
        split; [apply (Hkeep txId tx Hff Hf Hst)|]. auto.
      * destruct (IH Hin) as (t & H1 & H2 & H3 & H4 & H5).
        exists t. auto 6.
    + destruct (IH Hin) as (t & H1 & H2 & H3 & H4 & H5).
      exists t. auto 6.
  - destruct (IH s Hin) as (t & H1 & H2 & H3 & H4 & H5).
    exists t. auto 6.
Qed.

Lemma submit_rowsEvolve
      newId entropy userId from to amount currency descr s t s' :
  submitTransfer newId entropy userId from to amount currency descr s
    = (inr t, s') ->
  rowsEvolve s s'.
Proof.
  intros H. apply submitTransfer_success in H.
  destruct H as (sender & recipient & _ & _ & _ & _ & _ & _ & _ & _ & _ & ->).
  intros id t0 Ht0. exists t0. split; [|apply rowEvolves_refl].
  unfold findTransaction in *. simpl. apply find_app_first. exact Ht0.
Qed.

Lemma cycle_rowsEvolve (cfg : Config) (env : CycleEnv) (p : Processor) :
  faultFree env ->
  rowsEvolve (ledger p) (ledger (processMempoolAndCreateBlock cfg env p)).
Proof.
  intros Hff.
  assert (H1 : rowsEvolve (ledger p) (executedLedger cfg env p)).
  { unfold executedLedger.
    destruct (getFromMempool_frame (batchSize cfg) (ledger p)) as [rest Hr].
    rewrite Hr.
    eapply rowsEvolve_trans; [|apply executeBatch_rowsEvolve; exact Hff].
    apply rowsEvolve_same. reflexivity. }
  destruct (cycle_cases cfg env p)
    as [[_ ->]|[(_ & b & s2 & Hcreate & ->)|(_ & e & _ & ->)]];
    cbn [ledger].
  - exact H1.
  - destruct (createBlock_fields _ _ _ _ _ _ Hcreate)
      as (_ & _ & _ & _ & _ & Htx & _).
    eapply rowsEvolve_trans; [exact H1|].
    eapply rowsEvolve_trans; [apply rowsEvolve_same; exact Htx|].
    apply confirmTransactions_rowsEvolve.
  - eapply rowsEvolve_trans; [exact H1|]. apply rowsEvolve_same. reflexivity.
Qed.

(** X11.  Along any run of the pipeline without store faults, a stored
    transaction row is never removed, keeps the columns that identify the
    transfer, and its status only moves forward (PENDING to PROCESSING,
    FAILED or CONFIRMED; PROCESSING to CONFIRMED).  A row that is
    CONFIRMED, FAILED or CANCELLED is never written again, so [blockId]
    and [blockHeight] of a confirmed transaction never change. *)
Theorem pipeline_rows_move_forward (cfg : Config) (p p' : Processor)
        (id : string) (t : Transaction) :
  pipeline cfg faultFree p p' ->
  findTransaction id (ledger p) = Some t ->
  exists t',
    findTransaction id (ledger p') = Some t'
    /\ identityOf t' = identityOf t
    /\ advances (status t) (status t')
    /\ (status t = CONFIRMED \/ status t = FAILED \/ status t = CANCELLED ->
        t' = t).
Proof.
  intros Hrun Ht.
  assert (Hrows : rowsEvolve (ledger p) (ledger p')).
  { clear Ht. induction Hrun as [p p' Hstep|p|p1 p2 p3 _ IH12 _ IH23].
    - destruct Hstep as [newId entropy userId from to amount currency descr
                         p t0 s' H|env p Hff].
      + cbn [ledger]. eapply submit_rowsEvolve. exact H.
      + apply cycle_rowsEvolve. exact Hff.
    - apply rowsEvolve_refl.
    - eapply rowsEvolve_trans; eauto. }
  destruct (Hrows id t Ht) as (t' & Ht' & Hid & Hadv & Hfix).
  exists t'. split; [exact Ht'|]. split; [exact Hid|]. split; [exact Hadv|].
  intros Hterm. apply Hfix; intros Heq; rewrite Heq in Hterm;
    destruct Hterm as [H|[H|H]]; discriminate H.
Qed.

(** X12.  When a cycle without store faults seals a block, every
    transaction it collected is found CONFIRMED afterwards, carrying the
    id and the height of that block, and that block is the latest one. *)
Theorem cycle_confirms_collected (cfg : Config) (env : CycleEnv)
        (p : Processor) (b : Block) (s2 : State) (id h : string) :
  faultFree env ->
  shouldCreateBlock cfg p (nowAtDecision env) (collected cfg env p) = true ->
  createBlockWithTypeORM (newBlockId env) (blockTimestamp env)
    (collected cfg env p) (executedLedger cfg env p) = inr (b, s2) ->
  In (id, h) (collected cfg env p) ->
  getLatestBlock (ledger (processMempoolAndCreateBlock cfg env p)) = Some b
  /\ exists t,
       findTransaction id (ledger (processMempoolAndCreateBlock cfg env p))
         = Some t
       /\ status t = CONFIRMED
       /\ blockId t = Some (block_id b)
       /\ blockHeight t = Some (height b)
       /\ systemHash t = h.
Proof.
  intros Hff Hshould Hcreate Hin.
  destruct (cycle_cases cfg env p)
    as [[Hno _]|[(_ & b' & s2' & Hcreate' & Heq)|(_ & e & Hfail & _)]];
    try congruence.
  assert (b' = b /\ s2' = s2) as [-> ->] by (split; congruence).
  rewrite Heq. cbn [ledger]. split.
  - destruct (createBlock_inv _ _ _ _ _ _ Hcreate) as (Hbs & _).
    unfold getLatestBlock.
    change (blocks (confirmTransactions (map fst (collected cfg env p)) b s2))
      with (blocks s2).
    rewrite Hbs. apply highest_app_new.
    apply (createBlock_above _ _ _ _ _ _ Hcreate).
  - unfold collected, executedLedger in *.
    destruct (executeBatch_collected env _ _ id h Hff Hin)
      as (t & Hfind & Hst & Hid & Hhash & _).
    destruct (createBlock_fields _ _ _ _ _ _ Hcreate)
      as (_ & _ & _ & _ & _ & Htx & _).
    rewrite confirmTransactions_lookup.
    assert (Hfind2 : findTransaction id s2 = Some t)
      by (unfold findTransaction in *; rewrite Htx; exact Hfind).
    rewrite Hfind2. simpl. eexists. split; [reflexivity|].
    unfold confirmRow.
    assert (Hmem : existsb (fun i => (tx_id t =? i)%string)
                     (map fst (fst (executeBatch env
                        (fst (getFromMempool (batchSize cfg) (ledger p)))
                        (snd (getFromMempool (batchSize cfg) (ledger p))))))
                   = true).
    { apply existsb_exists. exists id. split.
      - apply (in_map fst) in Hin. exact Hin.
      - rewrite Hid. apply String.eqb_refl. }
    rewrite Hmem, Hst. simpl. auto.
Qed.

(** ** The failure paths *)

(** X13.  [failTransaction] and [markTransactionFailed] leave the row
    FAILED with a description of at most 255 UTF-16 code units, which is
    what [substring(0, 255)] counts; when the previous description
    followed by the failure note has at most 255 code units, nothing is
    cut off, however many bytes it takes. *)
Theorem failure_description_fits :
  (forall t reason s,
      exists t' d,
        findTransaction (tx_id t) (failTransaction t reason s) = Some t'
        /\ status t' = FAILED
        /\ description t' = Some d
        /\ (utf16_length d <= 255)%nat
        /\ ((utf16_length (orElse (description t) EmptyString
                             ++ " | ProcessorFailure: " ++ reason)%string
             <= 255)%nat ->
            d = (orElse (description t) EmptyString
                   ++ " | ProcessorFailure: " ++ reason)%string))
  /\ (forall txId reason s t,
         findTransaction txId s = Some t ->
         exists t' d,
           findTransaction txId (markTransactionFailed txId reason s) = Some t'
           /\ status t' = FAILED
           /\ description t' = Some d
           /\ (utf16_length d <= 255)%nat
           /\ ((utf16_length (orElse (description t) EmptyString
                                ++ " | ProcessorFailure: " ++ reason)%string
                <= 255)%nat ->
               d = (orElse (description t) EmptyString
                      ++ " | ProcessorFailure: " ++ reason)%string)).
Proof.
  split.
  - intros t reason s.
    eexists. eexists. split.
    + unfold failTransaction.
      apply (findTransaction_saveTransaction
               (set_description (set_status t FAILED)
                  (failureDescription (set_status t FAILED) reason))).
    + split; [reflexivity|]. split; [reflexivity|].
      split; [apply substring0_length|].
      intros Hfit. apply substring0_all. exact Hfit.
  - intros txId reason s t Hfind.
    destruct (find_key tx_id _ _ _ Hfind) as [Hid _].
    unfold markTransactionFailed. rewrite Hfind.
    eexists. eexists. split.
    + rewrite <- Hid.
      apply (findTransaction_saveTransaction
               (set_description (set_status t FAILED)
                  (failureDescription (set_status t FAILED) reason))).
    + split; [reflexivity|]. split; [reflexivity|].
      split; [apply substring0_length|].
      intros Hfit. apply substring0_all. exact Hfit.
Qed.



(** ** Reserved funds *)

Lemma pendingSum_app (id : string) (l l' : list Transaction) :
  pendingSum id (l ++ l') = pendingSum id l + pendingSum id l'.
Proof. induction l as [|t l IH]; simpl; [reflexivity | rewrite IH; lia]. Qed.

Lemma pendingSum_nonneg (id : string) (txs : list Transaction) :
  Forall (fun t => 0 < amount t) txs -> 0 <= pendingSum id txs.
Proof.
  induction 1 as [|t txs Ht _ IH]; simpl; [lia|].
  destruct (_ && _); lia.
Qed.

Lemma pendingSum_covers (txs : list Transaction) (t : Transaction) :
  Forall (fun t => 0 < amount t) txs ->
  In t txs -> status t = PENDING ->
  amount t <= pendingSum (fromAccountId t) txs.
Proof.
  intros Hpos Hin Hst. induction Hpos as [|x txs Hx Hpos IH]; simpl;
    [contradiction|].
  pose proof (pendingSum_nonneg (fromAccountId t) txs Hpos).
  destruct Hin as [->|Hin].
  - rewrite String.eqb_refl, Hst. simpl. lia.
  - specialize (IH Hin). destruct (_ && _); lia.
Qed.

Lemma pendingSum_replace (id : string) (txs : list Transaction)
      (t0 t1 : Transaction) :
  NoDup (map tx_id txs) ->
  find (fun t => (tx_id t =? tx_id t1)%string) txs = Some t0 ->
  fromAccountId t1 = fromAccountId t0 ->
  status t0 = PENDING -> status t1 <> PENDING ->
  pendingSum id (save tx_id t1 txs)
  = pendingSum id txs
    - (if (fromAccountId t0 =? id)%string then amount t0 else 0).
Proof.
  intros Hnd Hfind Hfrom Hp Hnp. unfold save.
  rewrite (find_existsb tx_id _ _ _ Hfind).
  induction txs as [|x txs IH]; simpl in *; [discriminate|].
  inversion Hnd as [|? ? Hnotin Hnd']; subst.
  destruct (tx_id x =? tx_id t1)%string eqn:E.
  - inversion Hfind; subst x. apply String.eqb_eq in E.
    assert (Hrest : map (fun r => if (tx_id r =? tx_id t1)%string
                                  then t1 else r) txs = txs).
    { rewrite <- (map_id txs) at 2. apply map_ext_in. intros r Hr.
      destruct (tx_id r =? tx_id t1)%string eqn:E'; [|reflexivity].
      apply String.eqb_eq in E'. exfalso. apply Hnotin.
      rewrite E, <- E'. apply in_map. exact Hr. }
    rewrite Hrest, Hfrom, Hp.
    assert (Hs1 : status_eqb (status t1) PENDING = false).
    { destruct (status_eqb (status t1) PENDING) eqn:E1; [|reflexivity].
      apply status_eqb_eq in E1. contradiction. }
    rewrite Hs1, andb_false_r. simpl.
    destruct (fromAccountId t0 =? id)%string; simpl; lia.
  - rewrite (IH Hnd' Hfind). lia.
Qed.

Lemma pendingSum_confirm (id : string) ids b (txs : list Transaction) :
  pendingSum id (map (confirmRow ids b) txs) = pendingSum id txs.
Proof.
  induction txs as [|t txs IH]; simpl; [reflexivity|]. rewrite IH.
  f_equal. unfold confirmRow.
  destruct (existsb _ ids && status_eqb (status t) PROCESSING) eqn:E;
    [|reflexivity].
  apply andb_true_iff in E. destruct E as [_ E]. apply status_eqb_eq in E.
  simpl. rewrite E. simpl. rewrite !andb_false_r. reflexivity.
Qed.

Lemma In_save {A : Type} (key : A -> string) (row x : A) (rows : list A) :
  In x (save key row rows) ->
  x = row \/ (In x rows /\ key x <> key row).
Proof.
  unfold save.
  destruct (existsb (fun r => (key r =? key row)%string) rows) eqn:Hex.
  - intros H. apply in_map_iff in H. destruct H as (r & Hr & Hin).
    destruct (key r =? key row)%string eqn:E; [left; congruence|].
    right. subst x. apply String.eqb_neq in E. auto.
  - intros H. apply in_app_or in H. destruct H as [H|[H|[]]]; [|auto].
    right. split; [exact H|]. intros Heq.
    assert (Hc : existsb (fun r => (key r =? key row)%string) rows = true).
    { apply existsb_exists. exists x. rewrite Heq, String.eqb_refl. auto. }
    congruence.
Qed.

Lemma find_by_id_exists (rows : list Account) (id : string) :
  In id (map acc_id rows) ->
  exists a, find (fun x => (acc_id x =? id)%string) rows = Some a.
Proof.
  intros Hin. apply in_map_iff in Hin. destruct Hin as (a & Ha & Hin).
  destruct (find (fun x => (acc_id x =? id)%string) rows) as [b|] eqn:E;
    [eauto|].
  apply (find_none _ _ E) in Hin. rewrite Ha, String.eqb_refl in Hin.
  discriminate.
Qed.

Lemma map_key_save {A : Type} (key : A -> string) (row : A)
      (rows : list A) :
  In (key row) (map key rows) -> map key (save key row rows) = map key rows.
Proof.
  intros Hin. unfold save.
  assert (Hex : existsb (fun r => (key r =? key row)%string) rows = true).
  { apply in_map_iff in Hin. destruct Hin as (r & Hk & Hr).
    apply existsb_exists. exists r. split; [exact Hr|].
    rewrite Hk. apply String.eqb_refl. }
  rewrite Hex, map_map. apply map_ext. intros r.
  destruct (String.eqb_spec (key r) (key row)) as [E|_]; congruence.
Qed.

(** The store the executor leaves behind when no store call throws: the
    one it found, or the debit and credit of a PENDING transfer. *)
Lemma executor_committed_cases txId s :
  store (executeSingleTransaction txId s) = s
  \/ exists t sender recipient,
       findTransaction txId s = Some t
       /\ status t = PENDING
       /\ findAccountById (fromAccountId t) s = Some sender
       /\ findAccountById (toAccountId t) s = Some recipient
       /\ amount t <= locked sender
       /\ amount t <= balance sender.
Proof.
  unfold executeSingleTransaction, executeSingleTransaction_try.
  destruct (findTransaction txId s) as [t|] eqn:Hfind; [|left; reflexivity].
  destruct (status_eqb (status t) PENDING) eqn:Hp; cbn [negb];
    [|left; reflexivity].
  apply status_eqb_eq in Hp.
  change (fromAccountId (set_status t PROCESSING)) with (fromAccountId t).
  change (toAccountId (set_status t PROCESSING)) with (toAccountId t).
  change (amount (set_status t PROCESSING)) with (amount t).
  destruct (findAccountById (fromAccountId t) s) as [sender|] eqn:Hs;
    [|left; reflexivity].
  destruct (findAccountById (toAccountId t) s) as [recipient|] eqn:Hr;
    [|left; reflexivity].
  destruct (locked sender <? amount t) eqn:Hl; [left; reflexivity|].
  destruct (balance sender <? amount t) eqn:Hb; [left; reflexivity|].
  right. exists t, sender, recipient. apply Z.ltb_ge in Hl, Hb. auto 10.
Qed.

Lemma executor_keeps_rows (P : Transaction -> Prop) (txId : string)
      (s : State) :
  (forall t, P t -> P (set_status t PROCESSING)) ->
  Forall P (transactions s) ->
  Forall P (transactions (store (executeSingleTransaction txId s))).
Proof.
  intros HP Hrows.
  destruct (executor_committed_cases txId s)
    as [E|(t & sender & recipient & Hfind & Hp & Hs & Hr & Hl & Hb)].
  - rewrite E. exact Hrows.
  - rewrite (executor_success_written _ _ _ _ _ Hfind Hp Hs Hr Hl Hb).
    cbn [store]. simpl transactions.
    apply (Forall_save tx_id); [exact Hrows|].
    apply HP. destruct (find_key tx_id _ _ _ Hfind) as [_ Hin].
    exact (proj1 (Forall_forall _ _) Hrows t Hin).
Qed.

Lemma executor_keeps_ids (txId : string) (s : State) :
  map tx_id (transactions (store (executeSingleTransaction txId s)))
  = map tx_id (transactions s).
Proof.
  destruct (executor_committed_cases txId s)
    as [E|(t & sender & recipient & Hfind & Hp & Hs & Hr & Hl & Hb)].
  - rewrite E. reflexivity.
  - rewrite (executor_success_written _ _ _ _ _ Hfind Hp Hs Hr Hl Hb).
    cbn [store]. simpl transactions.
    destruct (find_key tx_id _ _ _ Hfind) as [Hid Hin].
    apply map_key_save. change (tx_id (set_status t PROCESSING)) with (tx_id t).
    apply in_map. exact Hin.
Qed.

Lemma submit_keeps_ids
      newId entropy userId from to amount currency descr s t s' :
  NoDup (map tx_id (transactions s)) ->
  submitTransfer newId entropy userId from to amount currency descr s
    = (inr t, s') ->
  NoDup (map tx_id (transactions s')).
Proof.
  intros Hndt H. apply submitTransfer_success in H.
  destruct H as (sender & recipient & _ & _ & _ & _ & _ & _ & _
                 & _ & Hex & ->).
  simpl. rewrite map_app. simpl. apply NoDup_snoc; [exact Hndt|].
  intros Hin. apply in_map_iff in Hin. destruct Hin as (o & Ho & Hoin).
  assert (Hc : existsb (fun o => (tx_id o =? tx_id t)%string
                                 || (systemHash o =? systemHash t)%string)
                       (transactions s) = true).
  { apply existsb_exists. exists o. split; [exact Hoin|].
    rewrite Ho, String.eqb_refl. reflexivity. }
  congruence.
Qed.

Lemma confirm_keeps_ids ids b s :
  map tx_id (transactions (confirmTransactions ids b s))
  = map tx_id (transactions s).
Proof.
  simpl. rewrite map_map. apply map_ext. intros t. apply confirmRow_key.
Qed.

(** ** Invariants of runs without store faults *)

Section PipelineInvariant.

Variable Inv : State -> Prop.

Hypothesis Inv_tables : forall s s',
  accounts s' = accounts s -> transactions s' = transactions s ->
  Inv s -> Inv s'.

Hypothesis Inv_submit :
  forall newId entropy userId from to amount currency descr s t s',
    Inv s ->
    submitTransfer newId entropy userId from to amount currency descr s
      = (inr t, s') ->
    Inv s'.

Hypothesis Inv_executor : forall txId s,
  Inv s -> Inv (store (executeSingleTransaction txId s)).

Hypothesis Inv_confirm : forall ids b s,
  Inv s -> Inv (confirmTransactions ids b s).

Lemma batch_invariant (env : CycleEnv) (txIds : list string) (s : State) :
  faultFree env -> Inv s -> Inv (snd (executeBatch env txIds s)).
Proof.
  intros Hff. revert s.
  induction txIds as [|txId rest IH]; intros s Hi; simpl; [auto|].
  destruct (lockAcquired env txId); [|apply IH; assumption].
  rewrite (runExecutor_faultFree env txId s Hff).
  specialize (IH _ (Inv_executor txId s Hi)).
  destruct (executeBatch env rest (store (executeSingleTransaction txId s)))
    as [data s'].
  exact IH.
Qed.

Lemma executedLedger_invariant (cfg : Config) (env : CycleEnv)
      (p : Processor) :
  faultFree env -> Inv (ledger p) -> Inv (executedLedger cfg env p).
Proof.
  intros Hff Hi. unfold executedLedger.
  destruct (getFromMempool_frame (batchSize cfg) (ledger p)) as [rest Hr].
  rewrite Hr. apply batch_invariant; [exact Hff|].
  apply (Inv_tables (ledger p)); auto.
Qed.

Lemma cycle_invariant (cfg : Config) (env : CycleEnv) (p : Processor) :
  faultFree env -> Inv (ledger p) ->
  Inv (ledger (processMempoolAndCreateBlock cfg env p)).
Proof.
  intros Hff Hi.
  pose proof (executedLedger_invariant cfg env p Hff Hi) as Hi1.
  destruct (cycle_cases cfg env p)
    as [[_ ->]|[(_ & b & s2 & Hcreate & ->)|(_ & e & _ & ->)]];
    cbn [ledger].
  - exact Hi1.
  - destruct (createBlock_fields _ _ _ _ _ _ Hcreate)
      as (_ & _ & _ & _ & Hacc & Htx & _).
    apply Inv_confirm.
    apply (Inv_tables (executedLedger cfg env p)); auto.
  - apply (Inv_tables (executedLedger cfg env p)); auto.
Qed.

Lemma pipeline_invariant (cfg : Config) (p p' : Processor) :
  pipeline cfg faultFree p p' -> Inv (ledger p) -> Inv (ledger p').
Proof.
  induction 1 as [p p' Hstep|p|p1 p2 p3 _ IH12 _ IH23]; intros Hi.
  - destruct Hstep as [newId entropy userId from to amount currency descr
                       p t s' H|env p Hff]; cbn [ledger].
    + eapply Inv_submit; eauto.
    + apply cycle_invariant; assumption.
  - exact Hi.
  - auto.
Qed.

End PipelineInvariant.

(** ** Consistent ledgers *)

Lemma Consistent_disciplined (s : State) : Consistent s -> Disciplined s.
Proof. intros (Hok & _ & Hpos & Hd & _). repeat split; try assumption; apply Hok. Qed.

(** In a consistent ledger the checks of the executor on a PENDING
    transaction cannot fail. *)
Lemma consistent_covers txId s t :
  Consistent s ->
  findTransaction txId s = Some t -> status t = PENDING ->
  exists sender recipient,
    findAccountById (fromAccountId t) s = Some sender
    /\ findAccountById (toAccountId t) s = Some recipient
    /\ amount t <= locked sender
    /\ amount t <= balance sender.
Proof.
  intros (Hok & Hndt & Hpos & Hd & Href & Hres) Hfind Hst.
  destruct (find_key tx_id _ _ _ Hfind) as [_ Hin].
  destruct (proj1 (Forall_forall _ _) Href t Hin) as [Hfrom Hto].
  destruct (find_by_id_exists _ _ Hfrom) as [sender Hs].
  destruct (find_by_id_exists _ _ Hto) as [recipient Hr].
  exists sender, recipient. split; [exact Hs|]. split; [exact Hr|].
  destruct (find_key acc_id _ _ _ Hs) as [Hsid Hsin].
  pose proof (proj1 (Forall_forall _ _) Hres sender Hsin) as Hlocked.
  cbv beta in Hlocked.
  pose proof (pendingSum_covers _ _ Hpos Hin Hst) as Hcov.
  destruct (proj1 (Forall_forall _ _) Hd sender Hsin) as [H0 Hb].
  rewrite Hsid in Hlocked. lia.
Qed.

Lemma consistent_executor txId s :
  Consistent s -> Bounded s ->
  Consistent (store (executeSingleTransaction txId s))
  /\ Bounded (store (executeSingleTransaction txId s)).
Proof.
  intros Hc Hbd.
  pose proof (Consistent_disciplined s Hc) as Hdis.
  destruct (executeSingleTransaction_sound txId s Hdis Hbd)
    as (Hdis' & Hbd' & _).
  split; [|exact Hbd'].
  pose proof (executor_keeps_ids txId s) as Htxids.
  destruct (executor_committed_cases txId s)
    as [E|(t & sender & recipient & Hfind & Hp & Hs & Hr & Hl & Hb)];
    [rewrite E; exact Hc|].
  rewrite (executor_success_form _ _ _ _ _ Hdis Hbd Hfind Hp Hs Hr Hl Hb)
    in *.
  cbn [store] in *.
  destruct Hc as (Hok & Hndt & Hpos & Hd & Href & Hres).
  destruct Hdis' as (Hok' & Hpos' & Hd').
  destruct (find_key tx_id _ _ _ Hfind) as [Hid Hin].
  destruct (find_key acc_id _ _ _ Hs) as [Hsid Hsin].
  destruct (find_key acc_id _ _ _ Hr) as [Hrid Hrin].
  destruct (proj1 (Forall_forall _ _) (proj2 Hok) t Hin) as [Hne _].
  set (t1 := set_status t PROCESSING) in *.
  set (sender' := set_locked _ _) in *.
  set (recipient' := set_balance recipient _) in *.
  assert (Hfind1 : find (fun x => (tx_id x =? tx_id t1)%string)
                        (transactions s) = Some t)
    by (change (tx_id t1) with (tx_id t); rewrite Hid; exact Hfind).
  assert (Hids1 : map acc_id (save acc_id sender' (accounts s))
                  = map acc_id (accounts s))
    by (apply map_key_save; change (acc_id sender') with (acc_id sender);
        apply in_map; exact Hsin).
  assert (Hids : map acc_id
                   (save acc_id recipient' (save acc_id sender' (accounts s)))
                 = map acc_id (accounts s)).
  { rewrite map_key_save; [exact Hids1|]. rewrite Hids1.
    change (acc_id recipient') with (acc_id recipient).
    apply in_map. exact Hrin. }
  split; [exact Hok'|].
  split; [rewrite Htxids; exact Hndt|].
  split; [exact Hpos'|]. split; [exact Hd'|]. split.
  - simpl accounts. simpl transactions. rewrite Hids.
    apply (Forall_save tx_id); [exact Href|].
    exact (proj1 (Forall_forall _ _) Href t Hin).
  - simpl accounts. simpl transactions.
    apply Forall_forall. intros a Ha.
    rewrite (pendingSum_replace (acc_id a) _ t t1 Hndt Hfind1 eq_refl Hp)
      by discriminate.
    apply In_save in Ha. destruct Ha as [->|[Ha Hnr]].
    + change (locked recipient') with (locked recipient).
      change (acc_id recipient') with (acc_id recipient).
      rewrite (proj1 (Forall_forall _ _) Hres recipient Hrin).
      assert (E : (fromAccountId t =? acc_id recipient)%string = false)
        by (apply String.eqb_neq; congruence).
      rewrite E. lia.
    + apply In_save in Ha. destruct Ha as [->|[Ha Hns]].
      * change (locked sender') with (locked sender - amount t).
        change (acc_id sender') with (acc_id sender).
        rewrite (proj1 (Forall_forall _ _) Hres sender Hsin).
        rewrite Hsid, String.eqb_refl. reflexivity.
      * rewrite (proj1 (Forall_forall _ _) Hres a Ha).
        assert (E : (fromAccountId t =? acc_id a)%string = false).
        { apply String.eqb_neq.
          change (acc_id sender') with (acc_id sender) in Hns. congruence. }
        rewrite E. lia.
Qed.

(** X15.  In a consistent ledger (well formed, transaction ids unique,
    positive amounts, [balance >= locked >= 0], endpoints present, every
    [locked] equal to what the account's PENDING transfers reserve) whose
    balances add up to at most [MAX_EXACT] per currency, the executor
    never fails a PENDING transaction: its two FAILED branches and the
    missing-endpoint branch cannot be taken, the transaction is returned
    as PROCESSING, the store transaction is committed, and the ledger
    stays consistent and within the bound. *)
Theorem consistent_execution_succeeds (txId : string) (s : State)
        (t : Transaction) :
  Consistent s ->
  Bounded s ->
  findTransaction txId s = Some t ->
  status t = PENDING ->
  returned (executeSingleTransaction txId s) = Some (set_status t PROCESSING)
  /\ ending (executeSingleTransaction txId s) = Committed
  /\ Consistent (store (executeSingleTransaction txId s))
  /\ Bounded (store (executeSingleTransaction txId s)).
Proof.
  intros Hc Hbd Hfind Hp.
  destruct (consistent_covers _ _ _ Hc Hfind Hp)
    as (sender & recipient & Hs & Hr & Hl & Hb).
  split; [|split; [|apply consistent_executor; assumption]];
    rewrite (executor_success_written _ _ _ _ _ Hfind Hp Hs Hr Hl Hb);
    reflexivity.
Qed.

Lemma Consistent_tables (s s' : State) :
  accounts s' = accounts s -> transactions s' = transactions s ->
  Consistent s -> Consistent s'.
Proof.
  unfold Consistent, LedgerOK, AmountsPositive, LockDisciplined, accountKeys.
  intros -> ->. auto.
Qed.

Lemma consistent_submit
      newId entropy userId from to amt currency descr s t s' :
  Consistent s -> Bounded s ->
  submitTransfer newId entropy userId from to amt currency descr s
    = (inr t, s') ->
  Consistent s' /\ Bounded s'.
Proof.
  intros Hc Hbd H.
  pose proof (Consistent_disciplined s Hc) as Hdis.
  destruct (submitTransfer_sound _ _ _ _ _ _ _ _ _ _ _ Hdis Hbd H)
    as ((Hok' & Hpos' & Hd') & Hbd' & _).
  split; [|exact Hbd'].
  pose proof (submit_keeps_ids _ _ _ _ _ _ _ _ _ _ _
                (proj1 (proj2 Hc)) H) as Hndt'.
  destruct Hc as (Hok & Hndt & Hpos & Hd & Href & Hres).
  apply submitTransfer_success in H.
  destruct H as (sender & recipient & Hamt & Hne & Hs & Hr & _ & _ & Hav
                 & Ht & Hex & Hs').
  apply find_some in Hs. destruct Hs as [Hsin _].
  apply find_some in Hr. destruct Hr as [Hrin _].
  destruct (submitTransfer_exact s sender amt Hd Hbd Hsin Hamt Hav)
    as [E1 E2].
  rewrite E1 in Hs'. rewrite E2 in Ht.
  set (sender' := set_nonce _ _) in Hs'.
  assert (Hids : map acc_id (save acc_id sender' (accounts s))
                 = map acc_id (accounts s))
    by (apply map_key_save; change (acc_id sender') with (acc_id sender);
        apply in_map; exact Hsin).
  split; [exact Hok'|]. split; [exact Hndt'|].
  split; [exact Hpos'|]. split; [exact Hd'|].
  subst s'; simpl. rewrite Hids. split.
  - apply Forall_app. split; [exact Href|].
    constructor; [|constructor]. subst t. simpl.
    split; apply in_map; assumption.
  - apply Forall_forall. intros a Ha. rewrite pendingSum_app.
    subst t. simpl.
    apply In_save in Ha. destruct Ha as [->|[Ha Hns]].
    + change (locked sender') with (locked sender + amt).
      change (acc_id sender') with (acc_id sender).
      rewrite (proj1 (Forall_forall _ _) Hres sender Hsin).
      rewrite String.eqb_refl. simpl. lia.
    + rewrite (proj1 (Forall_forall _ _) Hres a Ha).
      assert (E : (acc_id sender =? acc_id a)%string = false).
      { apply String.eqb_neq.
        change (acc_id sender') with (acc_id sender) in Hns. congruence. }
      rewrite E. simpl. lia.
Qed.

Lemma consistent_confirm ids b s :
  Consistent s -> Consistent (confirmTransactions ids b s).
Proof.
  intros (Hok & Hndt & Hpos & Hd & Href & Hres).
  pose proof (confirmTransactions_frame ids b s) as Hframe.
  split; [apply (LedgerOK_frame s); auto|].
  split; [|split; [apply (AmountsPositive_frame s); auto|split; [exact Hd|]]].
  - rewrite confirm_keeps_ids. exact Hndt.
  - split.
    + apply Forall_forall. intros x Hx.
      destruct (Hframe x Hx) as (y & Hy & Hf & Hto & _).
      rewrite Hf, Hto. exact (proj1 (Forall_forall _ _) Href y Hy).
    + apply Forall_forall. intros a Ha.
      change (transactions (confirmTransactions ids b s))
        with (map (confirmRow ids b) (transactions s)).
      rewrite pendingSum_confirm.
      exact (proj1 (Forall_forall _ _) Hres a Ha).
Qed.

Lemma noneFailed_confirm ids b s :
  Forall (fun t => status t <> FAILED) (transactions s) ->
  Forall (fun t => status t <> FAILED)
         (transactions (confirmTransactions ids b s)).
Proof.
  intros Hnone. simpl. apply Forall_forall. intros x Hx.
  apply in_map_iff in Hx. destruct Hx as (y & <- & Hy).
  pose proof (proj1 (Forall_forall _ _) Hnone y Hy) as Hny.
  unfold confirmRow. destruct (_ && _); [discriminate | exact Hny].
Qed.

(** X16.  Consistency is an invariant of the pipeline when no store call
    fails: from a consistent ledger whose balances add up to at most
    [MAX_EXACT] per currency, after any sequence of successful intakes and
    processing cycles the ledger is consistent and within the bound (so
    every [locked] still equals what the account's PENDING transfers
    reserve), and if no transaction was FAILED at the start none is FAILED
    at the end. *)
Theorem pipeline_keeps_consistency (cfg : Config) (p p' : Processor) :
  pipeline cfg faultFree p p' ->
  Consistent (ledger p) ->
  Bounded (ledger p) ->
  Consistent (ledger p')
  /\ Bounded (ledger p')
  /\ (Forall (fun t => status t <> FAILED) (transactions (ledger p)) ->
      Forall (fun t => status t <> FAILED) (transactions (ledger p'))).
Proof.
  intros Hrun Hc Hbd.
  assert (H1 : Consistent (ledger p') /\ Bounded (ledger p')).
  { refine (pipeline_invariant (fun s => Consistent s /\ Bounded s)
              _ _ _ _ cfg p p' Hrun (conj Hc Hbd)).
    - intros s s' Ha Ht [Hcs Hbs]. split.
      + apply (Consistent_tables s); assumption.
      + apply (Bounded_tables s); assumption.
    - intros newId entropy userId from to amt currency descr s t s'
             [Hcs Hbs] H.
      eapply consistent_submit; eauto.
    - intros txId s [Hcs Hbs]. apply consistent_executor; assumption.
    - intros ids b s [Hcs Hbs]. split.
      + apply consistent_confirm. exact Hcs.
      + apply (Bounded_tables s); [reflexivity | exact Hbs]. }
  destruct H1 as [Hc' Hbd']. split; [exact Hc'|]. split; [exact Hbd'|].
  refine (pipeline_invariant
            (fun s => Forall (fun t => status t <> FAILED) (transactions s))
            _ _ _ _ cfg p p' Hrun).
  - intros s s' _ Ht. rewrite Ht. auto.
  - intros newId entropy userId from to amt currency descr s t s' Hnone H.
    apply submitTransfer_success in H.
    destruct H as (sender & recipient & _ & _ & _ & _ & _ & _ & _ & Ht & _
                   & ->).
    simpl. apply Forall_app. split; [exact Hnone|].
    constructor; [|constructor]. subst t. discriminate.
  - intros txId s Hnone.
    apply executor_keeps_rows; [|exact Hnone]. intros t _. discriminate.
  - intros ids b s. apply noneFailed_confirm.
Qed.

(** ** The transactions of a sealed block *)

Lemma find_tx_of_In (txs : list Transaction) (y : Transaction) :
  NoDup (map tx_id txs) -> In y txs ->
  find (fun t => (tx_id t =? tx_id y)%string) txs = Some y.
Proof.
  intros Hnd Hin.
  destruct (find (fun t => (tx_id t =? tx_id y)%string) txs) as [r|] eqn:E.
  - destruct (find_key tx_id _ _ _ E) as [Hk Hr].
    f_equal. apply (NoDup_key_inj tx_id txs); assumption.
  - exfalso. apply (find_none _ _ E) in Hin.
    rewrite String.eqb_refl in Hin. discriminate.
Qed.

Lemma executedLedger_keeps_rows (P : Transaction -> Prop) (cfg : Config)
      (env : CycleEnv) (p : Processor) :
  (forall t, P t -> P (set_status t PROCESSING)) ->
  faultFree env ->
  NoDup (map tx_id (transactions (ledger p))) ->
  Forall P (transactions (ledger p)) ->
  NoDup (map tx_id (transactions (executedLedger cfg env p)))
  /\ Forall P (transactions (executedLedger cfg env p)).
Proof.
  intros HP Hff Hnd Hrows.
  refine (executedLedger_invariant
            (fun s => NoDup (map tx_id (transactions s))
                      /\ Forall P (transactions s))
            _ _ cfg env p Hff (conj Hnd Hrows)).
  - intros s s' _ Ht. rewrite Ht. auto.
  - intros txId s [Hn Hr]. split.
    + rewrite executor_keeps_ids. exact Hn.
    + apply executor_keeps_rows; assumption.
Qed.

(** X17.  After a cycle has sealed block [b], the transactions
    [getTransactionsInBlock] lists under the id of [b] are exactly the
    stored rows of the transactions the cycle collected, each of them
    CONFIRMED.  This holds when no store call of the cycle fails,
    transaction ids are unique in the ledger before the cycle (the primary
    key), no row refers to the id the new block receives, and that id is
    not the hash of a stored block (the lookup accepts an id or a
    hash). *)
Theorem sealed_block_lists_collected (cfg : Config) (env : CycleEnv)
        (p : Processor) (b : Block) (s2 : State) :
  faultFree env ->
  NoDup (map tx_id (transactions (ledger p))) ->
  Forall (fun t => blockId t <> Some (newBlockId env))
         (transactions (ledger p)) ->
  Forall (fun o => blockHash o <> newBlockId env) (blocks (ledger p)) ->
  shouldCreateBlock cfg p (nowAtDecision env) (collected cfg env p) = true ->
  createBlockWithTypeORM (newBlockId env) (blockTimestamp env)
    (collected cfg env p) (executedLedger cfg env p) = inr (b, s2) ->
  forall t,
    In t (getTransactionsInBlock (block_id b)
            (ledger (processMempoolAndCreateBlock cfg env p)))
    <-> (In t (transactions (ledger (processMempoolAndCreateBlock cfg env p)))
         /\ In (tx_id t, systemHash t) (collected cfg env p)
         /\ status t = CONFIRMED).
Proof.
  intros Hff Hndt Hfk Hbh Hshould Hcreate t.
  destruct (cycle_cases cfg env p)
    as [[Hno _]|[(_ & b' & s2' & Hcreate' & Heq)|(_ & e & Hfail & _)]];
    try congruence.
  assert (b' = b /\ s2' = s2) as [-> ->] by (split; congruence).
  rewrite Heq. cbn [ledger]. clear Heq Hcreate'.
  destruct (createBlock_inv _ _ _ _ _ _ Hcreate) as (Hbs & _).
  destruct (createBlock_fields _ _ _ _ _ _ Hcreate)
    as (Hid & _ & _ & _ & _ & Htx & _).
  pose proof (createBlock_fresh _ _ _ _ _ _ Hcreate) as Hfresh.
  rewrite Forall_forall in Hfresh.
  destruct (executedLedger_steps cfg env p) as (rest & _ & Hblocks).
  destruct (executedLedger_keeps_rows
              (fun t => blockId t <> Some (newBlockId env)) cfg env p
              (fun t H => H) Hff Hndt Hfk) as [Hnd Hrows].
  rewrite Forall_forall in Hrows.
  set (ids := map fst (collected cfg env p)).
  assert (Hget : getTransactionsInBlock (block_id b)
                   (confirmTransactions ids b s2)
                 = filter (fun t => match blockId t with
                                    | Some i => (i =? block_id b)%string
                                    | None => false
                                    end)
                          (map (confirmRow ids b)
                               (transactions (executedLedger cfg env p)))).
  { unfold getTransactionsInBlock.
    change (blocks (confirmTransactions ids b s2)) with (blocks s2).
    rewrite Hbs, find_app_new.
    - unfold transactionsOf. rewrite <- Htx. reflexivity.
    - intros o Ho. apply orb_false_iff. split; apply String.eqb_neq.
      + exact (proj1 (Hfresh o Ho)).
      + rewrite Hid. rewrite Hblocks in Ho.
        exact (proj1 (Forall_forall _ _) Hbh o Ho).
    - rewrite String.eqb_refl. reflexivity. }
  rewrite Hget.
  change (transactions (confirmTransactions ids b s2))
    with (map (confirmRow ids b) (transactions s2)).
  rewrite Htx, filter_In.
  assert (Hmatch : forall y,
             In y (transactions (executedLedger cfg env p)) ->
             In (tx_id y, systemHash y) (collected cfg env p) ->
             existsb (fun i => (tx_id y =? i)%string) ids
             && status_eqb (status y) PROCESSING = true).
  { intros y Hy Hin. unfold collected, executedLedger in *.
    destruct (executeBatch_collected env _ _ _ _ Hff Hin)
      as (t0 & Hfind & Hst & _).
    unfold findTransaction in Hfind.
    rewrite (find_tx_of_In _ y Hnd Hy) in Hfind.
    inversion Hfind; subst t0. rewrite Hst.
    apply andb_true_iff. split; [|reflexivity].
    apply existsb_exists. exists (tx_id y). split.
    - apply (in_map fst) in Hin. exact Hin.
    - apply String.eqb_refl. }
  split.
  - intros [Hin Hblock]. split; [exact Hin|].
    apply in_map_iff in Hin. destruct Hin as (y & <- & Hy).
    unfold confirmRow in *.
    destruct (existsb (fun i => (tx_id y =? i)%string) ids
              && status_eqb (status y) PROCESSING) eqn:Hcond.
    + cbn [tx_id systemHash status]. split; [|reflexivity].
      apply andb_true_iff in Hcond. destruct Hcond as [Hmem _].
      apply existsb_exists in Hmem. destruct Hmem as (i & Hi & Heqi).
      apply String.eqb_eq in Heqi.
      apply in_map_iff in Hi. destruct Hi as ([id h] & Hfst & Hih).
      simpl in Hfst. subst i.
      unfold collected, executedLedger in *.
      destruct (executeBatch_collected env _ _ _ _ Hff Hih)
        as (t0 & Hfind & _ & _ & Hhash & _).
      unfold findTransaction in Hfind. rewrite <- Heqi in Hfind.
      rewrite (find_tx_of_In _ y Hnd Hy) in Hfind.
      inversion Hfind; subst t0. rewrite Heqi, Hhash. exact Hih.
    + exfalso. apply (Hrows y Hy).
      destruct (blockId y) as [i|]; [|discriminate].
      apply String.eqb_eq in Hblock. congruence.
  - intros (Hin & Hcol & _).
    split; [exact Hin|].
    apply in_map_iff in Hin. destruct Hin as (y & <- & Hy).
    assert (Hcol' : In (tx_id y, systemHash y) (collected cfg env p)).
    { rewrite confirmRow_key in Hcol.
      unfold confirmRow in Hcol. destruct (_ && _); exact Hcol. }
    unfold confirmRow. rewrite (Hmatch y Hy Hcol').
    cbn [blockId]. apply String.eqb_refl.
Qed.

(** ** Account nonces *)

Lemma nonces_transfer (s s' : State) :
  map nonceKey (transactions s') = map nonceKey (transactions s) ->
  (forall a', In a' (accounts s') ->
     exists a, In a (accounts s) /\ acc_id a = acc_id a'
               /\ nonce a <= nonce a') ->
  NoncesInOrder s -> NoncesInOrder s'.
Proof.
  intros Htx Hacc [Hnd Hlt]. split; [rewrite Htx; exact Hnd|].
  intros t' a' Ht' Ha' Hid.
  assert (Hk : In (nonceKey t') (map nonceKey (transactions s)))
    by (rewrite <- Htx; apply in_map; exact Ht').
  apply in_map_iff in Hk. destruct Hk as (t & Hkey & Ht).
  unfold nonceKey in Hkey. inversion Hkey as [[Hf Hn]].
  destruct (Hacc a' Ha') as (a & Ha & Haid & Hle).
  assert (accountNonce t < nonce a) by (apply Hlt; congruence).
  lia.
Qed.

Lemma nonces_tables (s s' : State) :
  accounts s' = accounts s -> transactions s' = transactions s ->
  NoncesInOrder s -> NoncesInOrder s'.
Proof. unfold NoncesInOrder. intros -> ->. auto. Qed.

Lemma nonces_executor (txId : string) (s : State) :
  NoDup (map tx_id (transactions s)) -> NoncesInOrder s ->
  NoncesInOrder (store (executeSingleTransaction txId s)).
Proof.
  intros Hndt Hn.
  destruct (executor_committed_cases txId s)
    as [E|(t & sender & recipient & Hfind & Hp & Hs & Hr & Hl & Hb)];
    [rewrite E; exact Hn|].
  rewrite (executor_success_written _ _ _ _ _ Hfind Hp Hs Hr Hl Hb).
  cbn [store].
  destruct (find_key tx_id _ _ _ Hfind) as [Hid Hin].
  destruct (find_key acc_id _ _ _ Hs) as [Hsid Hsin].
  destruct (find_key acc_id _ _ _ Hr) as [Hrid Hrin].
  apply (nonces_transfer s); [| |exact Hn]; simpl.
  - apply (map_save_existing tx_id nonceKey _ t).
    + change (tx_id (set_status t PROCESSING)) with (tx_id t).
      rewrite Hid. exact Hfind.
    + intros r Hr' Hk. change (tx_id (set_status t PROCESSING))
        with (tx_id t) in Hk.
      rewrite (NoDup_key_inj tx_id _ r t Hndt Hr' Hin Hk). reflexivity.
  - intros a' Ha'.
    apply In_save in Ha'. destruct Ha' as [->|[Ha' _]].
    + exists recipient. simpl. split; [exact Hrin|]. split; [reflexivity|lia].
    + apply In_save in Ha'. destruct Ha' as [->|[Ha' _]].
      * exists sender. simpl. split; [exact Hsin|]. split; [reflexivity|lia].
      * exists a'. split; [exact Ha'|]. split; [reflexivity|lia].
Qed.

Lemma nonces_confirm ids b s :
  NoncesInOrder s -> NoncesInOrder (confirmTransactions ids b s).
Proof.
  apply nonces_transfer.
  - simpl. rewrite map_map. apply map_ext. intros t.
    unfold confirmRow. destruct (_ && _); reflexivity.
  - intros a' Ha'. exists a'. split; [exact Ha'|]. split; [reflexivity|lia].
Qed.

Lemma nonces_submit
      newId entropy userId from to amount currency descr s t s' :
  NoncesInOrder s ->
  submitTransfer newId entropy userId from to amount currency descr s
    = (inr t, s') ->
  NoncesInOrder s'.
Proof.
  intros [Hnd Hlt] H.
  apply submitTransfer_success in H.
  destruct H as (sender & recipient & _ & _ & Hs & _ & _ & _ & _
                 & Ht & _ & Hs').
  apply find_some in Hs. destruct Hs as [Hsin _].
  set (sender' := set_nonce _ _) in Hs'.
  subst s'. split; simpl.
  - rewrite map_app. simpl. apply NoDup_snoc; [exact Hnd|].
    intros Hin. apply in_map_iff in Hin. destruct Hin as (o & Hk & Ho).
    unfold nonceKey in Hk. subst t. simpl in Hk. inversion Hk as [[Hf Hno]].
    assert (accountNonce o < nonce sender) by (apply Hlt; auto).
    lia.
  - intros t' a' Ht' Ha' Hid.
    apply In_save in Ha'. apply in_app_or in Ht'.
    destruct Ha' as [->|[Ha' Hne]].
    + change (nonce sender') with (nonce sender + 1).
      change (acc_id sender') with (acc_id sender) in Hid.
      destruct Ht' as [Ht'|[<-|[]]].
      * assert (accountNonce t' < nonce sender) by (apply Hlt; auto). lia.
      * subst t. simpl. lia.
    + destruct Ht' as [Ht'|[<-|[]]].
      * apply Hlt; assumption.
      * exfalso. apply Hne. subst t. simpl in Hid.
        change (acc_id sender') with (acc_id sender). exact Hid.
Qed.

(** X18.  Along any run of the pipeline in which no store call fails,
    from a ledger whose transaction ids are unique (the primary key) and
    whose nonces are in order, no two stored transfers of one account ever
    carry the same [accountNonce], and every stored [accountNonce] stays
    below the [nonce] of its account: the intake hands out each nonce
    once, and nothing later touches it.  Transaction ids stay unique. *)
Theorem pipeline_nonces_in_order (cfg : Config) (p p' : Processor) :
  pipeline cfg faultFree p p' ->
  NoDup (map tx_id (transactions (ledger p))) ->
  NoncesInOrder (ledger p) ->
  NoncesInOrder (ledger p')
  /\ NoDup (map tx_id (transactions (ledger p'))).
Proof.
  intros Hrun Hnd Hn.
  refine (pipeline_invariant
            (fun s => NoncesInOrder s /\ NoDup (map tx_id (transactions s)))
            _ _ _ _ cfg p p' Hrun (conj Hn Hnd)).
  - intros s s' Ha Ht [H1 H2]. split.
    + apply (nonces_tables s); assumption.
    + rewrite Ht. exact H2.
  - intros newId entropy userId from to amount currency descr s t s'
           [H1 H2] H. split.
    + eapply nonces_submit; eauto.
    + eapply submit_keeps_ids; eauto.
  - intros txId s [H1 H2]. split.
    + apply nonces_executor; assumption.
    + rewrite executor_keeps_ids. exact H2.
  - intros ids b s [H1 H2]. split.
    + apply nonces_confirm. exact H1.
    + rewrite confirm_keeps_ids. exact H2.
Qed.

(** ** Reading a transaction back *)

Lemma ownedBy_after_intake (id reader : string) (s s' : State)
      (sender : Account) (v n : Z) :
  NoDup (map acc_id (accounts s)) ->
  In sender (accounts s) ->
  accounts s'
    = save acc_id (set_nonce (set_locked sender v) n) (accounts s) ->
  ownedBy id reader s' = ownedBy id reader s.
Proof.
  intros Hnd Hin Hacc. unfold ownedBy, findAccountById. rewrite Hacc.
  destruct (String.eqb_spec (acc_id sender) id) as [<-|Hne].
  - change (acc_id sender)
      with (acc_id (set_nonce (set_locked sender v) n)) at 1.
    rewrite (find_save_same acc_id).
    rewrite (find_by_id_of_In _ _ Hnd Hin). reflexivity.
  - rewrite (find_save_other acc_id); [reflexivity|exact Hne].
Qed.

(** X19.  A transfer that [submitTransfer] accepted can be read back under
    the [systemHash] it was given: [getTransactionBySystemHash] returns the
    row to the submitting user and to any user who owns one of its two
    accounts, and refuses every other user with [ForbiddenException]. *)
Theorem submitted_transfer_is_readable
      newId entropy userId from to amount currency descr s t s' :
  NoDup (map acc_id (accounts s)) ->
  submitTransfer newId entropy userId from to amount currency descr s
    = (inr t, s') ->
  systemHash t = ("txn_" ++ entropy)%string
  /\ getTransactionBySystemHash userId ("txn_" ++ entropy) s' = inr (Some t)
  /\ forall reader,
       getTransactionBySystemHash reader ("txn_" ++ entropy) s'
       = if ownedBy (fromAccountId t) reader s
            || ownedBy (toAccountId t) reader s
         then inr (Some t) else inl ForbiddenException.
Proof.
  intros Hnd H. apply submitTransfer_success in H.
  destruct H as (sender & recipient & _ & _ & Hs & _ & _ & _ & _
                 & Ht & Hex & Hs').
  apply find_some in Hs. destruct Hs as [Hsin Hown].
  apply andb_true_iff in Hown. destruct Hown as [_ Hown].
  assert (Hhash : systemHash t = ("txn_" ++ entropy)%string)
    by (subst t; reflexivity).
  assert (Hread : forall reader,
             getTransactionBySystemHash reader ("txn_" ++ entropy) s'
             = if ownedBy (fromAccountId t) reader s
                  || ownedBy (toAccountId t) reader s
               then inr (Some t) else inl ForbiddenException).
  { intros reader. unfold getTransactionBySystemHash.
    rewrite Hs' at 1. cbn [transactions].
    rewrite find_app_new.
    - rewrite !(ownedBy_after_intake _ _ s s' sender _ _ Hnd Hsin)
        by (rewrite Hs'; reflexivity).
      reflexivity.
    - intros o Ho. rewrite <- Hhash.
      destruct (systemHash o =? systemHash t)%string eqn:E; [|reflexivity].
      assert (Hc : existsb (fun o => (tx_id o =? tx_id t)%string
                                     || (systemHash o =? systemHash t)%string)
                           (transactions s) = true).
      { apply existsb_exists. exists o. split; [exact Ho|].
        rewrite E. apply orb_true_r. }
      congruence.
    - rewrite <- Hhash. apply String.eqb_refl. }
  split; [exact Hhash|]. split; [|exact Hread].
  rewrite Hread.
  assert (Ho : ownedBy (fromAccountId t) userId s = true).
  { unfold ownedBy, findAccountById. subst t. cbn [fromAccountId].
    rewrite (find_by_id_of_In _ _ Hnd Hsin). exact Hown. }
  rewrite Ho. reflexivity.
Qed.

(** ** Opening an account *)

Lemma pendingSum_stranger (id : string) (txs : list Transaction) :
  Forall (fun t => fromAccountId t <> id) txs -> pendingSum id txs = 0.
Proof.
  induction 1 as [|t txs Ht _ IH]; simpl; [reflexivity|].
  apply String.eqb_neq in Ht. rewrite Ht, IH. reflexivity.
Qed.

Lemma sumBalance_app (c : string) (l l' : list Account) :
  sumBalance c (l ++ l') = sumBalance c l + sumBalance c l'.
Proof. induction l as [|a l IH]; simpl; [reflexivity|]. rewrite IH. lia. Qed.

Lemma createAccountInWallet_success
      wallets newId entropy userId currency s a s' :
  createAccountInWallet wallets newId entropy userId currency s
    = (inr a, s') ->
  exists wallet,
    find (fun w => (wallet_user w =? userId)%string) wallets = Some wallet
    /\ a = mkAccount newId ("acc_" ++ entropy)%string 0 0 0
                     (toUpperCase currency) (wallet_id wallet) userId
    /\ Forall (fun o => acc_id o <> newId
                        /\ systemAddress o <> ("acc_" ++ entropy)%string
                        /\ (walletId o, acc_currency o)
                           <> (wallet_id wallet, toUpperCase currency))
              (accounts s)
    /\ s' = with_accounts s (accounts s ++ [a]).
Proof.
  unfold createAccountInWallet.
  destruct (find _ wallets) as [wallet|] eqn:Hw; [|discriminate].
  destruct (find _ (accounts s)) as [existing|] eqn:He; [discriminate|].
  unfold insertAccount. cbn [acc_id systemAddress walletId acc_currency].
  match goal with |- context [existsb ?f ?l] =>
    destruct (existsb f l) eqn:Hex end; [discriminate|].
  intros H. inversion H; subst; clear H.
  destruct (find_some _ _ Hw) as [_ Hu]. apply String.eqb_eq in Hu.
  exists wallet. split; [reflexivity|].
  split; [rewrite Hu; reflexivity|split].
  - apply Forall_forall. intros o Ho.
    assert (Hf : (acc_id o =? newId)%string
                 || (systemAddress o =? "acc_" ++ entropy)%string
                 || ((walletId o =? wallet_id wallet)%string
                     && (acc_currency o =? toUpperCase currency)%string)
                 = false).
    { destruct ((acc_id o =? newId)%string
                || (systemAddress o =? "acc_" ++ entropy)%string
                || ((walletId o =? wallet_id wallet)%string
                    && (acc_currency o =? toUpperCase currency)%string))
        eqn:E; [|reflexivity].
      assert (existsb (fun o => (acc_id o =? newId)%string
                 || (systemAddress o =? "acc_" ++ entropy)%string
                 || ((walletId o =? wallet_id wallet)%string
                     && (acc_currency o =? toUpperCase currency)%string))
                (accounts s) = true)
        by (apply existsb_exists; exists o; auto).
      congruence. }
    apply orb_false_iff in Hf. destruct Hf as [Hf H3].
    apply orb_false_iff in Hf. destruct Hf as [H1 H2].
    apply String.eqb_neq in H1. apply String.eqb_neq in H2.
    split; [exact H1|]. split; [exact H2|].
    intros Heq. inversion Heq as [[Hwi Hcu]].
    rewrite Hwi, Hcu, !String.eqb_refl in H3. discriminate.
  - rewrite Hu. reflexivity.
Qed.

(** X20.  [createAccountInWallet] opens an empty account: balance, locked
    and nonce are zero and the currency is stored in upper case, so a
    consistent ledger stays consistent and the total balance of every
    currency is what it was; the account is found under its new id; and a
    further call for the same user with the same currency, in whatever
    letter case, is refused with a conflict and changes nothing. *)
Theorem createAccountInWallet_opens_empty
      wallets newId entropy userId currency s a s' :
  Consistent s ->
  createAccountInWallet wallets newId entropy userId currency s
    = (inr a, s') ->
  Consistent s'
  /\ (forall c, totalBalance c s' = totalBalance c s)
  /\ findAccountById newId s' = Some a
  /\ (balance a, locked a, nonce a) = (0, 0, 0)
  /\ acc_currency a = toUpperCase currency
  /\ wallet_userId a = userId
  /\ forall newId2 entropy2 currency2,
       toUpperCase currency2 = toUpperCase currency ->
       createAccountInWallet wallets newId2 entropy2 userId currency2 s'
       = (inl CurrencyExists, s').
Proof.
  intros (Hok & Hndt & Hpos & Hd & Href & Hres) H.
  destruct (createAccountInWallet_success _ _ _ _ _ _ _ _ H)
    as (wallet & Hw & Ha & Hfresh & Hs').
  rewrite Forall_forall in Hfresh.
  assert (Hnew : ~ In newId (map acc_id (accounts s))).
  { intros Hin. apply in_map_iff in Hin. destruct Hin as (o & Ho & Hoin).
    exact (proj1 (Hfresh o Hoin) Ho). }
  assert (Hstr : Forall (fun t => fromAccountId t <> newId
                                  /\ toAccountId t <> newId)
                        (transactions s)).
  { apply Forall_forall. intros t Ht.
    destruct (proj1 (Forall_forall _ _) Href t Ht) as [Hf Hto].
    split; intros E; apply Hnew; congruence. }
  rewrite Forall_forall in Hstr.
  split; [|split; [|split; [|split; [|split; [|split]]]]].
  - subst s'. unfold Consistent, LedgerOK, AmountsPositive, LockDisciplined,
      accountKeys. cbn [accounts transactions with_accounts].
    split; [split|split; [exact Hndt|split; [exact Hpos|split; [|split]]]].
    + rewrite map_app. apply NoDup_snoc; [apply Hok|].
      subst a. exact Hnew.
    + apply Forall_forall. intros t Ht.
      destruct (proj1 (Forall_forall _ _) (proj2 Hok) t Ht) as [Hne Hcur].
      split; [exact Hne|]. intros c1 c2 H1 H2.
      rewrite map_app in H1, H2.
      apply in_app_or in H1. apply in_app_or in H2.
      destruct (Hstr t Ht) as [Hf Hto].
      destruct H1 as [H1|[H1|[]]];
        [|subst a; unfold keyOf in H1; cbn in H1; congruence].
      destruct H2 as [H2|[H2|[]]];
        [|subst a; unfold keyOf in H2; cbn in H2; congruence].
      exact (Hcur c1 c2 H1 H2).
    + apply Forall_app. split; [exact Hd|].
      constructor; [|constructor]. subst a. split; simpl; lia.
    + apply Forall_forall. intros t Ht. rewrite map_app.
      destruct (proj1 (Forall_forall _ _) Href t Ht) as [Hf Hto].
      split; apply in_or_app; left; assumption.
    + apply Forall_app. split; [exact Hres|].
      constructor; [|constructor]. subst a. cbn [locked acc_id].
      symmetry. apply pendingSum_stranger.
      apply Forall_forall. intros t Ht. exact (proj1 (Hstr t Ht)).
  - intros c. subst s'. unfold totalBalance. cbn [accounts with_accounts].
    rewrite sumBalance_app. subst a. simpl.
    destruct (toUpperCase currency =? c)%string; lia.
  - subst s'. unfold findAccountById. cbn [accounts with_accounts].
    apply find_app_new.
    + intros o Ho. apply String.eqb_neq. exact (proj1 (Hfresh o Ho)).
    + subst a. apply String.eqb_refl.
  - subst a. reflexivity.
  - subst a. reflexivity.
  - subst a. reflexivity.
  - intros newId2 entropy2 currency2 Hcase.
    unfold createAccountInWallet. rewrite Hw, Hcase.
    destruct (find (fun a0 => (walletId a0 =? wallet_id wallet)%string
                              && (acc_currency a0 =? toUpperCase currency)%string)
                   (accounts s')) as [existing|] eqn:He; [reflexivity|].
    exfalso.
    assert (Hin : In a (accounts s'))
      by (subst s'; cbn [accounts with_accounts]; apply in_or_app; right;
          simpl; auto).
    pose proof (find_none _ _ He a Hin) as Hf. cbv beta in Hf.
    subst a. cbn [walletId acc_currency] in Hf.
    rewrite !String.eqb_refl in Hf. discriminate.
Qed.

(* ===================================================================== *)
(** ** The further properties on a run of the first scenario *)
(* ===================================================================== *)

Lemma Run_ids_nonempty :
  Forall (fun id => id <> EmptyString) ["c"; "b"; "a"]%string.
Proof. repeat constructor; discriminate. Defined.

Lemma getFromMempool_takes_tail_witness :
  mempool Run.queued
    = mempool (snd (getFromMempool 2 Run.queued))
      ++ rev (fst (getFromMempool 2 Run.queued))
  /\ List.length (fst (getFromMempool 2 Run.queued))
     = Nat.min (Z.to_nat 2) (List.length (mempool Run.queued))
  /\ with_mempool (snd (getFromMempool 2 Run.queued)) (mempool Run.queued)
     = Run.queued.
Proof. exact (getFromMempool_takes_tail 2 Run.queued Run_ids_nonempty). Defined.

Lemma mempool_fifo_witness :
  fst (getFromMempool 2
         (fold_left (fun st id => addToMempool id st)
                    ["a"; "b"; "c"]%string Scenario.initial))
  = firstn (Z.to_nat 2) ["a"; "b"; "c"]%string
  /\ mempool (snd (getFromMempool 2
                     (fold_left (fun st id => addToMempool id st)
                                ["a"; "b"; "c"]%string Scenario.initial)))
     = rev (skipn (Z.to_nat 2) ["a"; "b"; "c"]%string).
Proof.
  apply (mempool_fifo ["a"; "b"; "c"]%string 2 Scenario.initial).
  - repeat constructor; discriminate.
  - reflexivity.
Defined.

Lemma created_block_is_found_witness :
  exists b,
    getBlockByHash (blockHash b) Scenario.chain0 = Some b
    /\ getBlockByHeight (height b) Scenario.chain0 = Some b
    /\ getLatestBlock Scenario.chain0 = Some b.
Proof.
  destruct Scenario_sealing0 as [b H]. exists b.
  destruct (created_block_is_found _ _ _ _ _ _ H) as (H1 & H2 & H3 & _).
  exact (conj H1 (conj H2 H3)).
Defined.

Lemma Scenario_chain1_sealed : Sealed Scenario.chain1.
Proof.
  destruct Scenario_sealing0 as [b0 H0].
  destruct Scenario_sealing1 as [b1 (H1 & _)].
  exact (Sealed_create _ _ _ _ _ _ (Sealed_create _ _ _ _ _ _
           (Sealed_genesis Scenario.afterExecution eq_refl) H0) H1).
Defined.

Lemma sealed_heights_gapless_witness :
  map height (blocks Scenario.chain1)
  = map Z.of_nat (seq 0 (List.length (blocks Scenario.chain1))).
Proof. exact (sealed_heights_gapless Scenario.chain1 Scenario_chain1_sealed). Defined.

Lemma created_block_hash_format_witness :
  exists b,
    In b (blocks Scenario.chain0)
    /\ isHash64 (blockHash b)
    /\ exists root, merkleRoot b = Some root /\ isHash64 root.
Proof.
  destruct Scenario_sealing0 as [b H]. exists b.
  destruct (created_block_hash_format _ _ _ _ _ _ H) as [H1 H2].
  destruct (createBlock_inv _ _ _ _ _ _ H) as (Hbs & _).
  refine (conj _ (conj H1 H2)).
  rewrite Hbs. apply in_or_app. right. left. reflexivity.
Defined.

Lemma Run_initial_consistent : Consistent Scenario.initial.
Proof.
  destruct Scenario_initial_disciplined as (H1 & H2 & H3).
  refine (conj H1 (conj _ (conj H2 (conj H3 (conj _ _))))).
  - constructor.
  - constructor.
  - repeat constructor.
Defined.

Lemma Run_afterIntake_consistent :
  Consistent (ledger Run.p1) /\ Bounded (ledger Run.p1).
Proof.
  exact (consistent_submit _ _ _ _ _ _ _ _ _ _ _
           Run_initial_consistent Scenario_initial_bounded Scenario_intake).
Defined.

Lemma Run_faultFree : faultFree Run.env.
Proof. intros txId. reflexivity. Defined.

Lemma Run_intake :
  pipelineStep defaultConfig faultFree Run.p0 Run.p1.
Proof.
  exact (pipeline_submit defaultConfig faultFree _ _ _ _ _ _ _ _
           Run.p0 _ _ Scenario_intake).
Defined.

Lemma Run_cycle : pipeline defaultConfig faultFree Run.p1 Run.p2.
Proof.
  apply rt_step.
  exact (pipeline_cycle defaultConfig faultFree Run.env Run.p1 Run_faultFree).
Defined.

Lemma Run_pipeline : pipeline defaultConfig faultFree Run.p0 Run.p2.
Proof.
  apply rt_trans with (y := Run.p1); [apply rt_step; exact Run_intake|].
  exact Run_cycle.
Defined.

Lemma Run_pipeline_any :
  pipeline defaultConfig (fun _ => True) Run.p0 Run.p2.
Proof.
  apply rt_trans with (y := Run.p1); apply rt_step.
  - exact (pipeline_submit defaultConfig (fun _ => True) _ _ _ _ _ _ _ _
             Run.p0 _ _ Scenario_intake).
  - exact (pipeline_cycle defaultConfig (fun _ => True) Run.env Run.p1 I).
Defined.

Lemma Run_second : exists t, Run.second = (inr t, ledger Run.p3).
Proof. eexists. vm_compute. reflexivity. Defined.

(** Two intakes of one sender, then a cycle. *)
Lemma Run_pipeline_two : pipeline defaultConfig faultFree Run.p0 Run.p4.
Proof.
  destruct Run_second as [t H].
  apply rt_trans with (y := Run.p1); [apply rt_step; exact Run_intake|].
  apply rt_trans with (y := Run.p3); apply rt_step.
  - exact (pipeline_submit defaultConfig faultFree _ _ _ _ _ _ _ _
             Run.p1 _ _ H).
  - exact (pipeline_cycle defaultConfig faultFree Run.env Run.p3
             Run_faultFree).
Defined.

Lemma Run_stored :
  findTransaction "tx-1" (ledger Run.p1) = Some Scenario.transfer.
Proof. vm_compute. reflexivity. Defined.

Lemma Run_decision :
  shouldCreateBlock defaultConfig Run.p1 (nowAtDecision Run.env)
                    (collected defaultConfig Run.env Run.p1) = true.
Proof. vm_compute. reflexivity. Defined.

Lemma Run_collected :
  In ("tx-1"%string, "txn_000102030405060708090a0b0c0d0e0f"%string)
     (collected defaultConfig Run.env Run.p1).
Proof. vm_compute. left. reflexivity. Defined.

Lemma Run_sealing :
  exists b s2,
    createBlockWithTypeORM (newBlockId Run.env) (blockTimestamp Run.env)
      (collected defaultConfig Run.env Run.p1)
      (executedLedger defaultConfig Run.env Run.p1) = inr (b, s2).
Proof. eexists. eexists. vm_compute. reflexivity. Defined.

Lemma pipeline_conserves_witness :
  Disciplined (ledger Run.p2)
  /\ Bounded (ledger Run.p2)
  /\ totalBalance "NGN" (ledger Run.p2) = totalBalance "NGN" (ledger Run.p0).
Proof.
  destruct (pipeline_conserves defaultConfig Run.p0 Run.p2
              Scenario_initial_disciplined Scenario_initial_bounded
              Run_pipeline_any) as (H1 & H2 & H3).
  exact (conj H1 (conj H2 (H3 "NGN"%string))).
Defined.

Lemma pipeline_chain_append_only_witness :
  exists added,
    blocks (ledger Run.p2) = blocks (ledger Run.p0) ++ added.
Proof.
  exact (proj1 (pipeline_chain_append_only defaultConfig Run.p0 Run.p2
                  Run_pipeline_any)).
Defined.

Lemma pipeline_rows_move_forward_witness :
  exists t',
    findTransaction "tx-1" (ledger Run.p2) = Some t'
    /\ identityOf t' = identityOf Scenario.transfer
    /\ advances (status Scenario.transfer) (status t')
    /\ (status Scenario.transfer = CONFIRMED
        \/ status Scenario.transfer = FAILED
        \/ status Scenario.transfer = CANCELLED ->
        t' = Scenario.transfer).
Proof.
  exact (pipeline_rows_move_forward defaultConfig Run.p1 Run.p2 "tx-1"
           Scenario.transfer Run_cycle Run_stored).
Defined.

Lemma cycle_confirms_collected_witness :
  exists b t,
    getLatestBlock (ledger Run.p2) = Some b
    /\ findTransaction "tx-1" (ledger Run.p2) = Some t
    /\ status t = CONFIRMED
    /\ blockId t = Some (block_id b).
Proof.
  destruct Run_sealing as (b & s2 & Hcreate).
  destruct (cycle_confirms_collected defaultConfig Run.env Run.p1 b s2
              "tx-1" "txn_000102030405060708090a0b0c0d0e0f"
              Run_faultFree Run_decision Hcreate Run_collected)
    as (Hlatest & t & Hfind & Hst & Hblock & _).
  exists b, t. exact (conj Hlatest (conj Hfind (conj Hst Hblock))).
Defined.

(** A description of 150 accented letters takes 300 bytes and 150 code
    units: with the failure note it has 171 code units and is kept
    whole. *)
Lemma failure_description_fits_witness :
  String.length (Run.accents 150) = 300%nat
  /\ exists t' d,
       findTransaction "tx-1"
         (failTransaction Run.accented "x" (ledger Run.p1)) = Some t'
       /\ status t' = FAILED
       /\ description t' = Some d
       /\ (utf16_length d <= 255)%nat
       /\ d = (Run.accents 150 ++ " | ProcessorFailure: x")%string.
Proof.
  split; [vm_compute; reflexivity|].
  destruct (proj1 failure_description_fits Run.accented "x"%string
              (ledger Run.p1)) as (t' & d & H1 & H2 & H3 & H4 & H5).
  exists t', d.
  refine (conj H1 (conj H2 (conj H3 (conj H4 (H5 _))))).
  apply Nat.leb_le. vm_compute. reflexivity.
Defined.



Lemma consistent_execution_succeeds_witness :
  returned (executeSingleTransaction "tx-1" (ledger Run.p1))
  = Some (set_status Scenario.transfer PROCESSING)
  /\ ending (executeSingleTransaction "tx-1" (ledger Run.p1)) = Committed
  /\ Consistent (store (executeSingleTransaction "tx-1" (ledger Run.p1)))
  /\ Bounded (store (executeSingleTransaction "tx-1" (ledger Run.p1))).
Proof.
  exact (consistent_execution_succeeds "tx-1" (ledger Run.p1)
           Scenario.transfer (proj1 Run_afterIntake_consistent)
           (proj2 Run_afterIntake_consistent) Run_stored eq_refl).
Defined.

Lemma pipeline_keeps_consistency_witness :
  Consistent (ledger Run.p2)
  /\ Bounded (ledger Run.p2)
  /\ Forall (fun t => status t <> FAILED) (transactions (ledger Run.p2)).
Proof.
  destruct (pipeline_keeps_consistency defaultConfig Run.p0 Run.p2
              Run_pipeline Run_initial_consistent Scenario_initial_bounded)
    as (H1 & H2 & H3).
  exact (conj H1 (conj H2 (H3 (Forall_nil _)))).
Defined.

(** The block sealed by the cycle of the run lists the confirmed row of
    S1's transfer. *)
Lemma sealed_block_lists_collected_witness :
  exists b,
    In Run.confirmed (getTransactionsInBlock (block_id b) (ledger Run.p2))
    /\ (In Run.confirmed
           (getTransactionsInBlock (block_id b) (ledger Run.p2))
        <-> (In Run.confirmed (transactions (ledger Run.p2))
             /\ In (tx_id Run.confirmed, systemHash Run.confirmed)
                   (collected defaultConfig Run.env Run.p1)
             /\ status Run.confirmed = CONFIRMED)).
Proof.
  destruct Run_sealing as (b & s2 & Hcreate). exists b.
  assert (Hiff := sealed_block_lists_collected defaultConfig Run.env Run.p1
                    b s2 Run_faultFree).
  specialize (Hiff ltac:(vm_compute; repeat constructor; intros [])).
  specialize (Hiff ltac:(vm_compute; constructor;
                         [discriminate | constructor])).
  specialize (Hiff ltac:(vm_compute; constructor)).
  specialize (Hiff Run_decision Hcreate Run.confirmed).
  split; [|exact Hiff].
  apply Hiff. split; [vm_compute; left; reflexivity|].
  split; [exact Run_collected | reflexivity].
Defined.

(** Two transfers of one sender carry the nonces 0 and 1. *)
Lemma pipeline_nonces_in_order_witness :
  map nonceKey (transactions (ledger Run.p4))
  = [("id-alice"%string, 0); ("id-alice"%string, 1)]
  /\ NoncesInOrder (ledger Run.p4)
  /\ NoDup (map tx_id (transactions (ledger Run.p4))).
Proof.
  split; [vm_compute; reflexivity|].
  apply (pipeline_nonces_in_order defaultConfig Run.p0 Run.p4
           Run_pipeline_two).
  - constructor.
  - split; [constructor | intros t a []].
Defined.

Lemma submitted_transfer_is_readable_witness :
  systemHash Scenario.transfer
  = "txn_000102030405060708090a0b0c0d0e0f"%string
  /\ getTransactionBySystemHash "u-alice"
       "txn_000102030405060708090a0b0c0d0e0f" Scenario.afterIntake
     = inr (Some Scenario.transfer).
Proof.
  destruct (submitted_transfer_is_readable _ _ _ _ _ _ _ _ _ _ _
              (proj1 Scenario_initial_ok) Scenario_intake) as (H1 & H2 & _).
  exact (conj H1 H2).
Defined.

Lemma Run_opening :
  exists a s', Run.opening = (inr a, s').
Proof. eexists. eexists. vm_compute. reflexivity. Defined.

Lemma createAccountInWallet_opens_empty_witness :
  exists a s',
    Consistent s'
    /\ totalBalance "USD" s' = totalBalance "USD" Scenario.initial
    /\ findAccountById "id-alice-usd" s' = Some a
    /\ acc_currency a = toUpperCase "usd".
Proof.
  destruct Run_opening as (a & s' & H). exists a, s'.
  destruct (createAccountInWallet_opens_empty _ _ _ _ _ _ _ _
              Run_initial_consistent H) as (H1 & H2 & H3 & _ & H5 & _).
  exact (conj H1 (conj (H2 "USD"%string) (conj H3 H5))).
Defined.
